(** * A shallow embedding of [vector.h]: [RawMemory<T>] and [Vector<T>]

    The header implements a dynamic array in two layers: [RawMemory<T>] owns a
    block of raw slots, and [Vector<T>] keeps the count of live elements and
    constructs, assigns, moves and destroys the objects of the block by hand.

    The embedding follows the header method by method.

    - A block of [n] slots is a list of [n] slots; a slot is [None] while it
      holds no object (raw or destroyed storage) and [Some x] while it holds a
      live object of value [x].  A [RawMemory] is the address of its block,
      the block, and the capacity that it records.
    - A pointer or iterator is an address: addresses count slots, 0 is
      [nullptr], and [begin() + i] is the address of the block plus [i].  A
      new block is at an address behind the blocks that the allocating call
      has at hand, so that an iterator into the block that a reallocation
      leaves is told apart from the iterators into the block it had.  The
      blocks of the other vectors of a program are not at hand in a call, and
      no statement compares the addresses of two vectors.  A reference is
      given by the offset, in the block of the vector, of the slot that it
      names.
    - The methods run in a state monad over the object they are called on.
      Besides a result and a final state, a run yields the trace of the
      element operations it performed (constructions, assignments,
      destructions), in program order.
    - A failed [assert] and an access outside a block have no defined
      behaviour; both end a run with [Undefined].  The header throws
      [std::out_of_range] itself, and [operator new] throws [std::bad_alloc].
    - What depends on the implementation is read from a [Machine]: the range
      of [size_t], in which [Allocate] multiplies the count of slots by
      [sizeof(T)]; the largest request that [operator new] grants; and
      whether an assignment needs an object to assign to, in which case the
      assignment of a type that is not trivially copyable to a slot without
      an object is undefined, as the move assignment to the element that
      [Erase] has just destroyed is.  The statements that name no machine are
      about the [ideal] one, on which [size_t] is unbounded, every request
      is granted and an assignment is a store.  The statements about
      allocation and about [Erase] are about every machine, or about a 64-bit
      one, [lp64].
    - A construction stores into its slot whatever the slot held before, and
      a read of a slot without an object yields no object.  Element
      constructors and assignments return normally, so the handlers of the
      header are never entered.  The counts other than the count of bytes of
      a request are natural numbers: they are lengths of existing blocks or
      capacities asked for, and the header takes a difference only where it
      is not negative.
    - A comparison [a > b] or [a >= b] of the header is written [b < a] or
      [b ≤ a]. *)

From stdpp Require Import base option list gmap.
From Stdlib Require Import ZArith.
From Stdlib Require Strings.String.
Import String.StringSyntax.
Delimit Scope string_scope with string.

(** ** Element types *)

(** What the header asks of [T]: value initialisation [T()], the state a
    move leaves its source in, and the two type traits read by
    [MoveOrCopyRange].  Two more properties of [T] decide what the header
    does: whether [T] is trivially copyable, so that its destructor does
    nothing and an assignment is a plain store, and [sizeof(T)], which
    [Allocate] multiplies the count of slots by. *)
Class Element (T : Type) := {
  value_init : T;
  moved_from : T → T;
  is_nothrow_move_constructible : bool;
  is_copy_constructible : bool;
  is_trivially_copyable : bool;
  sizeof : positive;
}.

(** [int]: value-initialised to zero, a move is a copy.  The vectors of
    [int] below only store their values, which are kept as integers. *)
#[export] Instance int_Element : Element Z := {|
  value_init := 0%Z;
  moved_from := λ x, x;
  is_nothrow_move_constructible := true;
  is_copy_constructible := true;
  is_trivially_copyable := true;
  sizeof := 4;
|}.

(** [std::string]: value-initialised to the empty string, which is also
    what a move leaves behind; it owns its characters, so it is not
    trivially copyable. *)
#[export] Instance string_Element : Element String.string := {|
  value_init := ""%string;
  moved_from := λ _, ""%string;
  is_nothrow_move_constructible := true;
  is_copy_constructible := true;
  is_trivially_copyable := false;
  sizeof := 32;
|}.

(** ** The machine *)

(** What the header takes from the implementation it is compiled for:
    the largest [size_t], when there is one; the largest request, in bytes,
    that [operator new] satisfies, when there is one; and whether an
    assignment needs an object to assign to. *)
Class Machine := {
  SIZE_MAX : option N;
  max_request : option N;
  assignment_needs_object : bool;
}.

(** The machine of the statements that name none: [size_t] holds every
    natural number, [operator new] satisfies every request, and an
    assignment is a store whatever its destination holds. *)
#[export] Instance ideal : Machine := {|
  SIZE_MAX := None;
  max_request := None;
  assignment_needs_object := false;
|}.

(** A 64-bit machine: [size_t] has 64 bits; no object is larger than
    [PTRDIFF_MAX] bytes, so [operator new] throws for a larger request; and
    an assignment to storage without an object is undefined, save for the
    plain store of a trivially copyable type. *)
Definition lp64 : Machine := {|
  SIZE_MAX := Some (2 ^ 64 - 1)%N;
  max_request := Some (2 ^ 63 - 1)%N;
  assignment_needs_object := true;
|}.

(** [n] as a [size_t]. *)
Definition size_t {machine : Machine} (n : N) : N :=
  match SIZE_MAX with
  | Some most => (n mod (most + 1))%N
  | None => n
  end.

(** [operator new] returns the address of storage that overlaps no block
    in use.  A block in use is given by its address and its count of slots,
    addresses count slots, and 0 is [nullptr]; of the addresses that
    [operator new] may return, the embedding takes the first one behind the
    blocks in use that the allocating call has at hand. *)
Definition fresh (in_use : list (nat * nat)) : nat :=
  S (max_list ((λ b, fst b + snd b) <$> in_use)).

(** ** Traces of element operations *)

(** The index is the offset, in its block, of the object that is
    constructed, assigned to, or destroyed.  The two last events concern the
    local [temp] of [EmplaceWithoutReallocation]. *)
Inductive event : Type :=
| ValueConstruct (i : nat)
| Construct (i : nat)
| CopyConstruct (i : nat)
| MoveConstruct (i : nat)
| CopyAssign (i : nat)
| MoveAssign (i : nat)
| Destroy (i : nat)
| TempConstruct
| TempDestroy.

Definition trace := list event.

(** ** The monad of method runs *)

Inductive exception : Type :=
| out_of_range
| bad_alloc.

Inductive outcome (S A : Type) : Type :=
| Returns (a : A) (s : S) (tr : trace)
| Throws (e : exception) (s : S) (tr : trace)
| Undefined.
Arguments Returns {S A} a s tr.
Arguments Throws {S A} e s tr.
Arguments Undefined {S A}.

Definition M (S A : Type) : Type := S → outcome S A.

(** [after tr o]: the outcome [o] of the rest of a run whose beginning
    produced [tr]. *)
Definition after {S A} (tr : trace) (o : outcome S A) : outcome S A :=
  match o with
  | Returns a s tr' => Returns a s (tr ++ tr')
  | Throws e s tr' => Throws e s (tr ++ tr')
  | Undefined => Undefined
  end.

Definition ret {S A} (a : A) : M S A := λ s, Returns a s [].

Definition bind {S A B} (m : M S A) (k : A → M S B) : M S B := λ s,
  match m s with
  | Returns a s' tr => after tr (k a s')
  | Throws e s' tr => Throws e s' tr
  | Undefined => Undefined
  end.

Declare Scope cpp_scope.
Delimit Scope cpp_scope with cpp.
Notation "x <- m ;; k" := (bind m (λ x, k))
  (at level 100, m at next level, right associativity) : cpp_scope.
Notation "m ;; k" := (bind m (λ _, k))
  (at level 100, right associativity) : cpp_scope.
Open Scope cpp_scope.

Definition get {S} : M S S := λ s, Returns s s [].
Definition gets {S A} (f : S → A) : M S A := λ s, Returns (f s) s [].
Definition put {S} (s : S) : M S unit := λ _, Returns tt s [].
Definition modify {S} (f : S → S) : M S unit := λ s, Returns tt (f s) [].
Definition emit {S} (e : event) : M S unit := λ s, Returns tt s [e].
Definition throw {S A} (e : exception) : M S A := λ s, Throws e s [].
Definition undefined {S A} : M S A := λ _, Undefined.

(** [assert(b)] *)
Definition assert {S} (b : bool) : M S unit :=
  if b then ret tt else undefined.

(** A part of the state, given by how to read it and how to put it back. *)
Record lens (S X : Type) : Type := Lens {
  view : S → X;
  update : X → S → S;
}.
Arguments Lens {S X} view update.
Arguments view {S X} l s.
Arguments update {S X} l x s.

(** [zoom l m] runs [m] on the part [l] of the state. *)
Definition zoom {S X A} (l : lens S X) (m : M X A) : M S A := λ s,
  match m (view l s) with
  | Returns a x tr => Returns a (update l x s) tr
  | Throws e x tr => Throws e (update l x s) tr
  | Undefined => Undefined
  end.

Definition whole {S} : lens S S := Lens (λ s, s) (λ x _, x).
Definition _1 {S1 S2} : lens (S1 * S2) S1 := Lens fst (λ x s, (x, snd s)).
Definition _2 {S1 S2} : lens (S1 * S2) S2 := Lens snd (λ x s, (fst s, x)).
Definition compose {S X Y} (l : lens S X) (k : lens X Y) : lens S Y :=
  Lens (λ s, view k (view l s)) (λ y s, update l (update k y (view l s)) s).
Definition both {S1 S2 X1 X2} (l1 : lens S1 X1) (l2 : lens S2 X2)
    : lens (S1 * S2) (X1 * X2) :=
  Lens (λ s, (view l1 (fst s), view l2 (snd s)))
       (λ x s, (update l1 (fst x) (fst s), update l2 (snd x) (snd s))).

(** [with_local l m]: [m] runs on the current object paired with a local
    variable initialised to [l]; the final value of the local is returned.
    When [m] throws, the local goes out of scope with the unwinding. *)
Definition with_local {S L A} (l : L) (m : M (S * L) A) : M S (A * L) := λ s,
  match m (s, l) with
  | Returns a s' tr => Returns (a, snd s') (fst s') tr
  | Throws e s' tr => Throws e (fst s') tr
  | Undefined => Undefined
  end.

Arguments bind {S A B} m k s /.
Arguments ret {S A} a s /.
Arguments get {S} s /.
Arguments gets {S A} f s /.
Arguments put {S} s _ /.
Arguments modify {S} f s /.
Arguments emit {S} e s /.
Arguments throw {S A} e s /.
Arguments undefined {S A} s /.
Arguments zoom {S X A} l m s /.
Arguments with_local {S L A} l m s /.

(** Runs the monad operations of the goal; calls of the methods and of the
    algorithms stay folded. *)
Tactic Notation "run" :=
  cbn [bind ret get gets put modify emit throw undefined assert after zoom
       with_local view update whole _1 _2 compose both fst snd app
       assignment_needs_object ideal andb].
Tactic Notation "run" "in" hyp(H) :=
  cbn [bind ret get gets put modify emit throw undefined assert after zoom
       with_local view update whole _1 _2 compose both fst snd app
       assignment_needs_object ideal andb] in H.

(** ** Blocks of slots *)

Abbreviation slot T := (option T) (only parsing).
Abbreviation block T := (list (option T)) (only parsing).

Section slot_access.
Context {T : Type}.

(** Reading and writing the slot at offset [i] of the current block. *)
Definition read (i : nat) : M (block T) (slot T) := λ b,
  match b !! i with
  | Some s => Returns s b []
  | None => Undefined
  end.

Definition write (i : nat) (s : slot T) : M (block T) unit := λ b,
  if decide (i < length b) then Returns tt (<[i:=s]> b) [] else Undefined.

(** Reading a slot of a block that the run cannot modify: the block of a
    [const Vector&] argument. *)
Definition peek {S} (src : block T) (i : nat) : M S (slot T) :=
  match src !! i with
  | Some s => ret s
  | None => undefined
  end.
End slot_access.

(** ** The standard algorithms the header calls *)

Module std.
Section algorithms.
Context {T : Type} `{!Element T} {machine : Machine}.

(** [::new (p) T(args...)], [x] being the value so constructed. *)
Definition construct_at (p : nat) (x : T) : M (block T) unit :=
  write p (Some x) ;; emit (Construct p).

Definition destroy_at (p : nat) : M (block T) unit :=
  write p None ;; emit (Destroy p).

Fixpoint destroy_n (first n : nat) : M (block T) unit :=
  match n with
  | 0 => ret tt
  | S n' => destroy_at first ;; destroy_n (S first) n'
  end.

Fixpoint uninitialized_value_construct_n (first n : nat) : M (block T) unit :=
  match n with
  | 0 => ret tt
  | S n' =>
      write first (Some value_init) ;; emit (ValueConstruct first) ;;
      uninitialized_value_construct_n (S first) n'
  end.

(** Copies out of the block [src] of another object into the current one. *)
Fixpoint uninitialized_copy_n (src : block T) (first count d_first : nat)
    : M (block T) unit :=
  match count with
  | 0 => ret tt
  | S c =>
      s <- peek src first ;;
      write d_first s ;; emit (CopyConstruct d_first) ;;
      uninitialized_copy_n src (S first) c (S d_first)
  end.

(** An assignment to the object in the slot [d], [s] being what it leaves
    there.  Where an assignment needs an object to assign to, the slot has to
    hold one, unless [T] is trivially copyable and the assignment a plain
    store. *)
Definition assign (d : nat) (s : slot T) : M (block T) unit :=
  if assignment_needs_object && negb is_trivially_copyable then
    old <- read d ;;
    match old with
    | Some _ => write d s
    | None => undefined
    end
  else write d s.

Fixpoint copy_n (src : block T) (first count d_first : nat)
    : M (block T) unit :=
  match count with
  | 0 => ret tt
  | S c =>
      s <- peek src first ;;
      assign d_first s ;; emit (CopyAssign d_first) ;;
      copy_n src (S first) c (S d_first)
  end.

(** Moves from the first block of the state into the second. *)
Fixpoint uninitialized_move_n (first count d_first : nat)
    : M (block T * block T) unit :=
  match count with
  | 0 => ret tt
  | S c =>
      s <- zoom _1 (read first) ;;
      zoom _2 (write d_first s) ;;
      zoom _1 (write first (moved_from <$> s)) ;;
      emit (MoveConstruct d_first) ;;
      uninitialized_move_n (S first) c (S d_first)
  end.

(** [*d = std::move( *s )] inside one block. *)
Definition move_assign (d s : nat) : M (block T) unit :=
  x <- read s ;;
  assign d x ;;
  write s (moved_from <$> x) ;;
  emit (MoveAssign d).

(** [::new (d) T(std::move( *s ))] inside one block. *)
Definition move_construct (d s : nat) : M (block T) unit :=
  x <- read s ;;
  write d x ;;
  write s (moved_from <$> x) ;;
  emit (MoveConstruct d).

Fixpoint move_n (first count d_first : nat) : M (block T) unit :=
  match count with
  | 0 => ret tt
  | S c => move_assign d_first first ;; move_n (S first) c (S d_first)
  end.

(** [std::move(first, last, d_first)]: front to back. *)
Definition move (first last d_first : nat) : M (block T) unit :=
  move_n first (last - first) d_first.

Fixpoint move_backward_n (count last d_last : nat) : M (block T) unit :=
  match count with
  | 0 => ret tt
  | S c =>
      move_assign (d_last - 1) (last - 1) ;;
      move_backward_n c (last - 1) (d_last - 1)
  end.

(** [std::move_backward(first, last, d_last)]: back to front. *)
Definition move_backward (first last d_last : nat) : M (block T) unit :=
  move_backward_n (last - first) last d_last.
End algorithms.
End std.

(** ** [RawMemory<T>] *)

(** The pointer [buffer_] is given by its value [address_] and by the block
    [buffer_] that it points to. *)
Record RawMemory (T : Type) : Type := mkRawMemory {
  address_ : nat;
  buffer_ : block T;
  capacity_ : nat;
}.
Arguments mkRawMemory {T} address_ buffer_ capacity_.
Arguments address_ {T} r.
Arguments buffer_ {T} r.
Arguments capacity_ {T} r.

Definition buffer {T} : lens (RawMemory T) (block T) :=
  Lens buffer_ (λ b r, mkRawMemory (address_ r) b (capacity_ r)).

Module RawMemory.
Section methods.
Context {T : Type} `{!Element T} {machine : Machine}.

(** [operator new(bytes)] *)
Definition operator_new {S} (bytes : N) : M S unit :=
  match max_request with
  | Some most => if decide (most < bytes)%N then throw bad_alloc else ret tt
  | None => ret tt
  end.

(** [Allocate(n)]: raw storage for [n] elements, [nullptr] for none.  The
    count of bytes [n * sizeof(T)] is a [size_t]; the storage that
    [operator new] returns for it has the slots that these bytes make. *)
Definition Allocate {S} (in_use : list (nat * nat)) (n : nat)
    : M S (nat * block T) :=
  if decide (n ≠ 0) then
    let bytes := size_t (N.of_nat n * N.pos sizeof) in
    operator_new bytes ;;
    ret (fresh in_use, replicate (N.to_nat (bytes / N.pos sizeof)) None)
  else ret (0, []).

(** [RawMemory() = default] *)
Definition default : RawMemory T := mkRawMemory 0 [] 0.

(** [explicit RawMemory(size_t capacity)] *)
Definition ctor {S} (in_use : list (nat * nat)) (capacity : nat)
    : M S (RawMemory T) :=
  p <- Allocate in_use capacity ;;
  ret (mkRawMemory (fst p) (snd p) capacity).

(** [RawMemory(RawMemory&& other)]; the state is [other]. *)
Definition move_ctor : M (RawMemory T) (RawMemory T) :=
  other <- get ;;
  put (mkRawMemory 0 [] 0) ;;
  ret (mkRawMemory (address_ other) (buffer_ other) (capacity_ other)).

Definition GetAddress (r : RawMemory T) : nat := address_ r.

Definition Capacity (r : RawMemory T) : nat := capacity_ r.

(** The block of [r] as a block in use. *)
Definition extent (r : RawMemory T) : nat * nat := (address_ r, capacity_ r).

(** The offset, in the block of [r], of the slot that the pointer [p] into
    that block points to: [p - buffer_].  The algorithms on a block take the
    offset for the pointer. *)
Definition offset (r : RawMemory T) (p : nat) : nat := p - GetAddress r.

(** [operator+(size_t offset)] *)
Definition plus (offset : nat) : M (RawMemory T) nat :=
  r <- get ;;
  assert (bool_decide (offset ≤ capacity_ r)) ;;
  ret (GetAddress r + offset).

(** [operator[](size_t index)]: the offset of the slot that the returned
    reference names. *)
Definition index (index : nat) : M (RawMemory T) nat :=
  r <- get ;;
  assert (bool_decide (index < capacity_ r)) ;;
  ret (offset r (GetAddress r + index)).

(** [Swap(RawMemory& other)]; the state is the pair of [*this] and
    [other], two distinct objects. *)
Definition Swap : M (RawMemory T * RawMemory T) unit :=
  modify (λ p, (mkRawMemory (address_ (snd p)) (buffer_ (snd p))
                  (capacity_ (snd p)),
                mkRawMemory (address_ (fst p)) (buffer_ (fst p))
                  (capacity_ (fst p)))).
End methods.
End RawMemory.

(** ** [Vector<T>] *)

Record Vector (T : Type) : Type := mkVector {
  data_ : RawMemory T;
  size_ : nat;
}.
Arguments mkVector {T} data_ size_.
Arguments data_ {T} v.
Arguments size_ {T} v.

Definition data {T} : lens (Vector T) (RawMemory T) :=
  Lens data_ (λ d v, mkVector d (size_ v)).
Definition slots {T} : lens (Vector T) (block T) := compose data buffer.
Definition set_size {T} (n : nat) (v : Vector T) : Vector T :=
  mkVector (data_ v) n.

(** A [const Vector&] argument of a method: the object the method is called
    on, or another object, read but not modified by the call. *)
Inductive cref (T : Type) : Type :=
| Self
| Other (v : Vector T).
Arguments Self {T}.
Arguments Other {T} v.

Module Vector.
Section methods.
Context {T : Type} `{!Element T} {machine : Machine}.

Definition iterator : Type := nat.
Definition const_iterator : Type := nat.

Definition begin (v : Vector T) : iterator := RawMemory.GetAddress (data_ v).
Definition end_ (v : Vector T) : iterator :=
  RawMemory.GetAddress (data_ v) + size_ v.

(** The offset, in the block of [v], of the slot that [p] points to. *)
Definition offset (v : Vector T) (p : nat) : nat :=
  RawMemory.offset (data_ v) p.

Definition Size (v : Vector T) : nat := size_ v.
Definition Capacity (v : Vector T) : nat := RawMemory.Capacity (data_ v).
Definition Empty (v : Vector T) : bool := bool_decide (size_ v = 0).

(** [construct init body]: a constructor, with its member initialisers
    giving [init] and its body [body]. *)
Definition construct {S} (init : Vector T) (body : M (Vector T) unit)
    : M S (Vector T) := λ s,
  match body init with
  | Returns _ v tr => Returns v s tr
  | Throws e _ tr => Throws e s tr
  | Undefined => Undefined
  end.

(** [Vector() = default] *)
Definition default : Vector T := mkVector RawMemory.default 0.

(** [explicit Vector(size_t size)] *)
Definition ctor {S} (size : nat) : M S (Vector T) :=
  data <- RawMemory.ctor [] size ;;
  construct (mkVector data size)
    (v <- get ;;
     zoom slots (std.uninitialized_value_construct_n (offset v (begin v))
                   size)).

(** [Vector(const Vector& other)], called where the blocks [in_use] are
    live besides that of [other]. *)
Definition copy_ctor_beside {S} (in_use : list (nat * nat)) (other : Vector T)
    : M S (Vector T) :=
  data <- RawMemory.ctor (RawMemory.extent (data_ other) :: in_use)
            (size_ other) ;;
  construct (mkVector data (size_ other))
    (v <- get ;;
     zoom slots (std.uninitialized_copy_n (buffer_ (data_ other))
                   (offset other (begin other)) (size_ v)
                   (offset v (begin v)))).

Definition copy_ctor {S} (other : Vector T) : M S (Vector T) :=
  copy_ctor_beside [] other.

(** [Vector(Vector&& other)]; the state is [other]. *)
Definition move_ctor : M (Vector T) (Vector T) :=
  d <- zoom data RawMemory.move_ctor ;;
  other <- get ;;
  let size := size_ other in
  modify (set_size 0) ;;
  ret (mkVector d size).

(** [~Vector()]; the block goes with [data_]. *)
Definition dtor : M (Vector T) unit :=
  v <- get ;;
  zoom slots (std.destroy_n (offset v (begin v)) (size_ v)).

(** The end of the lifetime of a temporary or local [Vector]. *)
Definition destroy_local {S} (tmp : Vector T) : M S unit := λ s,
  match dtor tmp with
  | Returns _ _ tr => Returns tt s tr
  | Throws e _ tr => Throws e s tr
  | Undefined => Undefined
  end.

(** [Swap(Vector& other)]; the state is the pair of [*this] and [other],
    two distinct objects. *)
Definition Swap : M (Vector T * Vector T) unit :=
  zoom (both data data) RawMemory.Swap ;;
  modify (λ p, (set_size (size_ (snd p)) (fst p),
                set_size (size_ (fst p)) (snd p))).

(** [a.Swap(a)]: each [std::swap] exchanges a field with itself. *)
Definition Swap_self : M (Vector T) unit :=
  modify (λ v, mkVector (mkRawMemory (address_ (data_ v)) (buffer_ (data_ v))
                                      (capacity_ (data_ v)))
                        (size_ v)).

(** [operator=(const Vector& rhs)] *)
Definition copy_assign (rhs : cref T) : M (Vector T) unit :=
  match rhs with
  | Self => ret tt                               (* this == &rhs *)
  | Other rhs =>
      v <- get ;;
      if decide (RawMemory.Capacity (data_ v) < size_ rhs) then
        (* Vector(rhs).Swap( *this ); the temporary ends with the statement *)
        tmp <- copy_ctor_beside [RawMemory.extent (data_ v)] rhs ;;
        r <- with_local tmp (zoom (Lens (λ p, (snd p, fst p))
                                        (λ q _, (snd q, fst q))) Swap) ;;
        destroy_local (snd r)
      else
        let i := 0 in                            (* size_t i = 0; *)
        let common_size := min (size_ v) (size_ rhs) in
        zoom slots (std.copy_n (buffer_ (data_ rhs))
                      (offset rhs (begin rhs)) common_size
                      (offset v (begin v))) ;;
        v <- get ;;
        if decide (size_ v < size_ rhs) then
          zoom slots (std.uninitialized_copy_n (buffer_ (data_ rhs))
                        (offset rhs (begin rhs + i)) (size_ rhs - size_ v)
                        (offset v (begin v + i)))
        else
          zoom slots (std.destroy_n (offset v (begin v + size_ rhs))
                        (size_ v - size_ rhs))
  end ;;
  (* size_ = rhs.size_; *)
  v <- get ;;
  let rhs_size := match rhs with Self => size_ v | Other rhs => size_ rhs end in
  modify (set_size rhs_size).

(** [operator=(Vector&& rhs)] for [this != &rhs]; the state is the pair of
    [*this] and [rhs]. *)
Definition move_assign : M (Vector T * Vector T) unit := Swap.

(** [operator=(Vector&& rhs)] for [this == &rhs]. *)
Definition move_assign_self : M (Vector T) unit := ret tt.

(** [operator[](size_t index)]: the slot the returned reference names. *)
Definition subscript (index : nat) : M (Vector T) nat :=
  v <- get ;;
  assert (bool_decide (index < size_ v)) ;;
  zoom data (RawMemory.index index).

Definition front : M (Vector T) nat :=
  v <- get ;;
  assert (bool_decide (0 < size_ v)) ;;
  zoom data (RawMemory.index 0).

Definition back : M (Vector T) nat :=
  v <- get ;;
  assert (bool_decide (0 < size_ v)) ;;
  zoom data (RawMemory.index (size_ v - 1)).

Definition At (index : nat) : M (Vector T) nat :=
  v <- get ;;
  if decide (size_ v ≤ index) then throw out_of_range
  else zoom data (RawMemory.index index).

Definition MoveOrCopyRange (from_begin from_end to_begin : nat)
    : M (block T * block T) unit :=
  let count := from_end - from_begin in
  if is_nothrow_move_constructible || negb is_copy_constructible then
    std.uninitialized_move_n from_begin count to_begin
  else
    src <- gets fst ;;
    zoom _2 (std.uninitialized_copy_n src from_begin count to_begin).

Definition Reserve (new_capacity : nat) : M (Vector T) unit :=
  v <- get ;;
  if decide (new_capacity ≤ RawMemory.Capacity (data_ v)) then ret tt
  else
    new_data <- RawMemory.ctor [RawMemory.extent (data_ v)] new_capacity ;;
    (* the state inside is the pair of [*this] and the local [new_data] *)
    with_local new_data
      (new_data <- gets snd ;;
       zoom (both slots buffer)
         (MoveOrCopyRange (offset v (begin v)) (offset v (end_ v))
            (RawMemory.offset new_data (RawMemory.GetAddress new_data))) ;;
       zoom (compose _1 slots) (std.destroy_n (offset v (begin v)) (size_ v)) ;;
       zoom (both data whole) RawMemory.Swap) ;;
    ret tt.

Definition Resize (new_size : nat) : M (Vector T) unit :=
  v <- get ;;
  (if decide (new_size < size_ v) then
     zoom slots (std.destroy_n (offset v (begin v + new_size))
                   (size_ v - new_size))
   else if decide (size_ v < new_size) then
     (if decide (RawMemory.Capacity (data_ v) < new_size)
      then Reserve new_size else ret tt) ;;
     v <- get ;;
     zoom slots (std.uninitialized_value_construct_n (offset v (end_ v))
                   (new_size - size_ v))
   else ret tt) ;;
  modify (set_size new_size).

Definition Clear : M (Vector T) unit :=
  v <- get ;;
  zoom slots (std.destroy_n (offset v (begin v)) (size_ v)) ;;
  modify (set_size 0).

Definition PopBack : M (Vector T) unit :=
  v <- get ;;
  assert (bool_decide (0 < size_ v)) ;;
  modify (set_size (size_ v - 1)) ;;             (* --size_; *)
  v <- get ;;
  p <- zoom data (RawMemory.plus (size_ v)) ;;
  zoom slots (std.destroy_at (offset v p)).

(** The handlers of the two [try] blocks run when a transfer throws;
    the element operations of the embedding do not. *)
Definition EmplaceWithReallocation (index : nat) (x : T) : M (Vector T) unit :=
  v <- get ;;
  let new_capacity := if decide (Capacity v = 0) then 1 else Capacity v * 2 in
  new_data <- RawMemory.ctor [RawMemory.extent (data_ v)] new_capacity ;;
  with_local new_data
    (new_data <- gets snd ;;
     new_element <- zoom _2 (RawMemory.plus index) ;;
     zoom (compose _2 buffer)
       (std.construct_at (RawMemory.offset new_data new_element) x) ;;
     zoom (both slots buffer)
       (MoveOrCopyRange (offset v (begin v)) (offset v (begin v + index))
          (RawMemory.offset new_data (RawMemory.GetAddress new_data))) ;;
     zoom (both slots buffer)
       (MoveOrCopyRange (offset v (begin v + index)) (offset v (end_ v))
          (RawMemory.offset new_data
             (RawMemory.GetAddress new_data + index + 1))) ;;
     zoom (compose _1 slots) (std.destroy_n (offset v (begin v)) (size_ v)) ;;
     zoom (both data whole) RawMemory.Swap) ;;
  ret tt.

Definition EmplaceWithoutReallocation (index : nat) (x : T)
    : M (Vector T) unit :=
  v <- get ;;
  if decide (index = size_ v) then
    p <- zoom data (RawMemory.plus (size_ v)) ;;
    zoom slots (std.construct_at (offset v p) x)
  else
    emit TempConstruct ;;                        (* T temp(args...); *)
    let temp := x in
    (* new (data_ + size_) T(std::move(data_[size_ - 1])); *)
    p <- zoom data (RawMemory.plus (size_ v)) ;;
    last <- zoom data (RawMemory.index (size_ v - 1)) ;;
    zoom slots (std.move_construct (offset v p) last) ;;
    zoom slots (std.move_backward (offset v (begin v + index))
                  (offset v (end_ v - 1)) (offset v (end_ v))) ;;
    (* data_[index] = std::move(temp); *)
    d <- zoom data (RawMemory.index index) ;;
    zoom slots (std.assign d (Some temp) ;; emit (MoveAssign d)) ;;
    emit TempDestroy.                            (* temp goes out of scope *)

Definition Emplace (pos : const_iterator) (x : T) : M (Vector T) iterator :=
  v <- get ;;
  assert (bool_decide (begin v ≤ pos ∧ pos ≤ end_ v)) ;;
  let index := pos - begin v in
  (if decide (size_ v = Capacity v) then EmplaceWithReallocation index x
   else EmplaceWithoutReallocation index x) ;;
  modify (λ v, set_size (size_ v + 1) v) ;;      (* ++size_; *)
  v <- get ;;
  ret (begin v + index).

(** [*Emplace(end(), args...)]: the offset of the slot that the returned
    reference names. *)
Definition EmplaceBack (x : T) : M (Vector T) nat :=
  v <- get ;;
  p <- Emplace (end_ v) x ;;
  v <- get ;;
  ret (offset v p).

Definition PushBack (value : T) : M (Vector T) unit :=
  EmplaceBack value ;; ret tt.

Definition Insert (pos : const_iterator) (value : T) : M (Vector T) iterator :=
  Emplace pos value.

Definition Erase (pos : const_iterator) : M (Vector T) iterator :=
  v <- get ;;
  assert (bool_decide (begin v ≤ pos ∧ pos < end_ v)) ;;
  let mutable_pos := begin v + (pos - begin v) in
  zoom slots (std.destroy_at (offset v mutable_pos)) ;;
  (if decide (mutable_pos + 1 ≠ end_ v) then
     zoom slots (std.move (offset v (mutable_pos + 1)) (offset v (end_ v))
                   (offset v mutable_pos))
   else ret tt) ;;
  modify (λ v, set_size (size_ v - 1) v) ;;      (* --size_; *)
  ret mutable_pos.
End methods.
End Vector.

(** ** Programs over several vectors *)

(** A program state maps the names of the live [Vector] objects to their
    states.  A statement names the objects it works on, so that a call like
    [a = a], where the argument is the object itself, is told apart from a
    call on two objects. *)
Module Program.
Section program.
Context {T : Type} `{!Element T} {machine : Machine}.

Definition deref (l : nat) : M (gmap nat (Vector T)) (Vector T) := λ h,
  match h !! l with
  | Some v => Returns v h []
  | None => Undefined
  end.

(** The storage of a new object is not that of a live one. *)
Definition alloc (l : nat) (v : Vector T) : M (gmap nat (Vector T)) unit := λ h,
  match h !! l with
  | Some _ => Undefined
  | None => Returns tt (<[l:=v]> h) []
  end.

Definition free (l : nat) : M (gmap nat (Vector T)) unit := λ h,
  Returns tt (delete l h) [].

(** A method run on the object [l]. *)
Definition on {A} (l : nat) (m : M (Vector T) A) : M (gmap nat (Vector T)) A := λ h,
  match h !! l with
  | Some v =>
      match m v with
      | Returns a v' tr => Returns a (<[l:=v']> h) tr
      | Throws e v' tr => Throws e (<[l:=v']> h) tr
      | Undefined => Undefined
      end
  | None => Undefined
  end.

(** A method run on the object [l1] with the distinct object [l2] as its
    argument. *)
Definition on2 {A} (l1 l2 : nat) (m : M (Vector T * Vector T) A)
    : M (gmap nat (Vector T)) A := λ h,
  match h !! l1, h !! l2 with
  | Some v1, Some v2 =>
      match m (v1, v2) with
      | Returns a p tr => Returns a (<[l2:=snd p]> (<[l1:=fst p]> h)) tr
      | Throws e p tr => Throws e (<[l2:=snd p]> (<[l1:=fst p]> h)) tr
      | Undefined => Undefined
      end
  | _, _ => Undefined
  end.

Inductive statement : Type :=
| New (a : nat)                          (* Vector<T> a; *)
| NewSized (a : nat) (size : nat)        (* Vector<T> a(size); *)
| NewCopy (a b : nat)                    (* Vector<T> a(b); *)
| NewMove (a b : nat)                    (* Vector<T> a(std::move(b)); *)
| Delete (a : nat)                       (* a goes out of scope *)
| Assign (a b : nat)                     (* a = b; *)
| AssignMove (a b : nat)                 (* a = std::move(b); *)
| Swap (a b : nat)                       (* a.Swap(b); *)
| Reserve (a : nat) (new_capacity : nat) (* a.Reserve(new_capacity); *)
| Resize (a : nat) (new_size : nat)      (* a.Resize(new_size); *)
| Clear (a : nat)                        (* a.Clear(); *)
| EmplaceBack (a : nat) (x : T)          (* a.EmplaceBack(x); *)
| PushBack (a : nat) (x : T)             (* a.PushBack(x); *)
| PopBack (a : nat)                      (* a.PopBack(); *)
| Emplace (a : nat) (index : nat) (x : T) (* a.Emplace(a.begin() + index, x); *)
| Insert (a : nat) (index : nat) (x : T) (* a.Insert(a.begin() + index, x); *)
| Erase (a : nat) (index : nat).         (* a.Erase(a.begin() + index); *)

Definition exec (c : statement) : M (gmap nat (Vector T)) unit :=
  match c with
  | New a => alloc a Vector.default
  | NewSized a size => v <- Vector.ctor size ;; alloc a v
  | NewCopy a b => other <- deref b ;; v <- Vector.copy_ctor other ;; alloc a v
  | NewMove a b =>
      if decide (a = b) then undefined
      else v <- on b Vector.move_ctor ;; alloc a v
  | Delete a => on a Vector.dtor ;; free a
  | Assign a b =>
      if decide (a = b) then on a (Vector.copy_assign Self)
      else rhs <- deref b ;; on a (Vector.copy_assign (Other rhs))
  | AssignMove a b =>
      if decide (a = b) then on a Vector.move_assign_self
      else on2 a b Vector.move_assign
  | Swap a b =>
      if decide (a = b) then on a Vector.Swap_self
      else on2 a b Vector.Swap
  | Reserve a new_capacity => on a (Vector.Reserve new_capacity)
  | Resize a new_size => on a (Vector.Resize new_size)
  | Clear a => on a Vector.Clear
  | EmplaceBack a x => on a (Vector.EmplaceBack x) ;; ret tt
  | PushBack a x => on a (Vector.PushBack x)
  | PopBack a => on a Vector.PopBack
  | Emplace a index x =>
      on a (v <- get ;; Vector.Emplace (Vector.begin v + index) x) ;; ret tt
  | Insert a index x =>
      on a (v <- get ;; Vector.Insert (Vector.begin v + index) x) ;; ret tt
  | Erase a index =>
      on a (v <- get ;; Vector.Erase (Vector.begin v + index)) ;; ret tt
  end.

Fixpoint exec_all (p : list statement) : M (gmap nat (Vector T)) unit :=
  match p with
  | [] => ret tt
  | c :: p => exec c ;; exec_all p
  end.

(** The states that programs reach from the one without objects. *)
Inductive reachable : gmap nat (Vector T) → Prop :=
| reachable_empty : reachable ∅
| reachable_exec h c h' tr :
    reachable h → exec c h = Returns tt h' tr → reachable h'.
End program.
Arguments statement T : clear implicits.
End Program.

(** ** What a vector holds *)

Section properties.
Context {T : Type}.

(** The slots [[0, size)], in order. *)
Definition elements (v : Vector T) : list (option T) :=
  take (size_ v) (buffer_ (data_ v)).

(** [capacity_] counts the slots of the block, and [size_] is within it. *)
Definition well_formed (v : Vector T) : Prop :=
  length (buffer_ (data_ v)) = capacity_ (data_ v) ∧
  size_ v ≤ capacity_ (data_ v).

(** The invariant of the class: moreover the slots [[0, size)] hold live
    objects. *)
Definition invariant (v : Vector T) : Prop :=
  well_formed v ∧ Forall is_Some (elements v).

#[export] Instance well_formed_dec v : Decision (well_formed v).
Proof. unfold well_formed. apply _. Defined.

#[export] Instance invariant_dec v : Decision (invariant v).
Proof. unfold invariant. apply _. Defined.

(** Two blocks that have no slot in common. *)
Definition apart (r1 r2 : RawMemory T) : Prop :=
  address_ r1 + capacity_ r1 ≤ address_ r2
  ∨ address_ r2 + capacity_ r2 ≤ address_ r1.

(** The capacity a reallocating insertion moves to. *)
Definition grown (capacity : nat) : nat :=
  if decide (capacity = 0) then 1 else capacity * 2.

Context `{!Element T}.

(** How [MoveOrCopyRange] transfers an element: by move or by copy. *)
Definition moves : bool :=
  is_nothrow_move_constructible (T:=T) || negb (is_copy_constructible (T:=T)).

(** The event of a transfer into the slot [i], and what the transfer
    leaves in the slot it read. *)
Definition transfer (i : nat) : event :=
  if moves then MoveConstruct i else CopyConstruct i.
Definition transferred (s : slot T) : slot T :=
  if moves then moved_from <$> s else s.

(** What [std::move] to the left by one leaves in the last slot it read,
    [s] being the slot in front of the range [mid]. *)
Definition left_over (s : slot T) (mid : block T) : slot T :=
  match last mid with
  | Some m => moved_from <$> m
  | None => s
  end.

(** What [std::move_backward] to the right by one leaves in the first slot
    it read, [s] being the slot behind the range [mid]. *)
Definition left_behind (mid : block T) (s : slot T) : slot T :=
  match mid with
  | m :: _ => moved_from <$> m
  | [] => s
  end.

(** The constructions by which [MoveOrCopyRange] takes an element to
    another block, and their number in a trace. *)
Definition is_transfer (e : event) : bool :=
  match e with
  | MoveConstruct _ | CopyConstruct _ => true
  | _ => false
  end.
Definition transfers (tr : trace) : nat := length (List.filter is_transfer tr).

(** [PushBack] of each value of [xs], in order. *)
Fixpoint PushBack_all (xs : list T) : M (Vector T) unit :=
  match xs with
  | [] => ret tt
  | x :: xs => Vector.PushBack x ;; PushBack_all xs
  end.

Context {machine : Machine}.

(** The requests for [n] objects whose count of bytes, [n * sizeof(T)],
    [size_t] holds without wrapping around. *)
Definition representable (n : nat) : Prop :=
  match SIZE_MAX with
  | Some most => (N.of_nat n * N.pos sizeof ≤ most)%N
  | None => True
  end.

(** The requests of that kind that the allocation function grants, and the
    requests that it refuses, whose count of bytes is the one that [size_t]
    holds. *)
Definition allocatable (n : nat) : Prop :=
  representable n ∧
  match max_request with
  | Some most => (N.of_nat n * N.pos sizeof ≤ most)%N
  | None => True
  end.

Definition refused (n : nat) : Prop :=
  match max_request with
  | Some most => (most < size_t (N.of_nat n * N.pos sizeof))%N
  | None => False
  end.

(** The element types and machines on which an assignment is a plain store
    into the slot, whatever the slot holds. *)
Definition assignment_is_store : Prop :=
  assignment_needs_object && negb (is_trivially_copyable (T:=T)) = false.
End properties.

Arguments representable T {_ _} n.
Arguments allocatable T {_ _} n.
Arguments refused T {_ _} n.
Arguments assignment_is_store T {_ _}.

(** ** Vectors and programs used in examples *)

(** One [int] in a block of four: [Reserve(4)] and [PushBack(1)] on a new
    vector. *)
Definition short_with_room : Vector Z :=
  mkVector (mkRawMemory 1 [Some 1%Z; None; None; None] 4) 1.

(** [5, 6, 7] after three [PushBack]. *)
Definition five_six_seven : Vector Z :=
  mkVector (mkRawMemory 6 [Some 5%Z; Some 6%Z; Some 7%Z; None] 4) 3.

(** [1, 2, 3] after three [PushBack]. *)
Definition one_two_three : Vector Z :=
  mkVector (mkRawMemory 6 [Some 1%Z; Some 2%Z; Some 3%Z; None] 4) 3.

(** The numbers of [int] whose count of bytes, [2^64 - 4], [size_t] holds on
    the LP64 machine and the allocation function refuses, and whose count of
    bytes, [2^64], wraps around to 0 there. *)
Definition refused_count : nat := N.to_nat (2 ^ 62 - 1).
Definition wrapping_count : nat := N.to_nat (2 ^ 62).

(** [1, 2] after two [PushBack]: the block is full. *)
Definition one_two : Vector Z :=
  mkVector (mkRawMemory 3 [Some 1%Z; Some 2%Z] 2) 2.

(** The strings ["a", "b"] after two [PushBack]. *)
Definition a_b : Vector String.string :=
  mkVector (mkRawMemory 3 [Some "a"%string; Some "b"%string] 2) 2.

(** [Vector<int> a; a.Reserve(4); a.PushBack(1);
     Vector<int> b; b.PushBack(5); b.PushBack(6); b.PushBack(7); a = b;] *)
Definition grow_by_assignment : list (Program.statement Z) :=
  [Program.New 0; Program.Reserve 0 4; Program.PushBack 0 1%Z;
   Program.New 1; Program.PushBack 1 5%Z; Program.PushBack 1 6%Z;
   Program.PushBack 1 7%Z; Program.Assign 0 1].

(** Reads the fields and parts of the states of the goal. *)
Tactic Notation "fields" :=
  cbn [slots compose data buffer view update whole both _1 _2 set_size
       data_ address_ buffer_ size_ capacity_ fst snd].
Tactic Notation "fields" "in" hyp(H) :=
  cbn [slots compose data buffer view update whole both _1 _2 set_size
       data_ address_ buffer_ size_ capacity_ fst snd] in H.

(** Rewrites the lengths of the lists of the goal and calls [lia]. *)
Ltac lengths :=
  repeat progress
    rewrite ?length_app, ?length_take, ?length_drop, ?length_replicate,
      ?length_fmap, ?length_insert;
  cbn [length]; try lia.

(** Reads the pointers of the goal as addresses, and the pointers into a
    block as offsets. *)
Ltac pointers :=
  unfold Vector.offset, RawMemory.offset, Vector.begin, Vector.end_,
    RawMemory.GetAddress, RawMemory.extent;
  cbn [data_ address_ size_ capacity_];
  rewrite ?Nat.sub_diag, ?Nat.add_sub', ?Nat.add_0_r.

(** Takes the state and the trace of the run of the goal for those that
    the goal asks for. *)
(** [evaluate] runs a call on a concrete state and compares the outcome
    with the one stated, whose final state and trace may be yet to find. *)
Ltac evaluate :=
  lazymatch goal with
  | |- ?m = Returns _ ?v ?t =>
      let r := eval vm_compute in m in
      lazymatch r with
      | Returns _ ?w ?u => unify v w; unify t u
      end
  end;
  vm_compute; reflexivity.

Ltac returned :=
  lazymatch goal with
  | |- ∃ v' tr, Returns _ ?w ?t = _ ∧ _ => exists w, t
  | |- ∃ v', Returns _ ?w _ = _ ∧ _ => exists w
  end.

(** * The algorithms on blocks *)

Section block_lemmas.
Context {T : Type} `{!Element T} {machine : Machine}.
Implicit Types (b pre mid post : block T) (s : slot T).

(** The lemmas on the algorithms that assign are about the element types
    and machines on which an assignment is a store. *)
Hypothesis store : assignment_is_store T.

Lemma snoc_app {A} (l1 : list A) x l2 : l1 ++ x :: l2 = (l1 ++ [x]) ++ l2.
Proof. by rewrite <-app_assoc. Qed.

Lemma length_snoc {A} (l : list A) x n : n = length l → S n = length (l ++ [x]).
Proof. intros ->. rewrite length_app. simpl. lia. Qed.

Lemma read_middle pre s post i :
  i = length pre →
  read i (pre ++ s :: post) = Returns s (pre ++ s :: post) [].
Proof. intros ->. unfold read. by rewrite list_lookup_middle. Qed.

Lemma write_middle pre s s' post i :
  i = length pre →
  write i s' (pre ++ s :: post) = Returns tt (pre ++ s' :: post) [].
Proof.
  intros ->. unfold write. rewrite decide_True.
  - by rewrite insert_app_r_alt, Nat.sub_diag.
  - rewrite length_app. simpl. lia.
Qed.

Lemma assign_write d (s : slot T) : std.assign d s = write d s.
Proof. unfold std.assign. unfold assignment_is_store in store. by rewrite store. Qed.

(** Where an assignment needs an object, one to a slot without an object is
    undefined. *)
Lemma assign_no_object pre post d (s : slot T) :
  assignment_needs_object = true → is_trivially_copyable (T:=T) = false →
  d = length pre →
  std.assign d s (pre ++ None :: post) = Undefined.
Proof.
  intros Hneeds Htrivial Hd. unfold std.assign. rewrite Hneeds, Htrivial.
  cbn [andb negb]. run. by rewrite (read_middle _ _ _ _ Hd).
Qed.

Lemma peek_middle {S} (spre spost : block T) s i (st : S) :
  i = length spre →
  peek (spre ++ s :: spost) i st = Returns s st [].
Proof. intros ->. unfold peek. by rewrite list_lookup_middle. Qed.

Lemma construct_at_middle pre s post i x :
  i = length pre →
  std.construct_at i x (pre ++ s :: post)
  = Returns tt (pre ++ Some x :: post) [Construct i].
Proof. intros Hi. unfold std.construct_at. run. by rewrite (write_middle _ _ _ _ _ Hi). Qed.

Lemma destroy_at_middle pre s post i :
  i = length pre →
  std.destroy_at i (pre ++ s :: post) = Returns tt (pre ++ None :: post) [Destroy i].
Proof. intros Hi. unfold std.destroy_at. run. by rewrite (write_middle _ _ _ _ _ Hi). Qed.

Lemma destroy_n_app mid : ∀ pre post first n,
  first = length pre → n = length mid →
  std.destroy_n first n (pre ++ mid ++ post)
  = Returns tt (pre ++ replicate n None ++ post) (Destroy <$> seq first n).
Proof.
  induction mid as [|s mid IH]; intros pre post first n Hfirst ->; [done|].
  cbn [std.destroy_n length]. run. rewrite (destroy_at_middle _ _ _ _ Hfirst). run.
  rewrite snoc_app, (IH _ _ (S first) (length mid)); [|by apply length_snoc|done].
  run. by rewrite <-app_assoc.
Qed.

Lemma uninitialized_value_construct_n_app mid : ∀ pre post first n,
  first = length pre → n = length mid →
  std.uninitialized_value_construct_n first n (pre ++ mid ++ post)
  = Returns tt (pre ++ replicate n (Some value_init) ++ post)
      (ValueConstruct <$> seq first n).
Proof.
  induction mid as [|s mid IH]; intros pre post first n Hfirst ->; [done|].
  cbn [std.uninitialized_value_construct_n length]. run.
  rewrite (write_middle _ _ _ _ _ Hfirst). run.
  rewrite snoc_app, (IH _ _ (S first) (length mid)); [|by apply length_snoc|done].
  run. by rewrite <-app_assoc.
Qed.

Lemma uninitialized_copy_n_app smid : ∀ spre spost pre mid post first count d_first,
  first = length spre → d_first = length pre →
  count = length smid → count = length mid →
  std.uninitialized_copy_n (spre ++ smid ++ spost) first count d_first
    (pre ++ mid ++ post)
  = Returns tt (pre ++ smid ++ post) (CopyConstruct <$> seq d_first count).
Proof.
  induction smid as [|s smid IH];
    intros spre spost pre mid post first count d_first Hf Hd -> Hmid.
  { by destruct mid. }
  destruct mid as [|s' mid]; [done|].
  cbn [std.uninitialized_copy_n length]. run.
  rewrite (peek_middle _ _ _ _ _ Hf). run.
  rewrite (write_middle _ _ _ _ _ Hd). run.
  rewrite (snoc_app spre), (snoc_app pre).
  rewrite (IH _ _ _ mid _ (S first) (length smid) (S d_first));
    [|by apply length_snoc|by apply length_snoc|done|by injection Hmid].
  run. by rewrite <-app_assoc.
Qed.

Lemma copy_n_app smid : ∀ spre spost pre mid post first count d_first,
  first = length spre → d_first = length pre →
  count = length smid → count = length mid →
  std.copy_n (spre ++ smid ++ spost) first count d_first (pre ++ mid ++ post)
  = Returns tt (pre ++ smid ++ post) (CopyAssign <$> seq d_first count).
Proof.
  induction smid as [|s smid IH];
    intros spre spost pre mid post first count d_first Hf Hd -> Hmid.
  { by destruct mid. }
  destruct mid as [|s' mid]; [done|].
  cbn [std.copy_n length]. run.
  rewrite (peek_middle _ _ _ _ _ Hf). run.
  rewrite assign_write, (write_middle _ _ _ _ _ Hd). run.
  rewrite (snoc_app spre), (snoc_app pre).
  rewrite (IH _ _ _ mid _ (S first) (length smid) (S d_first));
    [|by apply length_snoc|by apply length_snoc|done|by injection Hmid].
  run. by rewrite <-app_assoc.
Qed.

Lemma uninitialized_move_n_app smid : ∀ spre spost pre mid post first count d_first,
  first = length spre → d_first = length pre →
  count = length smid → count = length mid →
  std.uninitialized_move_n first count d_first
    (spre ++ smid ++ spost, pre ++ mid ++ post)
  = Returns tt (spre ++ ((fmap moved_from : slot T → slot T) <$> smid) ++ spost,
                pre ++ smid ++ post)
      (MoveConstruct <$> seq d_first count).
Proof.
  induction smid as [|s smid IH];
    intros spre spost pre mid post first count d_first Hf Hd -> Hmid.
  { by destruct mid. }
  destruct mid as [|s' mid]; [done|].
  cbn [std.uninitialized_move_n length]. run.
  rewrite (read_middle _ _ _ _ Hf). run.
  rewrite (write_middle _ _ _ _ _ Hd). run.
  rewrite (write_middle _ _ _ _ _ Hf). run.
  rewrite (snoc_app spre), (snoc_app pre).
  rewrite (IH _ _ _ mid _ (S first) (length smid) (S d_first));
    [|by apply length_snoc|by apply length_snoc|done|by injection Hmid].
  run. by rewrite <-!app_assoc.
Qed.

Lemma move_assign_next pre s m post d :
  d = length pre →
  std.move_assign d (S d) (pre ++ s :: m :: post)
  = Returns tt (pre ++ m :: (moved_from <$> m) :: post) [MoveAssign d].
Proof.
  intros Hd. unfold std.move_assign, std.assign.
  unfold assignment_is_store in store. rewrite store. run.
  rewrite (snoc_app pre), (read_middle _ _ _ _ (length_snoc _ _ _ Hd)).
  rewrite <-snoc_app. run.
  rewrite (write_middle _ _ _ _ _ Hd). run.
  rewrite (snoc_app pre), (write_middle _ _ _ _ _ (length_snoc _ _ _ Hd)).
  by rewrite <-snoc_app.
Qed.

Lemma move_assign_prev pre m s post d :
  d = length pre →
  std.move_assign (S d) d (pre ++ m :: s :: post)
  = Returns tt (pre ++ (moved_from <$> m) :: m :: post) [MoveAssign (S d)].
Proof.
  intros Hd. unfold std.move_assign, std.assign.
  unfold assignment_is_store in store. rewrite store. run.
  rewrite (read_middle _ _ _ _ Hd). run.
  rewrite (snoc_app pre), (write_middle _ _ _ _ _ (length_snoc _ _ _ Hd)).
  rewrite <-snoc_app. run.
  by rewrite (write_middle _ _ _ _ _ Hd).
Qed.

Lemma move_construct_prev pre m s post d :
  d = length pre →
  std.move_construct (S d) d (pre ++ m :: s :: post)
  = Returns tt (pre ++ (moved_from <$> m) :: m :: post) [MoveConstruct (S d)].
Proof.
  intros Hd. unfold std.move_construct. run.
  rewrite (read_middle _ _ _ _ Hd). run.
  rewrite (snoc_app pre), (write_middle _ _ _ _ _ (length_snoc _ _ _ Hd)).
  rewrite <-snoc_app. run.
  by rewrite (write_middle _ _ _ _ _ Hd).
Qed.

Lemma move_n_left mid : ∀ pre s post d count,
  d = length pre → count = length mid →
  std.move_n (S d) count d (pre ++ s :: mid ++ post)
  = Returns tt (pre ++ mid ++ left_over s mid :: post)
      (MoveAssign <$> seq d count).
Proof.
  induction mid as [|m mid IH]; intros pre s post d count Hd ->; [done|].
  cbn [std.move_n length]. run.
  rewrite (move_assign_next _ _ _ _ _ Hd). run.
  rewrite snoc_app, (IH _ _ _ (S d) (length mid)); [|by apply length_snoc|done].
  run. rewrite <-app_assoc.
  assert (left_over (moved_from <$> m) mid = left_over s (m :: mid)) as ->.
  { unfold left_over. destruct mid as [|m' mid']; [done|].
    rewrite last_cons_cons. destruct (last (m' :: mid')) eqn:E; [done|].
    by apply last_None in E. }
  reflexivity.
Qed.

Lemma move_backward_n_right mid : ∀ pre s post count last d_last,
  count = length mid → last = length pre + count → d_last = S last →
  std.move_backward_n count last d_last (pre ++ mid ++ s :: post)
  = Returns tt (pre ++ left_behind mid s :: mid ++ post)
      (MoveAssign <$> reverse (seq (S (length pre)) count)).
Proof.
  induction mid as [|m mid IH] using rev_ind;
    intros pre s post count last d_last -> -> ->; [done|].
  rewrite length_app. cbn [length]. rewrite Nat.add_1_r.
  cbn [std.move_backward_n]. run.
  rewrite <-app_assoc. cbn [app]. rewrite (app_assoc pre mid).
  replace (S (length pre + S (length mid)) - 1) with (S (length (pre ++ mid)))
    by (rewrite length_app; lia).
  replace (length pre + S (length mid) - 1) with (length (pre ++ mid))
    by (rewrite length_app; lia).
  rewrite (move_assign_prev _ _ _ _ _ eq_refl). run.
  rewrite <-app_assoc.
  rewrite (IH pre _ _ (length mid) (length (pre ++ mid)) (S (length (pre ++ mid))));
    [|done|by rewrite length_app|done].
  run. rewrite seq_S, reverse_snoc, <-!app_assoc. cbn [app fmap list_fmap].
  rewrite length_app.
  assert (left_behind mid (moved_from <$> m) = left_behind (mid ++ [m]) s) as ->
    by by destruct mid.
  reflexivity.
Qed.
(** The same algorithms on a range given by its offsets. *)
Lemma block_split b first n :
  first + n ≤ length b →
  b = take first b ++ take n (drop first b) ++ drop (first + n) b
  ∧ first = length (take first b) ∧ n = length (take n (drop first b)).
Proof.
  intros Hle. split_and!.
  - by rewrite <-drop_drop, take_drop, take_drop.
  - rewrite length_take. lia.
  - rewrite length_take, length_drop. lia.
Qed.

Lemma destroy_n_spec b first n :
  first + n ≤ length b →
  std.destroy_n first n b
  = Returns tt (take first b ++ replicate n None ++ drop (first + n) b)
      (Destroy <$> seq first n).
Proof.
  intros Hle. destruct (block_split b first n Hle) as (Hb & H1 & H2).
  rewrite Hb at 1. by apply destroy_n_app.
Qed.

Lemma uninitialized_value_construct_n_spec b first n :
  first + n ≤ length b →
  std.uninitialized_value_construct_n first n b
  = Returns tt (take first b ++ replicate n (Some value_init) ++ drop (first + n) b)
      (ValueConstruct <$> seq first n).
Proof.
  intros Hle. destruct (block_split b first n Hle) as (Hb & H1 & H2).
  rewrite Hb at 1. by apply uninitialized_value_construct_n_app.
Qed.

Lemma uninitialized_copy_n_spec (src : block T) b first count d_first :
  first + count ≤ length src → d_first + count ≤ length b →
  std.uninitialized_copy_n src first count d_first b
  = Returns tt (take d_first b ++ take count (drop first src)
                  ++ drop (d_first + count) b)
      (CopyConstruct <$> seq d_first count).
Proof.
  intros Hsrc Hdst.
  destruct (block_split src first count Hsrc) as (Hs & Hs1 & Hs2).
  destruct (block_split b d_first count Hdst) as (Hb & Hb1 & Hb2).
  rewrite Hs at 1. rewrite Hb at 1. by apply uninitialized_copy_n_app.
Qed.

Lemma copy_n_spec (src : block T) b first count d_first :
  first + count ≤ length src → d_first + count ≤ length b →
  std.copy_n src first count d_first b
  = Returns tt (take d_first b ++ take count (drop first src)
                  ++ drop (d_first + count) b)
      (CopyAssign <$> seq d_first count).
Proof.
  intros Hsrc Hdst.
  destruct (block_split src first count Hsrc) as (Hs & Hs1 & Hs2).
  destruct (block_split b d_first count Hdst) as (Hb & Hb1 & Hb2).
  rewrite Hs at 1. rewrite Hb at 1. by apply copy_n_app.
Qed.

End block_lemmas.

(** * The methods of [Vector] on every machine *)

Section machine_lemmas.
Context {T : Type} `{!Element T} {machine : Machine}.
Implicit Types (b pre mid post : block T) (s : slot T) (v : Vector T).

Lemma assert_true {S} (P : Prop) `{!Decision P} (st : S) :
  P → assert (bool_decide P) st = Returns tt st [].
Proof. intros HP. by rewrite bool_decide_true. Qed.

Lemma plus_ok (r : RawMemory T) offset :
  offset ≤ capacity_ r →
  RawMemory.plus offset r = Returns (address_ r + offset) r [].
Proof. intros Hle. unfold RawMemory.plus. run. by rewrite assert_true. Qed.

Lemma index_ok (r : RawMemory T) i :
  i < capacity_ r → RawMemory.index i r = Returns i r [].
Proof.
  intros Hlt. unfold RawMemory.index. run. rewrite assert_true by done.
  run. pointers. done.
Qed.

(** ** Allocation *)

(** A request that can be satisfied gives a block of [n] slots at an
    address of its own, and a request that the allocation function refuses
    throws [std::bad_alloc]. *)
Lemma ctor_allocates {S} in_use n (st : S) :
  n ≠ 0 → allocatable T n →
  RawMemory.ctor in_use n st
  = Returns (mkRawMemory (fresh in_use) (replicate n (@None T)) n) st [].
Proof.
  intros Hn [Hfits Hgranted].
  unfold RawMemory.ctor, RawMemory.Allocate, RawMemory.operator_new, size_t.
  unfold representable in Hfits.
  rewrite decide_True by done.
  destruct SIZE_MAX as [most|]; [rewrite N.mod_small by lia|];
    (destruct max_request as [limit|]; [rewrite decide_False by lia|]);
    run; by rewrite N.div_mul, Nat2N.id.
Qed.

Lemma ctor_replicates {S} in_use n (st : S) :
  allocatable T n →
  RawMemory.ctor in_use n st
  = Returns (mkRawMemory (if decide (n ≠ 0) then fresh in_use else 0)
               (replicate n (@None T)) n) st [].
Proof.
  intros Halloc. destruct (decide (n = 0)) as [->|Hn]; [done|].
  rewrite decide_True by done. by apply ctor_allocates.
Qed.

Lemma ctor_refuses {S} in_use n (st : S) :
  refused T n →
  RawMemory.ctor (T:=T) in_use n st = Throws bad_alloc st [].
Proof.
  unfold refused. intros Hrefused.
  unfold RawMemory.ctor, RawMemory.Allocate, RawMemory.operator_new.
  destruct max_request as [limit|]; [|done].
  destruct (decide (n = 0)) as [->|Hn].
  - exfalso. unfold size_t in Hrefused. cbn [N.of_nat N.mul] in Hrefused.
    destruct SIZE_MAX as [most|]; [rewrite N.Div0.mod_0_l in Hrefused|]; lia.
  - rewrite decide_True by done. by rewrite decide_True by done.
Qed.

(** A request whose count of bytes wraps around to less than one object
    gives a block of no slot, of which [capacity_] says that it has [n]. *)
Lemma ctor_wraps {S} in_use n (st : S) :
  n ≠ 0 →
  size_t (N.of_nat n * N.pos (sizeof (T:=T))) = 0%N →
  RawMemory.ctor in_use n st
  = Returns (mkRawMemory (fresh in_use) (@nil (slot T)) n) st [].
Proof.
  intros Hn Hzero.
  unfold RawMemory.ctor, RawMemory.Allocate, RawMemory.operator_new.
  rewrite decide_True by done. rewrite Hzero.
  destruct max_request as [limit|]; [rewrite decide_False by lia|]; by run.
Qed.

Lemma block_around b i n :
  i < n → n ≤ length b →
  ∃ pre s mid post,
    b = pre ++ s :: mid ++ post ∧ length pre = i ∧ length mid = n - 1 - i.
Proof.
  intros Hi Hn.
  destruct (lookup_lt_is_Some_2 b i) as [s Hs]; [lia|].
  exists (take i b), s, (take (n - 1 - i) (drop (S i) b)), (drop (n - 1 - i) (drop (S i) b)).
  split_and!.
  - rewrite take_drop. symmetry. by apply take_drop_middle.
  - rewrite length_take. lia.
  - rewrite length_take, length_drop. lia.
Qed.

Lemma MoveOrCopyRange_app smid spre spost pre mid post from_begin from_end to_begin :
  from_begin = length spre → from_end = from_begin + length smid →
  to_begin = length pre → length mid = length smid →
  Vector.MoveOrCopyRange from_begin from_end to_begin
    (spre ++ smid ++ spost, pre ++ mid ++ post)
  = Returns tt (spre ++ (transferred <$> smid) ++ spost, pre ++ smid ++ post)
      (transfer <$> seq to_begin (length smid)).
Proof.
  intros Hf -> Ht Hmid. unfold Vector.MoveOrCopyRange, transfer, transferred, moves.
  replace (from_begin + length smid - from_begin) with (length smid) by lia.
  destruct (is_nothrow_move_constructible || negb is_copy_constructible).
  - by apply uninitialized_move_n_app.
  - run. rewrite (uninitialized_copy_n_app smid spre spost pre mid post); try done.
    run. by rewrite list_fmap_id.
Qed.

(** ** [Reserve] *)

Lemma Reserve_allocates v new_capacity :
  well_formed v → Vector.Capacity v < new_capacity →
  allocatable T new_capacity →
  Vector.Reserve new_capacity v
  = Returns tt
      (mkVector
         (mkRawMemory (fresh [RawMemory.extent (data_ v)])
            (elements v ++ replicate (new_capacity - size_ v) None)
            new_capacity)
         (size_ v))
      ((transfer <$> seq 0 (size_ v)) ++ (Destroy <$> seq 0 (size_ v))).
Proof.
  destruct v as [[addr b cap] size]. unfold well_formed, elements, Vector.Capacity.
  simpl. intros [Hlen Hsize] Hcap Halloc.
  unfold Vector.Reserve, RawMemory.Capacity.
  run. cbn [data_ capacity_ size_ Nat.add]. rewrite decide_False by lia.
  run. rewrite ctor_allocates by (done || lia). run. pointers. fields.
  rewrite <-(take_drop size b) at 1.
  replace new_capacity with (size + (new_capacity - size)) at 1 by lia.
  rewrite replicate_add.
  pose proof (MoveOrCopyRange_app (take size b) [] (drop size b) []
                (replicate size None) (replicate (new_capacity - size) None)
                0 size 0) as Htransfer.
  cbn [app] in Htransfer. rewrite Htransfer;
    [|done|rewrite length_take; lia|done|rewrite length_take, length_replicate; lia].
  run. cbn [slots compose data buffer view update data_ buffer_ size_ capacity_ fst snd].
  pose proof (destroy_n_app (transferred <$> take size b) [] (drop size b) 0 size)
    as Hdestroy.
  cbn [app] in Hdestroy. rewrite Hdestroy;
    [|done|rewrite length_fmap, length_take; lia].
  run. cbn [slots compose data buffer view update data_ buffer_ size_ capacity_ fst snd].
  unfold RawMemory.Swap. run. simpl.
  rewrite length_take, Nat.min_l by lia. by rewrite !app_nil_r.
Qed.

(** [Reserve] within the capacity does nothing. *)
Lemma Reserve_within v new_capacity :
  new_capacity ≤ Vector.Capacity v →
  Vector.Reserve new_capacity v = Returns tt v [].
Proof. intros Hle. unfold Vector.Reserve. run. by rewrite decide_True. Qed.

(** A refused request leaves the vector as it was: nothing has been done
    when [RawMemory]'s constructor throws. *)
Lemma Reserve_refuses v new_capacity :
  Vector.Capacity v < new_capacity →
  refused T new_capacity →
  Vector.Reserve new_capacity v = Throws bad_alloc v [].
Proof.
  intros Hcap Hrefused. unfold Vector.Capacity, RawMemory.Capacity in Hcap.
  unfold Vector.Reserve, Vector.Capacity, RawMemory.Capacity. run.
  rewrite decide_False by lia. run. by rewrite ctor_refuses.
Qed.

(** A request that wraps around to no byte at all: the elements of a
    non-empty vector are transferred past the end of the new block, and an
    empty vector is left with a capacity that its block does not have. *)
Lemma Reserve_wraps v new_capacity :
  Vector.Capacity v < new_capacity →
  size_t (N.of_nat new_capacity * N.pos (sizeof (T:=T))) = 0%N →
  Vector.Reserve new_capacity v
  = if decide (size_ v = 0)
    then Returns tt
           (mkVector (mkRawMemory (fresh [RawMemory.extent (data_ v)]) []
                        new_capacity) 0) []
    else Undefined.
Proof.
  destruct v as [[addr b cap] size]. unfold Vector.Capacity, RawMemory.Capacity.
  simpl. intros Hcap Hzero.
  unfold Vector.Reserve, RawMemory.Capacity.
  run. cbn [data_ capacity_ size_ Nat.add]. rewrite decide_False by lia.
  run. rewrite ctor_wraps by (done || lia). run. pointers. fields.
  unfold Vector.MoveOrCopyRange.
  destruct size as [|size].
  - destruct (is_nothrow_move_constructible || negb is_copy_constructible);
      cbn [std.uninitialized_move_n std.uninitialized_copy_n std.destroy_n];
      run; fields; unfold RawMemory.Swap; by run.
  - rewrite decide_False by done.
    destruct (is_nothrow_move_constructible || negb is_copy_constructible);
      cbn [Nat.sub std.uninitialized_move_n std.uninitialized_copy_n]; run;
      unfold peek, read; destruct (b !! 0); run; done.
Qed.

Lemma Reserve_wraps_empty v new_capacity :
  Vector.Capacity v < new_capacity →
  size_t (N.of_nat new_capacity * N.pos (sizeof (T:=T))) = 0%N →
  size_ v = 0 →
  ∃ v',
    Vector.Reserve new_capacity v = Returns tt v' []
    ∧ Vector.Capacity v' = new_capacity
    ∧ buffer_ (data_ v') = []
    ∧ ¬ well_formed v'.
Proof.
  intros Hcap Hzero Hempty. rewrite Reserve_wraps by done.
  rewrite decide_True by done. eexists. split; [reflexivity|].
  split_and!; [done..|]. intros [Hlen _]. simpl in Hlen. lia.
Qed.

Lemma Reserve_wraps_elements v new_capacity :
  Vector.Capacity v < new_capacity →
  size_t (N.of_nat new_capacity * N.pos (sizeof (T:=T))) = 0%N →
  size_ v ≠ 0 →
  Vector.Reserve new_capacity v = Undefined.
Proof.
  intros Hcap Hzero Hsome. rewrite Reserve_wraps by done.
  by rewrite decide_False by done.
Qed.

(** ** Insertion *)

Lemma grown_gt capacity : capacity < grown capacity.
Proof. unfold grown. case_decide; lia. Qed.

Lemma EmplaceWithReallocation_allocates addr pre suf x :
  let size := length pre + length suf in
  allocatable T (grown size) →
  Vector.EmplaceWithReallocation (length pre) x
    (mkVector (mkRawMemory addr (pre ++ suf) size) size)
  = Returns tt
      (mkVector
         (mkRawMemory (fresh [(addr, size)])
            (pre ++ Some x :: suf ++ replicate (grown size - S size) None)
            (grown size))
         size)
      (Construct (length pre)
       :: (transfer <$> seq 0 (length pre))
       ++ (transfer <$> seq (S (length pre)) (length suf))
       ++ (Destroy <$> seq 0 size)).
Proof.
  intros size Halloc. pose proof (grown_gt size) as Hgrown.
  unfold Vector.EmplaceWithReallocation, Vector.Capacity, RawMemory.Capacity.
  run. fields. fold (grown size). rewrite ctor_allocates by (done || lia). run. pointers.
  rewrite plus_ok by (simpl; lia). run. fields. pointers.
  replace (grown size)
    with (length pre + S (length suf + (grown size - S size))) at 1 by lia.
  rewrite replicate_add, replicate_S, replicate_add.
  rewrite (construct_at_middle _ _ _ _ _ (eq_sym (length_replicate _ _))).
  run. fields.
  pose proof (MoveOrCopyRange_app pre [] suf [] (replicate (length pre) None)
                (Some x :: replicate (length suf) None
                   ++ replicate (grown size - S size) None)
                0 (0 + length pre) 0) as Hprefix.
  cbn [app Nat.add] in *. rewrite Hprefix; [|done..|by rewrite length_replicate].
  run. fields. pointers.
  replace (fresh [(addr, size)] + length pre + 1 - fresh [(addr, size)])
    with (length pre + 1) by lia.
  pose proof (MoveOrCopyRange_app suf (transferred <$> pre) [] (pre ++ [Some x])
                (replicate (length suf) None)
                (replicate (grown size - S size) None)
                (length pre) size (length pre + 1)) as Hsuffix.
  rewrite app_nil_r, <-!snoc_app in Hsuffix. rewrite Hsuffix;
    [|by rewrite length_fmap|done|rewrite length_app; simpl; lia
     |by rewrite length_replicate].
  run. fields.
  pose proof (destroy_n_app ((transferred <$> pre) ++ (transferred <$> suf)) [] []
                0 size) as Hdestroy.
  cbn [app] in Hdestroy. rewrite app_nil_r in Hdestroy.
  rewrite (app_nil_r (transferred <$> suf)). rewrite Hdestroy;
    [|done|rewrite length_app, !length_fmap; done].
  run. fields. unfold RawMemory.Swap. run. fields.
  rewrite Nat.add_1_r, !app_nil_r. reflexivity.
Qed.

Lemma EmplaceWithoutReallocation_end addr elems free post capacity x :
  length elems < capacity →
  Vector.EmplaceWithoutReallocation (length elems) x
    (mkVector (mkRawMemory addr (elems ++ free :: post) capacity) (length elems))
  = Returns tt
      (mkVector (mkRawMemory addr (elems ++ Some x :: post) capacity)
         (length elems))
      [Construct (length elems)].
Proof.
  intros Hcap. unfold Vector.EmplaceWithoutReallocation. run. fields.
  rewrite decide_True by done. run. fields.
  rewrite plus_ok by (simpl; lia). run. fields. pointers.
  by rewrite (construct_at_middle _ _ _ _ _ eq_refl).
Qed.

Lemma block_at b i :
  i ≤ length b → ∃ pre suf, b = pre ++ suf ∧ length pre = i.
Proof.
  intros Hi. exists (take i b), (drop i b). split; [by rewrite take_drop|].
  rewrite length_take. lia.
Qed.

Lemma take_app_exact {A} (l1 l2 : list A) n : n = length l1 → take n (l1 ++ l2) = l1.
Proof. apply take_app_length'. Qed.

Lemma take_app_cons {A} (l1 : list A) x l2 l3 n :
  n = S (length l1 + length l2) → take n (l1 ++ x :: l2 ++ l3) = l1 ++ x :: l2.
Proof.
  intros ->. replace (l1 ++ x :: l2 ++ l3) with ((l1 ++ x :: l2) ++ l3)
    by by rewrite <-app_assoc.
  apply take_app_length'. rewrite length_app. simpl. lia.
Qed.

(** ** Construction and [Resize] *)

Lemma ctor_constructs {S} size (st : S) :
  allocatable T size →
  Vector.ctor size st
  = Returns (mkVector (mkRawMemory (if decide (size ≠ 0) then fresh [] else 0)
                         (replicate size (Some value_init)) size) size)
      st (ValueConstruct <$> seq 0 size).
Proof.
  intros Halloc. unfold Vector.ctor, Vector.construct.
  run. rewrite ctor_replicates by done. run. fields. pointers.
  rewrite uninitialized_value_construct_n_spec by (rewrite length_replicate; lia).
  run. fields. rewrite drop_ge by (rewrite length_replicate; lia).
  by rewrite app_nil_r.
Qed.

Lemma ctor_throws {S} size (st : S) :
  refused T size → Vector.ctor (T:=T) size st = Throws bad_alloc st [].
Proof. intros Hrefused. unfold Vector.ctor. run. by rewrite ctor_refuses. Qed.

Lemma Resize_allocates v new_size :
  well_formed v →
  (Vector.Capacity v < new_size → allocatable T new_size) →
  ∃ v' tr,
    Vector.Resize new_size v = Returns tt v' tr
    ∧ size_ v' = new_size
    ∧ Vector.Capacity v' = Vector.Capacity v `max` new_size
    ∧ elements v'
      = take new_size (elements v)
        ++ replicate (new_size - size_ v) (Some value_init)
    ∧ well_formed v'.
Proof.
  intros Hwf Halloc. pose proof Hwf as [Hlen Hsize].
  unfold Vector.Capacity, RawMemory.Capacity in Halloc.
  unfold Vector.Resize, Vector.Capacity, RawMemory.Capacity.
  run. destruct (decide (new_size < size_ v)) as [Hshrink|Hge].
  - run. fields. pointers. rewrite destroy_n_spec by lia. run.
    eexists _, _. split; [reflexivity|]. unfold elements, well_formed. simpl.
    split_and!; [done|lia| | |lia].
    + rewrite take_take, Nat.min_l by lia.
      replace (new_size - size_ v) with 0 by lia.
      rewrite app_nil_r. apply take_app_length'. rewrite length_take. lia.
    + rewrite !length_app, length_take, length_replicate, length_drop. lia.
  - destruct (decide (size_ v < new_size)) as [Hgrow|Hsame].
    + assert (∃ w tr,
          (if decide (capacity_ (data_ v) < new_size)
           then Vector.Reserve new_size else ret tt) v = Returns tt w tr
          ∧ size_ w = size_ v ∧ elements w = elements v ∧ well_formed w
          ∧ capacity_ (data_ w) = capacity_ (data_ v) `max` new_size)
        as (w & tr & Hres & Hsize' & Helems & [Hlen' Hcap'] & Hmax).
      { case_decide as Hcap.
        - rewrite Reserve_allocates by (done || by apply Halloc). eexists _, _. split; [reflexivity|].
          assert (length (elements v) = size_ v) as Hl
            by (unfold elements; rewrite length_take; lia).
          unfold elements at 1, well_formed. simpl.
          split_and!; [done|by apply take_app_length'| |lia|lia].
          rewrite length_app, length_replicate, Hl. lia.
        - eexists _, _. split; [reflexivity|]. split_and!; [done..|lia]. }
      run. rewrite Hres. run. fields. pointers. rewrite Hsize'.
      rewrite uninitialized_value_construct_n_spec by lia. run.
      eexists _, _. split; [reflexivity|]. unfold elements, well_formed in *. simpl.
      split_and!; [done|done| | |lia].
      * rewrite Hsize' in Helems. rewrite Helems.
        rewrite (take_ge (take _ (buffer_ (data_ v)))) by (rewrite length_take; lia).
        rewrite app_assoc. apply take_app_length'.
        rewrite length_app, length_take, length_replicate. lia.
      * rewrite !length_app, length_take, length_replicate, length_drop. lia.
    + run. assert (new_size = size_ v) as -> by lia.
      eexists _, _. split; [reflexivity|]. unfold elements, well_formed. simpl.
      split_and!; [done|lia| |done|done].
      rewrite take_take, Nat.min_id, Nat.sub_diag. by rewrite app_nil_r.
Qed.

Lemma Resize_refuses v new_size :
  well_formed v → Vector.Capacity v < new_size → refused T new_size →
  Vector.Resize new_size v = Throws bad_alloc v [].
Proof.
  intros [Hlen Hsize] Hcap Hrefused.
  pose proof (Reserve_refuses v new_size Hcap Hrefused) as Hthrows.
  unfold Vector.Capacity, RawMemory.Capacity in Hcap.
  unfold Vector.Resize, Vector.Capacity, RawMemory.Capacity. run.
  rewrite decide_False by lia. rewrite decide_True by lia.
  rewrite decide_True by lia. run. by rewrite Hthrows.
Qed.

(** ** [Erase] *)

(** [Erase] of the last element assigns nothing. *)
Lemma Erase_last v :
  well_formed v → 0 < size_ v →
  Vector.Erase (Vector.begin v + (size_ v - 1)) v
  = Returns (Vector.begin v + (size_ v - 1))
      (mkVector
         (mkRawMemory (address_ (data_ v))
            (<[size_ v - 1 := None]> (buffer_ (data_ v)))
            (capacity_ (data_ v)))
         (size_ v - 1))
      [Destroy (size_ v - 1)].
Proof.
  destruct v as [[addr b cap] size]. unfold well_formed. simpl.
  intros [Hlen Hsize] Hpos.
  unfold Vector.Erase. run. pointers.
  rewrite assert_true by lia. run. fields.
  unfold std.destroy_at, write. run. rewrite decide_True by lia. run.
  rewrite decide_False by lia. run. by rewrite ?app_nil_r.
Qed.

(** [Erase] keeps the block where it is, and returns the position it was
    given. *)
Lemma Erase_keeps_block pos v a v' tr :
  Vector.Erase pos v = Returns a v' tr →
  Vector.begin v' = Vector.begin v ∧ a = pos.
Proof.
  intros Hrun. unfold Vector.Erase in Hrun. run in Hrun.
  destruct (bool_decide _) eqn:Hpos; [|done].
  apply bool_decide_eq_true in Hpos. run in Hrun. fields in Hrun.
  destruct (std.destroy_at _ _) as [[] b1 tr1| |]; [|done..].
  run in Hrun. fields in Hrun.
  case_decide.
  - run in Hrun. fields in Hrun.
    destruct (std.move _ _ _ _) as [[] b2 tr2| |]; [|done..].
    run in Hrun. injection Hrun as <- <- _.
    split; [done|]. unfold Vector.begin, Vector.end_ in *. lia.
  - run in Hrun. injection Hrun as <- <- _.
    split; [done|]. unfold Vector.begin, Vector.end_ in *. lia.
Qed.

(** ** Where an assignment is a store *)

Hypothesis store : assignment_is_store T.

Lemma Erase_stores v i :
  well_formed v → i < size_ v →
  ∃ v',
    Vector.Erase (Vector.begin v + i) v
    = Returns (Vector.begin v + i) v'
        (Destroy i :: (MoveAssign <$> seq i (size_ v - 1 - i)))
    ∧ size_ v' = size_ v - 1
    ∧ Vector.Capacity v' = Vector.Capacity v
    ∧ elements v' = delete i (elements v)
    ∧ well_formed v'.
Proof.
  destruct v as [[addr b cap] size]. unfold well_formed, elements. simpl.
  intros [Hlen Hsize] Hi.
  destruct (block_around b i size) as (pre & s & mid & post & -> & Hpre & Hmid);
    [lia..|].
  unfold Vector.Erase. run. pointers.
  rewrite assert_true by lia. run. fields.
  rewrite (destroy_at_middle _ _ _ _ (eq_sym Hpre)). run.
  assert (take size (pre ++ s :: mid ++ post) = pre ++ s :: mid) as Helems.
  { replace (pre ++ s :: mid ++ post) with ((pre ++ s :: mid) ++ post)
      by by rewrite <-app_assoc.
    apply take_app_length'. rewrite length_app. simpl. lia. }
  rewrite Helems, <-Hpre, delete_middle, Hpre.
  rewrite length_app in Hlen. cbn [length] in Hlen. rewrite length_app in Hlen.
  replace (size - 1 - i) with (size - S i) in * by lia.
  replace (addr + i + 1 - addr) with (S i) by lia.
  destruct (decide (addr + i + 1 ≠ addr + size)) as [Hne|Heq].
  - run. cbn [slots compose data buffer view update data_ buffer_ size_ capacity_].
    unfold std.move.
    rewrite (move_n_left store mid pre None post i (size - S i)); [|done|lia].
    run. eexists. split; [by rewrite app_nil_r|]. simpl. split_and!; [done..| | |lia].
    + rewrite app_assoc. apply take_app_length'. rewrite length_app. lia.
    + rewrite !length_app. cbn [length]. lia.
  - run. apply dec_stable in Heq. destruct mid; [|simpl in Hmid; lia].
    replace (size - S i) with 0 in * by lia.
    eexists. split; [done|]. simpl. split_and!; [done..| | |lia].
    + rewrite app_nil_r. apply take_app_length'. lia.
    + rewrite length_app. simpl. lia.
Qed.

(** [Erase] on a block in its parts: the slot at the position, the elements
    behind it, and the slots from [size_] on. *)
Lemma Erase_block addr pre s mid post cap :
  Vector.Erase (addr + length pre)
    (mkVector (mkRawMemory addr (pre ++ s :: mid ++ post) cap)
       (length pre + S (length mid)))
  = Returns (addr + length pre)
      (mkVector (mkRawMemory addr (pre ++ mid ++ left_over None mid :: post) cap)
         (length pre + length mid))
      (Destroy (length pre) :: (MoveAssign <$> seq (length pre) (length mid))).
Proof.
  unfold Vector.Erase. run. pointers.
  rewrite assert_true by lia. run. fields.
  rewrite (destroy_at_middle pre s (mid ++ post) (length pre) eq_refl). run.
  replace (addr + length pre + 1 - addr) with (S (length pre)) by lia.
  destruct (decide (addr + length pre + 1 ≠ addr + (length pre + S (length mid))))
    as [Hne|Heq].
  - run. fields. unfold std.move.
    rewrite (move_n_left store mid pre None post (length pre) _); [|done|lia].
    run. rewrite app_nil_r.
    unfold set_size. cbn [data_ size_].
    replace (length pre + S (length mid) - 1) with (length pre + length mid) by lia.
    by replace (length pre + S (length mid) - S (length pre)) with (length mid) by lia.
  - run. apply dec_stable in Heq. destruct mid; [|simpl in Heq; lia].
    cbn. by rewrite Nat.add_0_r, Nat.add_1_r, Nat.sub_succ, Nat.sub_0_r.
Qed.

Lemma EmplaceWithoutReallocation_stores addr pre mid m free post capacity x :
  let size := length pre + S (length mid) in
  size < capacity →
  Vector.EmplaceWithoutReallocation (length pre) x
    (mkVector (mkRawMemory addr (pre ++ mid ++ m :: free :: post) capacity) size)
  = Returns tt
      (mkVector (mkRawMemory addr (pre ++ Some x :: mid ++ m :: post) capacity)
         size)
      (TempConstruct :: MoveConstruct size
       :: (MoveAssign <$> reverse (seq (S (length pre)) (length mid)))
       ++ [MoveAssign (length pre); TempDestroy]).
Proof.
  intros size Hcap.
  unfold Vector.EmplaceWithoutReallocation.
  run. fields. rewrite decide_False by (unfold size; lia). run. fields.
  rewrite plus_ok by (simpl; lia). run. fields.
  rewrite index_ok by (simpl; lia). run. fields. pointers.
  replace (addr + size - 1 - addr) with (size - 1) by lia.
  assert (size - 1 = length (pre ++ mid)) as Hlast
    by (rewrite length_app; unfold size; lia).
  assert (size = S (length (pre ++ mid))) as Hsize
    by (rewrite length_app; unfold size; lia).
  rewrite Hlast. rewrite Hsize at 1.
  rewrite (app_assoc pre mid), (move_construct_prev _ _ _ _ _ eq_refl).
  run. fields. rewrite <-app_assoc. unfold std.move_backward.
  rewrite (move_backward_n_right store mid pre _ _ (length (pre ++ mid) - length pre)
             (length (pre ++ mid)) size);
    [|rewrite length_app; lia|rewrite length_app; lia|done].
  run. fields. rewrite index_ok by (simpl; unfold size in *; lia). run. fields.
  rewrite (assign_write store), (write_middle _ _ _ _ _ eq_refl). run.
  rewrite <-Hsize. rewrite length_app.
  replace (length pre + length mid - length pre) with (length mid) by lia.
  reflexivity.
Qed.

(** An insertion, with the address of the block it leaves: that of a new
    block when the block was full. *)
Lemma Emplace_stores v index x :
  well_formed v → index ≤ size_ v →
  (size_ v = Vector.Capacity v → allocatable T (grown (Vector.Capacity v))) →
  ∃ v' tr,
    Vector.Emplace (Vector.begin v + index) x v
    = Returns (Vector.begin v' + index) v' tr
    ∧ size_ v' = S (size_ v)
    ∧ Vector.Capacity v'
      = (if decide (size_ v = Vector.Capacity v)
         then grown (Vector.Capacity v) else Vector.Capacity v)
    ∧ elements v' = take index (elements v) ++ Some x :: drop index (elements v)
    ∧ well_formed v'
    ∧ Vector.begin v'
      = (if decide (size_ v = Vector.Capacity v)
         then fresh [RawMemory.extent (data_ v)] else Vector.begin v).
Proof.
  destruct v as [[addr b cap] size].
  unfold well_formed, elements, Vector.Capacity, RawMemory.Capacity. simpl.
  intros [Hlen Hsize] Hindex Halloc.
  unfold Vector.Emplace, Vector.Capacity, RawMemory.Capacity.
  run. fields. pointers. rewrite assert_true by lia. run. fields.
  destruct (decide (size = cap)) as [->|Hspare].
  - destruct (block_at b index) as (pre & suf & -> & <-); [lia|].
    rewrite length_app in Hlen. subst cap.
    rewrite EmplaceWithReallocation_allocates by by apply Halloc. run. fields.
    set (size := length pre + length suf) in *.
    pose proof (grown_gt size) as Hgrown.
    returned. split; [reflexivity|]. simpl.
    split_and!; [lia|done| | |lia|done].
    + rewrite (take_ge (pre ++ suf)) by (rewrite length_app; lia).
      rewrite (take_app_exact pre suf), drop_app_length by done.
      apply take_app_cons. lia.
    + rewrite !length_app. simpl. rewrite length_app, length_replicate. lia.
  - destruct (decide (index = size)) as [->|Hmid].
    + destruct (block_around b size (S size)) as (elems & free & mid & post & -> & <- & Hnil);
        [lia..|].
      destruct mid; [clear Hnil|simpl in Hnil; lia]. cbn [app] in *.
      rewrite EmplaceWithoutReallocation_end by lia. run. fields.
      rewrite length_app in Hlen. simpl in Hlen.
      returned. split; [reflexivity|]. simpl.
      split_and!; [lia|done| | |lia|done].
      * rewrite (take_app_exact elems (free :: post)), firstn_all, drop_all by done.
        rewrite <-(app_nil_l post). apply take_app_cons. simpl. lia.
      * rewrite length_app. simpl. lia.
    + destruct (block_around b (size - 1) (S size))
        as (elems & m & one & post & -> & Helems & Hone); [lia..|].
      destruct one as [|free [|]]; [simpl in Hone; lia| |simpl in Hone; lia].
      destruct (block_at elems index) as (pre & mid & -> & <-); [lia|].
      rewrite length_app in Helems.
      replace size with (length pre + S (length mid)) in * by lia.
      rewrite <-app_assoc. cbn [app].
      rewrite !length_app in Hlen. simpl in Hlen.
      rewrite EmplaceWithoutReallocation_stores by lia. run. fields.
      returned. split; [reflexivity|]. simpl.
      split_and!; [lia|done| | |lia|done].
      * replace (pre ++ mid ++ m :: free :: post)
          with ((pre ++ mid ++ [m]) ++ free :: post) by by rewrite <-!app_assoc.
        rewrite (take_app_exact (pre ++ mid ++ [m]))
          by (rewrite !length_app; simpl; lia).
        rewrite (take_app_exact pre (mid ++ [m])), drop_app_length by done.
        rewrite (snoc_app mid m post). apply take_app_cons.
        rewrite length_app. simpl. lia.
      * rewrite !length_app. simpl. rewrite length_app. simpl. lia.
Qed.
End machine_lemmas.

(** * The methods of [Vector] on the ideal machine *)

Section vector_lemmas.
Context {T : Type} `{!Element T}.
Implicit Types (b pre mid post : block T) (s : slot T) (v : Vector T).

(** The ideal machine satisfies every request, and its assignments are
    stores. *)
Lemma allocatable_ideal n : allocatable T n.
Proof. by split. Qed.

Lemma store_ideal : assignment_is_store T.
Proof. reflexivity. Qed.

Lemma ctor_fresh {S} in_use n (st : S) :
  n ≠ 0 →
  RawMemory.ctor in_use n st
  = Returns (mkRawMemory (fresh in_use) (replicate n (@None T)) n) st [].
Proof. intros Hn. apply ctor_allocates; [done|apply allocatable_ideal]. Qed.

Lemma ctor_replicate {S} in_use n (st : S) :
  RawMemory.ctor in_use n st
  = Returns (mkRawMemory (if decide (n ≠ 0) then fresh in_use else 0)
               (replicate n (@None T)) n) st [].
Proof.
  destruct (decide (n = 0)) as [->|Hn]; [done|].
  rewrite decide_True by done. by apply ctor_fresh.
Qed.

Lemma Erase_spec v i :
  well_formed v → i < size_ v →
  ∃ v',
    Vector.Erase (Vector.begin v + i) v
    = Returns (Vector.begin v + i) v'
        (Destroy i :: (MoveAssign <$> seq i (size_ v - 1 - i)))
    ∧ size_ v' = size_ v - 1
    ∧ Vector.Capacity v' = Vector.Capacity v
    ∧ elements v' = delete i (elements v)
    ∧ well_formed v'.
Proof. apply Erase_stores, store_ideal. Qed.

Lemma Reserve_grows v new_capacity :
  well_formed v → Vector.Capacity v < new_capacity →
  Vector.Reserve new_capacity v
  = Returns tt
      (mkVector
         (mkRawMemory (fresh [RawMemory.extent (data_ v)])
            (elements v ++ replicate (new_capacity - size_ v) None)
            new_capacity)
         (size_ v))
      ((transfer <$> seq 0 (size_ v)) ++ (Destroy <$> seq 0 (size_ v))).
Proof.
  intros Hwf Hcap. apply Reserve_allocates; [done..|apply allocatable_ideal].
Qed.

Lemma EmplaceWithReallocation_spec addr pre suf x :
  let size := length pre + length suf in
  Vector.EmplaceWithReallocation (length pre) x
    (mkVector (mkRawMemory addr (pre ++ suf) size) size)
  = Returns tt
      (mkVector
         (mkRawMemory (fresh [(addr, size)])
            (pre ++ Some x :: suf ++ replicate (grown size - S size) None)
            (grown size))
         size)
      (Construct (length pre)
       :: (transfer <$> seq 0 (length pre))
       ++ (transfer <$> seq (S (length pre)) (length suf))
       ++ (Destroy <$> seq 0 size)).
Proof. apply EmplaceWithReallocation_allocates, allocatable_ideal. Qed.

Lemma EmplaceWithoutReallocation_mid addr pre mid m free post capacity x :
  let size := length pre + S (length mid) in
  size < capacity →
  Vector.EmplaceWithoutReallocation (length pre) x
    (mkVector (mkRawMemory addr (pre ++ mid ++ m :: free :: post) capacity) size)
  = Returns tt
      (mkVector (mkRawMemory addr (pre ++ Some x :: mid ++ m :: post) capacity)
         size)
      (TempConstruct :: MoveConstruct size
       :: (MoveAssign <$> reverse (seq (S (length pre)) (length mid)))
       ++ [MoveAssign (length pre); TempDestroy]).
Proof. apply EmplaceWithoutReallocation_stores, store_ideal. Qed.

Lemma Emplace_run v index x :
  well_formed v → index ≤ size_ v →
  ∃ v' tr,
    Vector.Emplace (Vector.begin v + index) x v
    = Returns (Vector.begin v' + index) v' tr
    ∧ size_ v' = S (size_ v)
    ∧ Vector.Capacity v'
      = (if decide (size_ v = Vector.Capacity v)
         then grown (Vector.Capacity v) else Vector.Capacity v)
    ∧ elements v' = take index (elements v) ++ Some x :: drop index (elements v)
    ∧ well_formed v'
    ∧ Vector.begin v'
      = (if decide (size_ v = Vector.Capacity v)
         then fresh [RawMemory.extent (data_ v)] else Vector.begin v).
Proof.
  intros Hwf Hindex. apply Emplace_stores; [apply store_ideal|done..|].
  intros _. apply allocatable_ideal.
Qed.

Lemma Emplace_spec v index x :
  well_formed v → index ≤ size_ v →
  ∃ v' tr,
    Vector.Emplace (Vector.begin v + index) x v
    = Returns (Vector.begin v' + index) v' tr
    ∧ size_ v' = S (size_ v)
    ∧ Vector.Capacity v'
      = (if decide (size_ v = Vector.Capacity v)
         then grown (Vector.Capacity v) else Vector.Capacity v)
    ∧ elements v' = take index (elements v) ++ Some x :: drop index (elements v)
    ∧ well_formed v'.
Proof.
  intros Hwf Hindex.
  destruct (Emplace_run v index x Hwf Hindex)
    as (v' & tr & Hrun & Hsize & Hcap & Helems & Hwf' & _).
  by exists v', tr.
Qed.

Lemma EmplaceBack_spec v x :
  well_formed v →
  ∃ v' tr,
    Vector.EmplaceBack x v = Returns (size_ v' - 1) v' tr
    ∧ size_ v' = S (size_ v)
    ∧ Vector.Capacity v'
      = (if decide (size_ v = Vector.Capacity v)
         then grown (Vector.Capacity v) else Vector.Capacity v)
    ∧ elements v' = elements v ++ [Some x]
    ∧ well_formed v'.
Proof.
  intros Hwf.
  destruct (Emplace_spec v (size_ v) x Hwf) as (v' & tr & Hrun & Hsize & Hcap & Helems & Hwf');
    [done|].
  exists v', tr. split_and!; try done.
  - unfold Vector.EmplaceBack. run. unfold Vector.end_, Vector.begin in *.
    rewrite Hrun, Hsize. run. pointers. rewrite !app_nil_r. f_equal. lia.
  - rewrite Helems. unfold elements. rewrite take_take, Nat.min_id.
    rewrite drop_ge; [done|]. rewrite length_take. lia.
Qed.

Lemma PushBack_spec v x :
  well_formed v →
  ∃ v' tr,
    Vector.PushBack x v = Returns tt v' tr
    ∧ size_ v' = S (size_ v)
    ∧ Vector.Capacity v'
      = (if decide (size_ v = Vector.Capacity v)
         then grown (Vector.Capacity v) else Vector.Capacity v)
    ∧ elements v' = elements v ++ [Some x]
    ∧ well_formed v'.
Proof.
  intros Hwf.
  destruct (EmplaceBack_spec v x Hwf) as (v' & tr & Hrun & Hrest).
  exists v', (tr ++ []). split; [|done].
  unfold Vector.PushBack. run. by rewrite Hrun.
Qed.

(** The capacity after one more insertion at the end, the vector holding
    [K] elements in a block of [2 ^ log2_up K] slots. *)
Lemma doubling_step K :
  1 ≤ K →
  (if decide (K = 2 ^ Nat.log2_up K) then grown (2 ^ Nat.log2_up K)
   else 2 ^ Nat.log2_up K) = 2 ^ Nat.log2_up (S K).
Proof.
  intros HK. pose proof (Nat.log2_up_spec K) as Hspec.
  case_decide as Hfull.
  - unfold grown. rewrite decide_False by (pose proof (Nat.pow_nonzero 2 (Nat.log2_up K)); lia).
    rewrite (Nat.log2_up_unique (S K) (S (Nat.log2_up K))); [|lia|].
    + rewrite Nat.pow_succ_r'. lia.
    + simpl Nat.pred. rewrite Nat.pow_succ_r'. lia.
  - destruct (decide (K = 1)) as [->|]; [done|].
    f_equal. symmetry. 
    assert (Nat.log2_up K ≠ 0) as Hpos.
    { intros H0. rewrite H0 in *. simpl in *. lia. }
    apply Nat.log2_up_unique; [lia|]. lia.
Qed.

Lemma PushBack_all_spec xs : ∀ v,
  well_formed v →
  (size_ v = 0 ∧ Vector.Capacity v = 0 ∨
   1 ≤ size_ v ∧ Vector.Capacity v = 2 ^ Nat.log2_up (size_ v)) →
  xs ≠ [] →
  ∃ v' tr,
    PushBack_all xs v = Returns tt v' tr
    ∧ size_ v' = size_ v + length xs
    ∧ Vector.Capacity v' = 2 ^ Nat.log2_up (size_ v + length xs)
    ∧ elements v' = elements v ++ (Some <$> xs)
    ∧ well_formed v'.
Proof.
  induction xs as [|x xs IH]; intros v Hwf Hcap Hne; [done|].
  destruct (PushBack_spec v x Hwf) as (v1 & tr1 & Hrun1 & Hsize1 & Hcap1 & Helems1 & Hwf1).
  assert (Vector.Capacity v1 = 2 ^ Nat.log2_up (size_ v1)) as Hcap1'.
  { rewrite Hcap1, Hsize1. destruct Hcap as [[-> ->]|[Hpos ->]].
    - done.
    - by apply doubling_step. }
  cbn [PushBack_all]. run. rewrite Hrun1. run.
  destruct xs as [|x' xs].
  - run. exists v1, (tr1 ++ []). simpl. rewrite Nat.add_1_r, <-Hsize1. done.
  - destruct (IH v1 Hwf1) as (v' & tr & Hrun & Hsize & Hcap' & Helems & Hwf'); [right; lia|done|].
    rewrite Hrun. run. exists v', (tr1 ++ tr). split; [done|].
    rewrite Hsize, Hcap', Helems, Helems1, Hsize1, <-app_assoc.
    cbn [length]. replace (S (size_ v) + S (length xs)) with (size_ v + S (S (length xs))) by lia.
    done.
Qed.

Lemma EmplaceWithReallocation_capacity v index x :
  well_formed v → size_ v = Vector.Capacity v → index ≤ size_ v →
  ∃ v' tr,
    Vector.EmplaceWithReallocation index x v = Returns tt v' tr
    ∧ Vector.Capacity v' = grown (Vector.Capacity v).
Proof.
  destruct v as [[addr b cap] size]. unfold well_formed, Vector.Capacity, RawMemory.Capacity.
  simpl. intros [Hlen _] -> Hindex.
  destruct (block_at b index) as (pre & suf & -> & <-); [lia|].
  rewrite length_app in Hlen. subst cap.
  rewrite EmplaceWithReallocation_spec. by eexists _, _.
Qed.

Lemma exec_all_reachable (p : list (Program.statement T)) : ∀ h h' tr,
  Program.reachable h → Program.exec_all p h = Returns tt h' tr →
  Program.reachable h'.
Proof.
  induction p as [|c p IH]; intros h h' tr Hreach Hrun.
  - cbn in Hrun. by injection Hrun as <- _.
  - cbn [Program.exec_all] in Hrun. run in Hrun.
    destruct (Program.exec c h) as [[] h1 tr1| |] eqn:Hexec; [|done..].
    destruct (Program.exec_all p h1) as [[] h2 tr2| |] eqn:Hrest; [|done..].
    cbn in Hrun. injection Hrun as <- _.
    eapply IH; [|done]. by eapply Program.reachable_exec.
Qed.

Lemma copy_ctor_spec {S} in_use (other : Vector T) (st : S) :
  well_formed other →
  Vector.copy_ctor_beside in_use other st
  = Returns (mkVector
               (mkRawMemory
                  (if decide (size_ other ≠ 0)
                   then fresh (RawMemory.extent (data_ other) :: in_use) else 0)
                  (elements other) (size_ other))
               (size_ other))
      st (CopyConstruct <$> seq 0 (size_ other)).
Proof.
  intros [Hlen Hsize].
  unfold Vector.copy_ctor_beside, Vector.construct.
  run. rewrite ctor_replicate. run. fields. pointers.
  rewrite uninitialized_copy_n_spec by (rewrite ?length_replicate; lia).
  run. fields. rewrite (drop_ge (replicate _ _)) by (rewrite length_replicate; lia).
  by rewrite app_nil_r.
Qed.

Lemma dtor_spec v :
  well_formed v →
  Vector.dtor v
  = Returns tt
      (mkVector (mkRawMemory (address_ (data_ v))
                   (replicate (size_ v) None
                      ++ drop (size_ v) (buffer_ (data_ v)))
                   (capacity_ (data_ v)))
         (size_ v))
      (Destroy <$> seq 0 (size_ v)).
Proof.
  intros [Hlen Hsize]. unfold Vector.dtor.
  run. fields. pointers. rewrite destroy_n_spec by lia. by run.
Qed.

Lemma Clear_spec v :
  well_formed v →
  Vector.Clear v
  = Returns tt
      (mkVector (mkRawMemory (address_ (data_ v))
                   (replicate (size_ v) None
                      ++ drop (size_ v) (buffer_ (data_ v)))
                   (capacity_ (data_ v)))
         0)
      (Destroy <$> seq 0 (size_ v)).
Proof.
  intros [Hlen Hsize]. unfold Vector.Clear.
  run. fields. pointers. rewrite destroy_n_spec by lia. run. by rewrite app_nil_r.
Qed.

Lemma PopBack_spec v :
  well_formed v → 0 < size_ v →
  Vector.PopBack v
  = Returns tt
      (mkVector (mkRawMemory (address_ (data_ v))
                   (<[size_ v - 1 := None]> (buffer_ (data_ v)))
                   (capacity_ (data_ v)))
         (size_ v - 1))
      [Destroy (size_ v - 1)].
Proof.
  intros [Hlen Hsize] Hpos. unfold Vector.PopBack. run.
  rewrite assert_true by done. run. fields.
  rewrite plus_ok by (simpl; lia). run. fields. pointers.
  unfold std.destroy_at, write. run. rewrite decide_True by lia. by run.
Qed.

Lemma Resize_spec v new_size :
  well_formed v →
  ∃ v' tr,
    Vector.Resize new_size v = Returns tt v' tr
    ∧ size_ v' = new_size
    ∧ Vector.Capacity v' = Vector.Capacity v `max` new_size
    ∧ elements v'
      = take new_size (elements v)
        ++ replicate (new_size - size_ v) (Some value_init)
    ∧ well_formed v'.
Proof.
  intros Hwf. apply Resize_allocates; [done|]. intros _. apply allocatable_ideal.
Qed.
Lemma copy_assign_spec v rhs :
  well_formed v → well_formed rhs →
  ∃ v' tr,
    Vector.copy_assign (Other rhs) v = Returns tt v' tr
    ∧ size_ v' = size_ rhs
    ∧ Vector.Capacity v'
      = (if decide (Vector.Capacity v < size_ rhs)
         then size_ rhs else Vector.Capacity v)
    ∧ well_formed v'
    ∧ (Vector.Capacity v < size_ rhs ∨ size_ rhs ≤ size_ v ∨ size_ v = 0 →
       elements v' = elements rhs)
    ∧ (0 < size_ v < size_ rhs → size_ rhs ≤ Vector.Capacity v →
       buffer_ (data_ v') !! (size_ rhs - 1)
       = buffer_ (data_ v) !! (size_ rhs - 1)).
Proof.
  intros Hwf Hwfr. pose proof Hwf as [Hlen Hsize]. pose proof Hwfr as [Hlenr Hsizer].
  unfold Vector.copy_assign, Vector.Capacity, RawMemory.Capacity.
  run. destruct (decide (capacity_ (data_ v) < size_ rhs)) as [Hcap|Hfits].
  - run. rewrite copy_ctor_spec by done. run. fields.
    unfold Vector.Swap, RawMemory.Swap. run. fields.
    unfold Vector.destroy_local.
    replace (mkVector (mkRawMemory (address_ (data_ v)) (buffer_ (data_ v))
                         (capacity_ (data_ v))) (size_ v))
      with v by by destruct v as [[] ?].
    rewrite dtor_spec by done. run.
    eexists _, _. split; [reflexivity|]. unfold elements, well_formed. simpl.
    split_and!; [done..| |lia| |lia].
    + rewrite length_take. lia.
    + intros _. rewrite take_take. f_equal. lia.
  - run. fields. pointers.
    rewrite (copy_n_spec store_ideal) by lia. run. fields.
    destruct (decide (size_ v < size_ rhs)) as [Hgrow|Hshrink].
    + run. fields. pointers.
      rewrite Nat.min_l by lia. rewrite take_0, drop_0. cbn [app Nat.add].
      rewrite uninitialized_copy_n_spec;
        [|lia|rewrite length_app, length_take, length_drop; lia].
      run. fields. rewrite take_0, drop_0. cbn [app Nat.add].
      eexists _, _. split; [reflexivity|]. unfold elements, well_formed. simpl.
      split_and!; [done..| |lia| |].
      * lengths.
      * intros [?|[?|Hempty]]; [lia..|]. rewrite Hempty, Nat.sub_0_r.
        apply take_app_length'. rewrite length_take. lia.
      * intros Hpos _.
        rewrite lookup_app_r by (rewrite length_take; lia).
        rewrite lookup_drop, lookup_app_r by (rewrite !length_take; lia).
        rewrite lookup_drop. f_equal. rewrite !length_take. lia.
    + run. fields. pointers.
      rewrite Nat.min_r by lia. rewrite take_0, drop_0. cbn [app Nat.add].
      rewrite destroy_n_spec by (rewrite length_app, length_take, length_drop; lia).
      run. eexists _, _. split; [reflexivity|]. unfold elements, well_formed. simpl.
      split_and!; [done..| |lia| |lia].
      * lengths.
      * intros _. rewrite (take_app_length' (take _ _)) by lengths.
        apply take_app_length'. lengths.
Qed.

Lemma Swap_spec (a b : Vector T) :
  Vector.Swap (a, b)
  = Returns tt
      (mkVector (mkRawMemory (address_ (data_ b)) (buffer_ (data_ b))
                   (capacity_ (data_ b))) (size_ b),
       mkVector (mkRawMemory (address_ (data_ a)) (buffer_ (data_ a))
                   (capacity_ (data_ a))) (size_ a))
      [].
Proof. reflexivity. Qed.

(** ** The calls that return *)

(** A call of [Emplace] or [Erase] that returns was given a position of
    the vector. *)
Lemma Emplace_returns pos x v a v' tr :
  Vector.Emplace pos x v = Returns a v' tr →
  ∃ index, pos = Vector.begin v + index ∧ index ≤ size_ v.
Proof.
  intros Hrun.
  destruct (decide (Vector.begin v ≤ pos ∧ pos ≤ Vector.end_ v)) as [Hpos|Hpos].
  - exists (pos - Vector.begin v). unfold Vector.end_, Vector.begin in *. lia.
  - unfold Vector.Emplace in Hrun. run in Hrun.
    rewrite bool_decide_false in Hrun by done. done.
Qed.

Lemma Erase_returns pos v a v' tr :
  Vector.Erase pos v = Returns a v' tr →
  ∃ i, pos = Vector.begin v + i ∧ i < size_ v.
Proof.
  intros Hrun.
  destruct (decide (Vector.begin v ≤ pos ∧ pos < Vector.end_ v)) as [Hpos|Hpos].
  - exists (pos - Vector.begin v). unfold Vector.end_, Vector.begin in *. lia.
  - unfold Vector.Erase in Hrun. run in Hrun.
    rewrite bool_decide_false in Hrun by done. done.
Qed.

End vector_lemmas.

(** ** The requests of the LP64 machine used in examples *)

Lemma refused_count_refused : refused (machine := lp64) Z refused_count.
Proof.
  unfold refused, size_t, refused_count.
  cbn [SIZE_MAX max_request lp64 sizeof int_Element].
  rewrite N2Nat.id. by vm_compute.
Qed.

Lemma wrapping_count_wraps :
  size_t (machine := lp64) (N.of_nat wrapping_count * N.pos (sizeof (T:=Z))) = 0%N.
Proof.
  unfold size_t, wrapping_count. cbn [SIZE_MAX lp64 sizeof int_Element].
  rewrite N2Nat.id. by vm_compute.
Qed.

(** * The claims of the specification *)

(** C1, at a vector of one [int] in a block of four slots that is assigned
    [5, 6, 7].  The right-hand side fits the capacity; the first element is
    assigned; then the two elements of the tail are constructed from the
    start of both arrays, in the slots 0 and 1, instead of behind the old
    size, in the slots 1 and 2.  The slot 2 is left without an object, and the
    vector, of size 3, does not hold [5, 6, 7]. *)
Theorem copy_assign_leaves_tail_unconstructed :
  size_ five_six_seven ≤ Vector.Capacity short_with_room
  ∧ invariant short_with_room ∧ invariant five_six_seven
  ∧ ∃ a',
      Vector.copy_assign (Other five_six_seven) short_with_room
      = Returns tt a' [CopyAssign 0; CopyConstruct 0; CopyConstruct 1]
      ∧ size_ a' = size_ five_six_seven
      ∧ elements a' = [Some 5; Some 6; None]%Z
      ∧ elements five_six_seven = [Some 5; Some 6; Some 7]%Z
      ∧ elements a' ≠ elements five_six_seven.
Proof.
  split; [vm_compute; lia|]. split; [by apply (bool_decide_unpack _)|].
  split; [by apply (bool_decide_unpack _)|].
  eexists. split; [vm_compute; reflexivity|]. by split_and!.
Qed.

(** C2. The scenario on a vector of [int]: three [PushBack] on an empty
    vector give size 3, capacity 4 and [1, 2, 3]; [Insert] of 9 at position 1
    gives [1, 9, 2, 3] and size 4; [Erase] at position 0 gives [9, 2, 3] and
    size 3; [Resize(1)] gives [9], size 1 and still capacity 4. *)
Theorem scenario_push_insert_erase_resize :
  ∃ v1 v2 v3 v4 tr1 tr2 tr3 tr4,
    (Vector.PushBack 1%Z ;; Vector.PushBack 2%Z ;; Vector.PushBack 3%Z) Vector.default
    = Returns tt v1 tr1
    ∧ Vector.Size v1 = 3 ∧ Vector.Capacity v1 = 4
    ∧ elements v1 = [Some 1; Some 2; Some 3]%Z
    ∧ Vector.Insert (Vector.begin v1 + 1) 9%Z v1 = Returns (Vector.begin v2 + 1) v2 tr2
    ∧ elements v2 = [Some 1; Some 9; Some 2; Some 3]%Z
    ∧ Vector.Size v2 = 4
    ∧ Vector.Erase (Vector.begin v2 + 0) v2 = Returns (Vector.begin v3 + 0) v3 tr3
    ∧ elements v3 = [Some 9; Some 2; Some 3]%Z
    ∧ Vector.Size v3 = 3
    ∧ Vector.Resize 1 v3 = Returns tt v4 tr4
    ∧ elements v4 = [Some 9%Z]
    ∧ Vector.Size v4 = 1 ∧ Vector.Capacity v4 = 4.
Proof.
  eexists _, _, _, _, _, _, _, _.
  split; [evaluate|].
  do 3 (split; [reflexivity|]).
  split; [evaluate|].
  do 2 (split; [reflexivity|]).
  split; [evaluate|].
  do 2 (split; [reflexivity|]).
  split; [evaluate|].
  by split_and!.
Qed.

(** C3. Doubling growth: [K >= 1] consecutive [PushBack] on a
    default-constructed vector return and leave size [K] and the capacity
    [2 ^ log2_up K], which is at least [K] and the least power of two that
    is; and a reallocating insertion takes the capacity to 1 from 0 and to
    its double otherwise. *)
Theorem doubling_growth {T : Type} `{!Element T} (xs : list T) :
  1 ≤ length xs →
  (∃ v tr,
     PushBack_all xs Vector.default = Returns tt v tr
     ∧ Vector.Size v = length xs
     ∧ Vector.Capacity v = 2 ^ Nat.log2_up (length xs)
     ∧ length xs ≤ Vector.Capacity v
     ∧ (∀ j, length xs ≤ 2 ^ j → Vector.Capacity v ≤ 2 ^ j)
     ∧ elements v = Some <$> xs)
  ∧ (∀ (w : Vector T) index x,
       well_formed w → size_ w = Vector.Capacity w → index ≤ size_ w →
       ∃ w' tr,
         Vector.EmplaceWithReallocation index x w = Returns tt w' tr
         ∧ Vector.Capacity w'
           = if decide (Vector.Capacity w = 0) then 1 else Vector.Capacity w * 2).
Proof.
  intros HK. split; [|apply EmplaceWithReallocation_capacity].
  destruct (PushBack_all_spec xs Vector.default)
    as (v & tr & Hrun & Hsize & Hcap & Helems & _).
  { split; simpl; lia. }
  { by left. }
  { destruct xs; [simpl in HK; lia|done]. }
  simpl in Hsize, Hcap, Helems.
  exists v, tr. unfold Vector.Size. rewrite Hcap. split_and!; [done..| | |done].
  - destruct (decide (length xs = 1)) as [->|]; [done|].
    apply Nat.log2_up_spec. lia.
  - intros j Hj. apply Nat.pow_le_mono_r; [done|].
    apply Nat.log2_up_le_pow2; [lia|done].
Qed.

(** Five insertions at the end: size 5, capacity 8. *)
Lemma doubling_growth_five :
  1 ≤ length [1; 2; 3; 4; 5]%Z
  ∧ ∃ v tr,
      PushBack_all [1; 2; 3; 4; 5]%Z Vector.default = Returns tt v tr
      ∧ Vector.Size v = 5 ∧ Vector.Capacity v = 8.
Proof.
  assert (1 ≤ length [1; 2; 3; 4; 5]%Z) as HK by (simpl; lia).
  split; [exact HK|].
  destruct (doubling_growth [1; 2; 3; 4; 5]%Z HK)
    as [(v & tr & Hrun & Hsize & Hcap & _) _].
  exists v, tr. split_and!; [exact Hrun|exact Hsize|exact Hcap].
Defined.

(** C4, at the vector ["a", "b"] of [std::string] and [Erase(begin())] on
    the LP64 machine.  What the claim says of [Erase], that it leaves the
    vector without the element of the position, is what the method is for,
    and the code does not do it: it destroys the element at the position
    first and then move-assigns the next element to the destroyed object.
    Where the assignment needs an object to assign to, as that of
    [std::string] does, this is undefined behaviour, and so is the call. *)
Theorem Erase_of_strings_undefined :
  invariant a_b
  ∧ 0 + 1 < size_ a_b
  ∧ std.destroy_at 0 (buffer_ (data_ a_b))
    = Returns tt [None; Some "b"%string] [Destroy 0]
  ∧ std.move_assign (machine := lp64) 0 1 [None; Some "b"%string] = Undefined
  ∧ Vector.Erase (machine := lp64) (Vector.begin a_b + 0) a_b = Undefined.
Proof.
  split; [by apply (bool_decide_unpack _)|].
  split; [simpl; lia|].
  split_and!; vm_compute; reflexivity.
Qed.

(** C5. Checked access: [At(index)] throws [std::out_of_range] exactly when
    [index >= Size()], and a throwing [At] leaves the vector as it was; so
    [At(Size())] throws.  With [index < Size()], [At(index)] returns a
    reference to the slot [index], the one of the element of that index,
    which is a live object on a vector that satisfies the class invariant;
    so [At(Size() - 1)] returns on a non-empty vector. *)
Theorem At_checked {T : Type} `{!Element T} (v : Vector T) (index : nat) :
  ((∃ v' tr, Vector.At index v = Throws out_of_range v' tr) ↔ size_ v ≤ index)
  ∧ (∀ e v' tr, Vector.At index v = Throws e v' tr → v' = v)
  ∧ Vector.At (size_ v) v = Throws out_of_range v []
  ∧ (well_formed v → index < size_ v →
     Vector.At index v = Returns index v []
     ∧ buffer_ (data_ v) !! index = elements v !! index)
  ∧ (invariant v → index < size_ v →
     ∃ x, Vector.At index v = Returns index v []
          ∧ buffer_ (data_ v) !! index = Some (Some x))
  ∧ (well_formed v → 0 < size_ v →
     Vector.At (size_ v - 1) v = Returns (size_ v - 1) v []
     ∧ buffer_ (data_ v) !! (size_ v - 1) = last (elements v)).
Proof.
  assert (∀ i, size_ v ≤ i → Vector.At i v = Throws out_of_range v []) as Hthrows.
  { intros i Hi. unfold Vector.At. run. by rewrite decide_True. }
  assert (∀ i, well_formed v → i < size_ v →
            Vector.At i v = Returns i v []
            ∧ buffer_ (data_ v) !! i = elements v !! i) as Hreturns.
  { intros i [Hlen Hsize] Hi. split.
    - unfold Vector.At. run. rewrite decide_False by lia. run.
      fields. rewrite index_ok by lia. by destruct v as [[] ?].
    - unfold elements. by rewrite lookup_take_lt. }
  split_and!.
  - split.
    + intros (v' & tr & Hrun). destruct (decide (size_ v ≤ index)) as [|Hlt]; [done|].
      unfold Vector.At in Hrun. run in Hrun. rewrite decide_False in Hrun by done.
      run in Hrun. unfold RawMemory.index in Hrun. run in Hrun.
      by destruct (bool_decide _).
    + intros Hge. exists v, []. by apply Hthrows.
  - intros e v' tr Hrun. unfold Vector.At in Hrun. run in Hrun.
    case_decide; [by injection Hrun as _ <- _|].
    run in Hrun. unfold RawMemory.index in Hrun. run in Hrun.
    by destruct (bool_decide _).
  - by apply Hthrows.
  - apply Hreturns.
  - intros [Hwf Hlive] Hi. destruct (Hreturns index Hwf Hi) as [Hrun Hslot].
    destruct (lookup_lt_is_Some_2 (elements v) index) as [s Hs].
    { destruct Hwf. unfold elements. lengths. }
    destruct (Forall_lookup_1 _ _ _ _ Hlive Hs) as [x ->].
    exists x. split; [done|]. by rewrite Hslot.
  - intros Hwf Hpos. destruct (Hreturns (size_ v - 1) Hwf) as [Hrun Hslot]; [lia|].
    split; [done|]. rewrite Hslot, last_lookup. f_equal.
    destruct Hwf. unfold elements. lengths.
Qed.

(** [At(1)] and [At(3)] on [1, 2, 3]. *)
Lemma At_checked_one_two_three :
  invariant one_two_three ∧ 1 < size_ one_two_three
  ∧ (∃ x, Vector.At 1 one_two_three = Returns 1 one_two_three []
          ∧ buffer_ (data_ one_two_three) !! 1 = Some (Some x))
  ∧ Vector.At 3 one_two_three = Throws out_of_range one_two_three [].
Proof.
  assert (invariant one_two_three) as Hinv.
  { split; [split; simpl; lia|]. unfold elements. simpl.
    repeat constructor; eexists; reflexivity. }
  assert (1 < size_ one_two_three) as Hi by (simpl; lia).
  split; [exact Hinv|]. split; [exact Hi|].
  destruct (At_checked one_two_three 1) as (_ & _ & Hthrows & _ & Hreturns & _).
  split; [|exact Hthrows].
  destruct (Hreturns Hinv Hi) as (x & Hrun & Hx).
  exists x. split; [exact Hrun|exact Hx].
Defined.

(** C6, as the code has it.  [Reserve(new_capacity)] changes nothing when
    [new_capacity] is at most the capacity.  Otherwise it asks for a block of
    [new_capacity] objects.  When the machine can satisfy the request, it
    transfers the elements, in order, into the new block, of exactly
    [new_capacity] slots, which has no slot in common with the old one and
    begins elsewhere, and destroys the old elements: the capacity becomes
    [new_capacity], the size and the elements stay, and so does the class
    invariant.  When the allocation function refuses the request, [Reserve]
    throws [std::bad_alloc] and leaves the vector as it was. *)
Theorem Reserve_capacity {T : Type} `{!Element T} {machine : Machine}
    (v : Vector T) (new_capacity : nat) :
  well_formed v →
  (new_capacity ≤ Vector.Capacity v → Vector.Reserve new_capacity v = Returns tt v [])
  ∧ (Vector.Capacity v < new_capacity → allocatable T new_capacity →
     ∃ v',
       Vector.Reserve new_capacity v
       = Returns tt v'
           ((transfer <$> seq 0 (size_ v)) ++ (Destroy <$> seq 0 (size_ v)))
       ∧ Vector.Capacity v' = new_capacity
       ∧ length (buffer_ (data_ v')) = new_capacity
       ∧ apart (data_ v) (data_ v')
       ∧ Vector.begin v' ≠ Vector.begin v
       ∧ size_ v' = size_ v
       ∧ elements v' = elements v
       ∧ well_formed v'
       ∧ (invariant v → invariant v'))
  ∧ (Vector.Capacity v < new_capacity → refused T new_capacity →
     Vector.Reserve new_capacity v = Throws bad_alloc v []).
Proof.
  intros Hwf. split_and!.
  - apply Reserve_within.
  - intros Hlt Halloc. eexists. split; [by apply Reserve_allocates|].
    destruct Hwf as [Hlen Hsize]. unfold Vector.Capacity, RawMemory.Capacity in Hlt.
    assert (length (elements v) = size_ v) as Helems by (unfold elements; lengths).
    assert (length (elements v ++ replicate (new_capacity - size_ v) None)
            = new_capacity) as Hblock
      by (rewrite length_app, length_replicate, Helems; lia).
    assert (elements
              (mkVector
                 (mkRawMemory (fresh [RawMemory.extent (data_ v)])
                    (elements v ++ replicate (new_capacity - size_ v) None)
                    new_capacity)
                 (size_ v))
            = elements v) as Hsame
      by (unfold elements at 1; simpl; by apply take_app_length').
    assert (well_formed
              (mkVector
                 (mkRawMemory (fresh [RawMemory.extent (data_ v)])
                    (elements v ++ replicate (new_capacity - size_ v) None)
                    new_capacity)
                 (size_ v))) as Hwf'
      by (split; simpl; [done|lia]).
    split_and!; [done|done| | |done|done|done|].
    + left. unfold fresh. simpl. lia.
    + pointers. unfold fresh. simpl. lia.
    + intros [_ Hlive]. split; [done|]. by rewrite Hsame.
  - apply Reserve_refuses.
Qed.

(** [Reserve(6)] and [Reserve(2^62 - 1)] on [1, 2, 3] with capacity 4, on
    the LP64 machine. *)
Lemma Reserve_capacity_six :
  well_formed one_two_three ∧ Vector.Capacity one_two_three < 6
  ∧ allocatable (machine := lp64) Z 6
  ∧ (∃ v',
       Vector.Reserve (machine := lp64) 6 one_two_three
       = Returns tt v'
           [MoveConstruct 0; MoveConstruct 1; MoveConstruct 2;
            Destroy 0; Destroy 1; Destroy 2]
       ∧ Vector.Capacity v' = 6
       ∧ size_ v' = 3
       ∧ elements v' = [Some 1; Some 2; Some 3]%Z)
  ∧ Vector.Capacity one_two_three < refused_count
  ∧ refused (machine := lp64) Z refused_count
  ∧ Vector.Reserve (machine := lp64) refused_count one_two_three
    = Throws bad_alloc one_two_three [].
Proof.
  assert (well_formed one_two_three) as Hwf by (split; simpl; lia).
  assert (Vector.Capacity one_two_three < 6) as Hlt by (vm_compute; lia).
  assert (allocatable (machine := lp64) Z 6) as Halloc
    by (unfold allocatable, representable; simpl; lia).
  assert (Vector.Capacity one_two_three < refused_count) as Hmany.
  { unfold Vector.Capacity, RawMemory.Capacity, one_two_three, refused_count.
    cbn [data_ capacity_]. lia. }
  pose proof refused_count_refused as Hrefused.
  split; [exact Hwf|]. split; [exact Hlt|]. split; [exact Halloc|].
  split.
  - destruct (Reserve_capacity (machine := lp64) one_two_three 6 Hwf)
      as (_ & Hgrows & _).
    destruct (Hgrows Hlt Halloc)
      as (v' & Hrun & Hcap & _ & _ & _ & Hsize & Helems & _).
    exists v'. split_and!; [exact Hrun|exact Hcap|exact Hsize|exact Helems].
  - split; [exact Hmany|]. split; [exact Hrefused|].
    destruct (Reserve_capacity (machine := lp64) one_two_three refused_count Hwf)
      as (_ & _ & Hthrows).
    exact (Hthrows Hmany Hrefused).
Defined.

(** C6 as stated fails on the LP64 machine at [Reserve(2^62 - 1)] on the
    vector [1, 2, 3] of [int]: the request, of [2^64 - 4] bytes, is more than
    the allocation function grants, the call throws [std::bad_alloc], and the
    capacity is not the one asked for. *)
Lemma Reserve_refused_is_not_new_capacity :
  well_formed one_two_three
  ∧ Vector.Capacity one_two_three < refused_count
  ∧ Vector.Reserve (machine := lp64) refused_count one_two_three
    = Throws bad_alloc one_two_three []
  ∧ ¬ ∃ v' tr,
        Vector.Reserve (machine := lp64) refused_count one_two_three
        = Returns tt v' tr
        ∧ Vector.Capacity v' = refused_count
        ∧ size_ v' = size_ one_two_three
        ∧ elements v' = elements one_two_three.
Proof.
  assert (Vector.Capacity one_two_three < refused_count) as Hlt.
  { unfold Vector.Capacity, RawMemory.Capacity, one_two_three, refused_count.
    cbn [data_ capacity_]. lia. }
  assert (Vector.Reserve (machine := lp64) refused_count one_two_three
          = Throws bad_alloc one_two_three []) as Hthrows.
  { apply Reserve_refuses; [exact Hlt|]. apply refused_count_refused. }
  split; [split; simpl; lia|]. split; [exact Hlt|]. split; [exact Hthrows|].
  intros (v' & tr & Hrun & _). rewrite Hthrows in Hrun. discriminate.
Qed.

(** C7. Move construction returns for every vector, with no element
    operation at all: the new vector has the block, the size and the
    capacity, hence the elements, that the source had, and the source is left
    with no block, size 0 and capacity 0. *)
Theorem move_ctor_takes_over {T : Type} `{!Element T} (v : Vector T) :
  ∃ v' other',
    Vector.move_ctor v = Returns v' other' []
    ∧ data_ v' = data_ v
    ∧ elements v' = elements v
    ∧ Vector.Size v' = Vector.Size v
    ∧ Vector.Capacity v' = Vector.Capacity v
    ∧ Vector.Size other' = 0
    ∧ Vector.Capacity other' = 0
    ∧ buffer_ (data_ other') = []
    ∧ elements other' = [].
Proof. destruct v as [[addr b cap] size]. by eexists _, _. Qed.

(** C8, at the program [grow_by_assignment]: it runs to its end, and the
    vector [a] that it leaves has size 3 within capacity 4, but no object in
    its slot 2: the class invariant does not hold of a vector that a
    sequence of public operations reaches. *)
Theorem reachable_vector_with_unconstructed_slot :
  ∃ (h : gmap nat (Vector Z)) a tr,
    Program.exec_all grow_by_assignment ∅ = Returns tt h tr
    ∧ Program.reachable h
    ∧ h !! 0 = Some a
    ∧ size_ a = 3 ∧ Vector.Capacity a = 4
    ∧ buffer_ (data_ a) = [Some 5; Some 6; None; None]%Z
    ∧ well_formed a
    ∧ ¬ Forall is_Some (elements a)
    ∧ ¬ invariant a.
Proof.
  eexists _, _, _. split; [vm_compute; reflexivity|].
  split.
  { eapply (exec_all_reachable grow_by_assignment ∅);
      [apply Program.reachable_empty|vm_compute; reflexivity]. }
  split; [vm_compute; reflexivity|].
  split_and!; try done.
  - split; simpl; lia.
  - by apply (bool_decide_unpack _).
  - by apply (bool_decide_unpack _).
Qed.

(** C9. Copy assignment of a vector to itself, [a = a], performs no
    element operation and leaves the vector, and the whole program state,
    as it was. *)
Theorem copy_assign_self {T : Type} `{!Element T}
    (h : gmap nat (Vector T)) (a : nat) (v : Vector T) :
  h !! a = Some v →
  Vector.copy_assign Self v = Returns tt v []
  ∧ Program.exec (Program.Assign a a) h = Returns tt h [].
Proof.
  intros Hv.
  assert (Vector.copy_assign Self v = Returns tt v []) as Hself
    by by destruct v as [[addr b cap] size].
  split; [done|].
  cbn [Program.exec]. rewrite decide_True by done.
  unfold Program.on. rewrite Hv, Hself. by rewrite insert_id.
Qed.

(** [a = a] in a program whose only object is [a], holding [1, 2, 3]. *)
Lemma copy_assign_self_one_two_three :
  ({[0 := one_two_three]} : gmap nat (Vector Z)) !! 0 = Some one_two_three
  ∧ Vector.copy_assign Self one_two_three = Returns tt one_two_three []
  ∧ Program.exec (Program.Assign 0 0) ({[0 := one_two_three]} : gmap nat (Vector Z))
    = Returns tt {[0 := one_two_three]} [].
Proof.
  assert (({[0 := one_two_three]} : gmap nat (Vector Z)) !! 0 = Some one_two_three)
    as Hv by reflexivity.
  split; [exact Hv|].
  exact (copy_assign_self {[0 := one_two_three]} 0 one_two_three Hv).
Defined.

(** C10. [Emplace] and [Insert] at [begin() + index], [index <= Size()],
    return the iterator [begin() + index] of the array that the vector has
    after the call: it points into that array, at the inserted value.  The
    array is the one the vector had when there was room, and a new one, with
    no slot in common with the old one and at another address, when the
    vector was full: then the iterator returned is not the position
    passed.  [EmplaceBack] returns a reference to the last
    element of the vector after the call, which is the inserted value. *)
Theorem insertion_results {T : Type} `{!Element T}
    (v : Vector T) (index : nat) (x : T) :
  well_formed v → index ≤ size_ v →
  (∃ p v' tr,
     Vector.Emplace (Vector.begin v + index) x v = Returns p v' tr
     ∧ Vector.Insert (Vector.begin v + index) x v = Returns p v' tr
     ∧ p = Vector.begin v' + index
     ∧ Vector.begin v' ≤ p < Vector.end_ v'
     ∧ buffer_ (data_ v') !! Vector.offset v' p = Some (Some x)
     ∧ elements v' !! index = Some (Some x)
     ∧ (size_ v < Vector.Capacity v → Vector.begin v' = Vector.begin v)
     ∧ (size_ v = Vector.Capacity v →
        apart (data_ v) (data_ v')
        ∧ Vector.begin v' ≠ Vector.begin v
        ∧ p ≠ Vector.begin v + index))
  ∧ (∃ r v' tr,
       Vector.EmplaceBack x v = Returns r v' tr
       ∧ r = size_ v' - 1
       ∧ size_ v' = S (size_ v)
       ∧ buffer_ (data_ v') !! r = Some (Some x)
       ∧ last (elements v') = Some (Some x)).
Proof.
  intros Hwf Hindex. split.
  - destruct (Emplace_run v index x Hwf Hindex)
      as (v' & tr & Hrun & Hsize & _ & Helems & _ & Hbegin).
    assert (elements v' !! index = Some (Some x)) as Hx.
    { rewrite Helems. apply list_lookup_middle.
      destruct Hwf. unfold elements. lengths. }
    exists (Vector.begin v' + index), v', tr.
    split_and!; [done|done|done|lia|unfold Vector.end_, Vector.begin; lia
                 | |done| |].
    + rewrite <-Hx. unfold elements. rewrite lookup_take_lt by lia.
      f_equal. pointers. lia.
    + intros Hspare. rewrite Hbegin. by rewrite decide_False by lia.
    + intros Hfull. rewrite decide_True in Hbegin by done.
      unfold fresh, Vector.begin, Vector.Capacity, RawMemory.Capacity,
        RawMemory.extent, RawMemory.GetAddress in *.
      simpl in Hbegin. split_and!; [left|..]; lia.
  - destruct (EmplaceBack_spec v x Hwf)
      as (v' & tr & Hrun & Hsize & _ & Helems & Hlen' & Hsize').
    assert (last (elements v') = Some (Some x)) as Hx
      by by rewrite Helems, last_snoc.
    exists (size_ v' - 1), v', tr. split_and!; [done..| |done].
    rewrite <-Hx, last_lookup. unfold elements.
    rewrite length_take, lookup_take_lt by lia. f_equal. lia.
Qed.

(** [Insert(begin() + 1, 9)] on [1, 2, 3], which has room, and on the full
    vector [1, 2], and [EmplaceBack(9)] on [1, 2, 3]. *)
Lemma insertion_results_one_two_three :
  well_formed one_two_three ∧ 1 ≤ size_ one_two_three
  ∧ well_formed one_two ∧ 1 ≤ size_ one_two
  ∧ (∃ p v' tr,
       Vector.Insert (Vector.begin one_two_three + 1) 9%Z one_two_three
       = Returns p v' tr
       ∧ p = Vector.begin v' + 1
       ∧ buffer_ (data_ v') !! Vector.offset v' p = Some (Some 9%Z)
       ∧ Vector.begin v' = Vector.begin one_two_three)
  ∧ (∃ p v' tr,
       Vector.Insert (Vector.begin one_two + 1) 9%Z one_two = Returns p v' tr
       ∧ p = Vector.begin v' + 1
       ∧ buffer_ (data_ v') !! Vector.offset v' p = Some (Some 9%Z)
       ∧ Vector.begin v' ≠ Vector.begin one_two
       ∧ p ≠ Vector.begin one_two + 1)
  ∧ (∃ r v' tr,
       Vector.EmplaceBack 9%Z one_two_three = Returns r v' tr
       ∧ r = size_ v' - 1
       ∧ last (elements v') = Some (Some 9%Z)).
Proof.
  assert (well_formed one_two_three) as Hwf by (split; simpl; lia).
  assert (1 ≤ size_ one_two_three) as Hindex by (simpl; lia).
  assert (size_ one_two_three < Vector.Capacity one_two_three) as Hspare
    by (vm_compute; lia).
  assert (well_formed one_two) as Hwf2 by (split; simpl; lia).
  assert (1 ≤ size_ one_two) as Hindex2 by (simpl; lia).
  assert (size_ one_two = Vector.Capacity one_two) as Hfull by reflexivity.
  split; [exact Hwf|]. split; [exact Hindex|].
  split; [exact Hwf2|]. split; [exact Hindex2|].
  destruct (insertion_results one_two_three 1 9%Z Hwf Hindex)
    as [(p & v' & tr & _ & Hrun & Hp & _ & Hx & _ & Hsame & _)
        (r & w' & tr' & Hrun' & Hr & _ & _ & Hx')].
  destruct (insertion_results one_two 1 9%Z Hwf2 Hindex2)
    as [(p2 & v2 & tr2 & _ & Hrun2 & Hp2 & _ & Hx2 & _ & _ & Hnew) _].
  destruct (Hnew Hfull) as (_ & Hmoved & Hother).
  split_and!.
  - exists p, v', tr. split_and!; [exact Hrun|exact Hp|exact Hx|exact (Hsame Hspare)].
  - exists p2, v2, tr2.
    split_and!; [exact Hrun2|exact Hp2|exact Hx2|exact Hmoved|exact Hother].
  - exists r, w', tr'. split_and!; [exact Hrun'|exact Hr|exact Hx'].
Defined.

(** * Further properties of the code *)

(** ** The paths of the methods, on whole blocks *)

Section further_lemmas.
Context {T : Type} `{!Element T}.
Implicit Types (v rhs : Vector T).

Lemma eta v :
  mkVector (mkRawMemory (address_ (data_ v)) (buffer_ (data_ v))
              (capacity_ (data_ v))) (size_ v) = v.
Proof. by destruct v as [[] ?]. Qed.

Lemma copy_assign_reallocating v rhs :
  well_formed v → well_formed rhs → Vector.Capacity v < size_ rhs →
  Vector.copy_assign (Other rhs) v
  = Returns tt
      (mkVector
         (mkRawMemory
            (fresh [RawMemory.extent (data_ rhs); RawMemory.extent (data_ v)])
            (elements rhs) (size_ rhs))
         (size_ rhs))
      ((CopyConstruct <$> seq 0 (size_ rhs)) ++ (Destroy <$> seq 0 (size_ v))).
Proof.
  destruct v as [[addr b cap] size]. intros Hwf Hwfr Hcap.
  unfold Vector.copy_assign, Vector.Capacity in *. run.
  rewrite decide_True by done. run. rewrite copy_ctor_spec by done.
  rewrite decide_True by (unfold RawMemory.Capacity in Hcap; simpl in Hcap; lia).
  run. fields.
  unfold Vector.Swap, RawMemory.Swap. run. fields.
  unfold Vector.destroy_local. rewrite dtor_spec by done. run.
  by rewrite !app_nil_r.
Qed.

Lemma copy_assign_shrinking v rhs :
  well_formed v → well_formed rhs → size_ rhs ≤ size_ v →
  Vector.copy_assign (Other rhs) v
  = Returns tt
      (mkVector
         (mkRawMemory (address_ (data_ v))
            (elements rhs ++ replicate (size_ v - size_ rhs) None
               ++ drop (size_ v) (buffer_ (data_ v)))
            (capacity_ (data_ v)))
         (size_ rhs))
      ((CopyAssign <$> seq 0 (size_ rhs))
       ++ (Destroy <$> seq (size_ rhs) (size_ v - size_ rhs))).
Proof.
  intros [Hlen Hsize] [Hlenr Hsizer] Hle.
  unfold Vector.copy_assign, Vector.Capacity, RawMemory.Capacity. run.
  rewrite decide_False by lia. run. fields. pointers.
  rewrite (copy_n_spec store_ideal) by lia. run. fields.
  rewrite decide_False by lia. run. fields. pointers.
  rewrite Nat.min_r by lia. rewrite take_0, drop_0. cbn [app Nat.add].
  rewrite destroy_n_spec by lengths. run. rewrite !app_nil_r.
  unfold set_size, elements. cbn [data_ size_].
  rewrite (take_app_length' (take _ _)) by lengths.
  rewrite drop_app_ge by lengths. rewrite drop_drop.
  do 6 f_equal. lengths.
Qed.

Lemma copy_assign_growing v rhs :
  well_formed v → well_formed rhs →
  size_ v < size_ rhs → size_ rhs ≤ Vector.Capacity v →
  Vector.copy_assign (Other rhs) v
  = Returns tt
      (mkVector
         (mkRawMemory (address_ (data_ v))
            (take (size_ rhs - size_ v) (buffer_ (data_ rhs))
               ++ drop (size_ rhs - size_ v)
                    (take (size_ v) (buffer_ (data_ rhs))
                       ++ drop (size_ v) (buffer_ (data_ v))))
            (capacity_ (data_ v)))
         (size_ rhs))
      ((CopyAssign <$> seq 0 (size_ v))
       ++ (CopyConstruct <$> seq 0 (size_ rhs - size_ v))).
Proof.
  intros [Hlen Hsize] [Hlenr Hsizer] Hlt Hcap.
  unfold Vector.copy_assign, Vector.Capacity, RawMemory.Capacity in *. run.
  rewrite decide_False by lia. run. fields. pointers.
  rewrite (copy_n_spec store_ideal) by lia. run. fields.
  rewrite decide_True by lia. run. fields. pointers.
  rewrite Nat.min_l by lia. rewrite take_0, drop_0. cbn [app Nat.add].
  rewrite uninitialized_copy_n_spec; [|lia|lengths].
  run. fields. rewrite take_0, drop_0. cbn [app Nat.add].
  by rewrite !app_nil_r.
Qed.

Lemma EmplaceWithReallocation_full v index x :
  well_formed v → size_ v = Vector.Capacity v → index ≤ size_ v →
  Vector.EmplaceWithReallocation index x v
  = Returns tt
      (mkVector
         (mkRawMemory (fresh [RawMemory.extent (data_ v)])
            (take index (elements v) ++ Some x :: drop index (elements v)
               ++ replicate (grown (size_ v) - S (size_ v)) None)
            (grown (size_ v)))
         (size_ v))
      (Construct index
       :: (transfer <$> seq 0 index)
       ++ (transfer <$> seq (S index) (size_ v - index))
       ++ (Destroy <$> seq 0 (size_ v))).
Proof.
  destruct v as [[addr b cap] size]. unfold well_formed, elements, Vector.Capacity,
    RawMemory.Capacity. simpl. intros [Hlen _] -> Hindex.
  destruct (block_at b index) as (pre & suf & -> & <-); [lia|].
  rewrite length_app in Hlen. subst cap.
  rewrite EmplaceWithReallocation_spec.
  rewrite (take_ge (pre ++ suf)) by lengths.
  rewrite take_app_length, drop_app_length.
  by replace (length pre + length suf - length pre) with (length suf) by lia.
Qed.

Lemma EmplaceWithoutReallocation_shifts v index x :
  well_formed v → size_ v < Vector.Capacity v → index < size_ v →
  Vector.EmplaceWithoutReallocation index x v
  = Returns tt
      (mkVector
         (mkRawMemory (address_ (data_ v))
            (take index (elements v) ++ Some x :: drop index (elements v)
               ++ drop (S (size_ v)) (buffer_ (data_ v)))
            (capacity_ (data_ v)))
         (size_ v))
      (TempConstruct :: MoveConstruct (size_ v)
       :: (MoveAssign <$> reverse (seq (S index) (size_ v - 1 - index)))
       ++ [MoveAssign index; TempDestroy]).
Proof.
  destruct v as [[addr b cap] size]. unfold well_formed, elements, Vector.Capacity,
    RawMemory.Capacity. simpl. intros [Hlen _] Hspare Hindex.
  destruct (block_around b (size - 1) (S size))
    as (elems & m & one & post & -> & Helems & Hone); [lia..|].
  destruct one as [|free [|]]; [simpl in Hone; lia| |simpl in Hone; lia].
  destruct (block_at elems index) as (pre & mid & -> & <-); [lia|].
  rewrite length_app in Helems.
  replace size with (length pre + S (length mid)) in * by lia.
  rewrite <-app_assoc. cbn [app].
  rewrite !length_app in Hlen. simpl in Hlen.
  rewrite EmplaceWithoutReallocation_mid by lia.
  replace (pre ++ mid ++ m :: free :: post)
    with ((pre ++ mid ++ [m]) ++ free :: post) by by rewrite <-!app_assoc.
  rewrite (take_app_exact (pre ++ mid ++ [m])) by lengths.
  rewrite (take_app_exact pre (mid ++ [m])), drop_app_length by done.
  replace (S (length pre + S (length mid)))
    with (length (pre ++ mid ++ [m]) + 1) by lengths.
  rewrite <-drop_drop, drop_app_length. cbn [drop].
  replace (length pre + S (length mid) - 1 - length pre) with (length mid) by lia.
  by rewrite <-app_assoc.
Qed.

Lemma EmplaceBack_full v x :
  well_formed v → size_ v = Vector.Capacity v →
  Vector.EmplaceBack x v
  = Returns (size_ v)
      (mkVector
         (mkRawMemory (fresh [RawMemory.extent (data_ v)])
            (elements v ++ Some x :: replicate (grown (size_ v) - S (size_ v)) None)
            (grown (size_ v)))
         (S (size_ v)))
      (Construct (size_ v)
       :: (transfer <$> seq 0 (size_ v)) ++ (Destroy <$> seq 0 (size_ v))).
Proof.
  intros Hwf Hfull. pose proof Hwf as [Hlen Hsize].
  unfold Vector.EmplaceBack, Vector.Emplace. run. pointers.
  rewrite assert_true by lia. run. rewrite decide_True by done. run.
  rewrite EmplaceWithReallocation_full by done. run. fields. pointers.
  cbn [seq fmap list_fmap app].
  assert (length (elements v) = size_ v) as Hl by (unfold elements; lengths).
  rewrite take_ge, drop_ge by lia. cbn [app Nat.add].
  by rewrite !app_nil_r, Nat.add_1_r.
Qed.

Lemma EmplaceBack_spare v x :
  well_formed v → size_ v < Vector.Capacity v →
  Vector.EmplaceBack x v
  = Returns (size_ v)
      (mkVector
         (mkRawMemory (address_ (data_ v))
            (elements v ++ Some x :: drop (S (size_ v)) (buffer_ (data_ v)))
            (capacity_ (data_ v)))
         (S (size_ v)))
      [Construct (size_ v)].
Proof.
  destruct v as [[addr b cap] size]. unfold well_formed, elements, Vector.Capacity,
    RawMemory.Capacity. simpl. intros [Hlen _] Hspare.
  destruct (block_around b size (S size)) as (elems & free & mid & post & -> & <- & Hnil);
    [lia..|].
  destruct mid; [clear Hnil|simpl in Hnil; lia]. cbn [app] in *.
  unfold Vector.EmplaceBack, Vector.Emplace, Vector.Capacity, RawMemory.Capacity.
  run. fields. pointers. rewrite assert_true by lia. run. fields.
  rewrite decide_False by lia. run.
  rewrite length_app in Hlen. simpl in Hlen.
  rewrite EmplaceWithoutReallocation_end by lia. run. fields. pointers.
  rewrite take_app_length.
  replace (S (length elems)) with (length (elems ++ [free])) by lengths.
  rewrite (snoc_app elems free post), drop_app_length.
  by rewrite Nat.add_1_r, length_app, Nat.add_1_r.
Qed.

Lemma transfers_app tr1 tr2 : transfers (tr1 ++ tr2) = transfers tr1 + transfers tr2.
Proof. unfold transfers. by rewrite List.filter_app, length_app. Qed.

Lemma transfers_transfer (l : list nat) : transfers (transfer <$> l) = length l.
Proof.
  unfold transfers, transfer. induction l as [|i l IH]; [done|].
  cbn. destruct moves; cbn; by rewrite IH.
Qed.

Lemma transfers_Destroy (l : list nat) : transfers (Destroy <$> l) = 0.
Proof. unfold transfers. by induction l. Qed.

(** One insertion at the end: what it transfers is what the capacity
    grows by, a first block of one slot apart. *)
Lemma PushBack_transfers v x :
  well_formed v →
  ∃ v' tr,
    Vector.PushBack x v = Returns tt v' tr
    ∧ well_formed v'
    ∧ 1 ≤ Vector.Capacity v'
    ∧ Vector.Capacity v ≤ Vector.Capacity v'
    ∧ transfers tr + 1 `max` Vector.Capacity v = Vector.Capacity v'.
Proof.
  intros Hwf. pose proof Hwf as [Hlen Hsize].
  assert (length (elements v) = size_ v) as Hl by (unfold elements; lengths).
  unfold Vector.PushBack. run.
  destruct (decide (size_ v = Vector.Capacity v)) as [Hfull|Hspare].
  - rewrite EmplaceBack_full by done. run. eexists _, _. split; [reflexivity|].
    unfold Vector.Capacity, RawMemory.Capacity in *. rewrite <-Hfull.
    pose proof (grown_gt (size_ v)) as Hgrown.
    split_and!;
      [split; simpl; [rewrite length_app, Hl; cbn [length]; rewrite length_replicate; lia|lia]
      |simpl; lia..|].
    cbn [data_ capacity_]. rewrite app_nil_r. change (Construct (size_ v) :: ?l) with ([Construct (size_ v)] ++ l).
    rewrite !transfers_app, transfers_transfer, transfers_Destroy, length_seq.
    change (transfers [Construct (size_ v)]) with 0.
    unfold grown in *. case_decide; lia.
  - unfold Vector.Capacity, RawMemory.Capacity in *.
    rewrite EmplaceBack_spare
      by first [done|unfold Vector.Capacity, RawMemory.Capacity; lia].
    run. eexists _, _. split; [reflexivity|].
    split_and!; [split; simpl; [rewrite length_app, Hl; cbn [length]; rewrite length_drop; lia|lia]|simpl; lia..|].
    change (transfers [Construct (size_ v)]) with 0. simpl. lia.
Qed.

Lemma PushBack_all_transfers xs : ∀ v,
  well_formed v → xs ≠ [] →
  ∃ v' tr,
    PushBack_all xs v = Returns tt v' tr
    ∧ Vector.Capacity v ≤ Vector.Capacity v'
    ∧ 1 ≤ Vector.Capacity v'
    ∧ transfers tr + 1 `max` Vector.Capacity v = Vector.Capacity v'.
Proof.
  induction xs as [|x xs IH]; intros v Hwf Hne; [done|].
  destruct (PushBack_transfers v x Hwf) as (v1 & tr1 & Hrun1 & Hwf1 & Hpos1 & Hmono1 & Hcount1).
  cbn [PushBack_all]. run. rewrite Hrun1. run.
  destruct xs as [|x' xs].
  - cbn. exists v1, tr1. rewrite app_nil_r. split_and!; [done|lia..].
  - destruct (IH v1 Hwf1) as (v' & tr & Hrun & Hmono & Hpos & Hcount); [done|].
    rewrite Hrun. cbn. exists v', (tr1 ++ tr). split; [done|].
    rewrite transfers_app. lia.
Qed.

(** Insertions at the end of a vector with room for them. *)
Lemma PushBack_all_spare xs : ∀ v,
  well_formed v → size_ v + length xs ≤ Vector.Capacity v →
  PushBack_all xs v
  = Returns tt
      (mkVector
         (mkRawMemory (address_ (data_ v))
            (elements v ++ (Some <$> xs)
               ++ drop (size_ v + length xs) (buffer_ (data_ v)))
            (capacity_ (data_ v)))
         (size_ v + length xs))
      (Construct <$> seq (size_ v) (length xs)).
Proof.
  induction xs as [|x xs IH]; intros v Hwf Hroom.
  - destruct v as [[addr b cap] size]. cbn. unfold elements. simpl.
    by rewrite Nat.add_0_r, take_drop.
  - pose proof Hwf as [Hlen Hsize]. cbn [length] in Hroom.
    unfold Vector.Capacity, RawMemory.Capacity in *.
    assert (length (elements v) = size_ v) as Hl by (unfold elements; lengths).
    cbn [PushBack_all]. unfold Vector.PushBack. run.
    rewrite EmplaceBack_spare
      by first [done|unfold Vector.Capacity, RawMemory.Capacity; lia].
    run. rewrite IH;
      [|split; simpl; [rewrite length_app, Hl; cbn [length]; rewrite length_drop; lia|lia]
       |simpl; unfold Vector.Capacity; simpl; lia].
    run. change (elements (mkVector ?d ?n)) with (take n (buffer_ d)). simpl.
    rewrite (snoc_app (elements v)), take_app_length' by lengths.
    rewrite drop_app_ge by lengths.
    rewrite length_app, Hl. cbn [length].
    cbn [drop]. rewrite drop_drop, <-app_assoc. cbn [app].
    replace (S (size_ v) + (S (size_ v + length xs) - (size_ v + 1)))
      with (size_ v + S (length xs)) by lia.
    by replace (S (size_ v + length xs)) with (size_ v + S (length xs)) by lia.
Qed.

Lemma length_elements v : well_formed v → length (elements v) = size_ v.
Proof. intros [Hlen Hsize]. unfold elements. lengths. Qed.

(** [Emplace] when the block is full, and in front of the end of a block
    with room. *)
Lemma Emplace_full v index x :
  well_formed v → size_ v = Vector.Capacity v → index ≤ size_ v →
  Vector.Emplace (Vector.begin v + index) x v
  = Returns (fresh [RawMemory.extent (data_ v)] + index)
      (mkVector
         (mkRawMemory (fresh [RawMemory.extent (data_ v)])
            (take index (elements v) ++ Some x :: drop index (elements v)
               ++ replicate (grown (size_ v) - S (size_ v)) None)
            (grown (size_ v)))
         (S (size_ v)))
      (Construct index
       :: (transfer <$> seq 0 index)
       ++ (transfer <$> seq (S index) (size_ v - index))
       ++ (Destroy <$> seq 0 (size_ v))).
Proof.
  intros Hwf Hfull Hindex.
  unfold Vector.Emplace. run. pointers.
  rewrite assert_true by lia. run. rewrite decide_True by done. run.
  rewrite EmplaceWithReallocation_full by done. run. fields. pointers.
  by rewrite app_nil_r, Nat.add_1_r.
Qed.

Lemma Emplace_shifts v index x :
  well_formed v → size_ v < Vector.Capacity v → index < size_ v →
  Vector.Emplace (Vector.begin v + index) x v
  = Returns (Vector.begin v + index)
      (mkVector
         (mkRawMemory (address_ (data_ v))
            (take index (elements v) ++ Some x :: drop index (elements v)
               ++ drop (S (size_ v)) (buffer_ (data_ v)))
            (capacity_ (data_ v)))
         (S (size_ v)))
      (TempConstruct :: MoveConstruct (size_ v)
       :: (MoveAssign <$> reverse (seq (S index) (size_ v - 1 - index)))
       ++ [MoveAssign index; TempDestroy]).
Proof.
  intros Hwf Hspare Hindex.
  unfold Vector.Emplace. run. pointers.
  rewrite assert_true by lia. run. rewrite decide_False by lia. run.
  rewrite EmplaceWithoutReallocation_shifts by done. run. fields. pointers.
  by rewrite app_nil_r, Nat.add_1_r.
Qed.

(** A call of [PopBack] on an empty vector does not return. *)
Lemma PopBack_returns v a v' tr :
  Vector.PopBack v = Returns a v' tr → 0 < size_ v.
Proof.
  intros Hrun. destruct (decide (0 < size_ v)) as [|Hpos]; [done|].
  unfold Vector.PopBack in Hrun. run in Hrun.
  rewrite bool_decide_false in Hrun by done. done.
Qed.
End further_lemmas.

(** ** Construction, assignment and the methods that change the size *)

(** X1. [Vector(size_t size)], on every machine.  When the machine can
    satisfy the request for [size] objects, the constructor allocates a
    block of exactly [size] slots and value-initialises each of them, front
    to back: the new vector has size and capacity [size], holds [size]
    value-initialised elements, and satisfies the class invariant.  When the
    allocation function refuses the request, the constructor throws
    [std::bad_alloc] and has constructed nothing. *)
Theorem ctor_value_initialises {T : Type} `{!Element T} {machine : Machine}
    {S : Type} (size : nat) (st : S) :
  (allocatable T size →
   ∃ v : Vector T,
     Vector.ctor size st = Returns v st (ValueConstruct <$> seq 0 size)
     ∧ Vector.Size v = size
     ∧ Vector.Capacity v = size
     ∧ length (buffer_ (data_ v)) = size
     ∧ elements v = replicate size (Some value_init)
     ∧ invariant v)
  ∧ (refused T size → Vector.ctor (T:=T) size st = Throws bad_alloc st []).
Proof.
  split; [|apply ctor_throws].
  intros Halloc. eexists. split; [by apply ctor_constructs|].
  assert (take size (replicate size (Some (value_init (T:=T))))
          = replicate size (Some value_init)) as Helems
    by (apply take_ge; by rewrite length_replicate).
  split_and!; [done|done| |done|split; [split|]]; unfold elements; simpl.
  - by rewrite length_replicate.
  - by rewrite length_replicate.
  - done.
  - rewrite Helems. apply Forall_replicate. by eexists.
Qed.

(** [Vector<int>(3)] and [Vector<int>(2^62 - 1)] on the LP64 machine. *)
Lemma ctor_value_initialises_three :
  allocatable (machine := lp64) Z 3
  ∧ (∃ v : Vector Z,
       Vector.ctor (machine := lp64) 3 tt
       = Returns v tt [ValueConstruct 0; ValueConstruct 1; ValueConstruct 2]
       ∧ Vector.Capacity v = 3
       ∧ elements v = [Some 0; Some 0; Some 0]%Z)
  ∧ refused (machine := lp64) Z refused_count
  ∧ Vector.ctor (T := Z) (machine := lp64) refused_count tt
    = Throws bad_alloc tt [].
Proof.
  assert (allocatable (machine := lp64) Z 3) as Halloc
    by (unfold allocatable, representable; simpl; lia).
  pose proof refused_count_refused as Hrefused.
  split; [exact Halloc|]. split.
  - destruct (ctor_value_initialises (machine := lp64) (T := Z) 3 tt)
      as [Hreturns _].
    destruct (Hreturns Halloc) as (v & Hrun & _ & Hcap & _ & Helems & _).
    exists v. split_and!; [exact Hrun|exact Hcap|exact Helems].
  - split; [exact Hrefused|].
    destruct (ctor_value_initialises (machine := lp64) (T := Z) refused_count tt)
      as [_ Hthrows].
    exact (Hthrows Hrefused).
Defined.

(** X2. [Vector(const Vector& other)] copy-constructs the elements of
    [other] into a block of exactly [other.Size()] slots, front to back: the
    copy holds the elements of [other], and its capacity is the size of
    [other], whatever the capacity of [other] is. *)
Theorem copy_ctor_copies {T : Type} `{!Element T} {S : Type}
    (other : Vector T) (st : S) :
  well_formed other →
  ∃ v,
    Vector.copy_ctor other st
    = Returns v st (CopyConstruct <$> seq 0 (size_ other))
    ∧ elements v = elements other
    ∧ Vector.Size v = Vector.Size other
    ∧ Vector.Capacity v = Vector.Size other
    ∧ well_formed v
    ∧ (invariant other → invariant v).
Proof.
  intros Hwf. pose proof (length_elements other Hwf) as Hl.
  eexists. split; [by apply copy_ctor_spec|].
  assert (take (size_ other) (elements other) = elements other) as Helems
    by (apply take_ge; lia).
  assert (∀ addr,
            well_formed
              (mkVector (mkRawMemory addr (elements other) (size_ other))
                 (size_ other)))
    as Hwf' by (split; simpl; lia).
  split_and!; [done..|].
  intros [_ Hlive]. split; [done|]. unfold elements at 1. simpl. by rewrite Helems.
Qed.

(** The copy of [1, 2, 3] in a block of four has capacity three. *)
Lemma copy_ctor_copies_one_two_three :
  well_formed one_two_three
  ∧ ∃ v,
      Vector.copy_ctor one_two_three tt
      = Returns v tt [CopyConstruct 0; CopyConstruct 1; CopyConstruct 2]
      ∧ elements v = [Some 1; Some 2; Some 3]%Z
      ∧ Vector.Capacity v = 3.
Proof.
  assert (well_formed one_two_three) as Hwf by (split; simpl; lia).
  split; [exact Hwf|].
  destruct (copy_ctor_copies one_two_three tt Hwf)
    as (v & Hrun & Helems & _ & Hcap & _).
  exists v. split_and!; [exact Hrun|exact Helems|exact Hcap].
Defined.

(** X3. Copy assignment from a vector that is longer than the capacity:
    the elements of [rhs] are copy-constructed into a new block of exactly
    [rhs.Size()] slots, and only then the old elements are destroyed; the
    vector holds the elements of [rhs]. *)
Theorem copy_assign_reallocates {T : Type} `{!Element T} (v rhs : Vector T) :
  well_formed v → well_formed rhs → Vector.Capacity v < size_ rhs →
  ∃ v',
    Vector.copy_assign (Other rhs) v
    = Returns tt v'
        ((CopyConstruct <$> seq 0 (size_ rhs)) ++ (Destroy <$> seq 0 (size_ v)))
    ∧ elements v' = elements rhs
    ∧ Vector.Size v' = Vector.Size rhs
    ∧ Vector.Capacity v' = Vector.Size rhs
    ∧ well_formed v'.
Proof.
  intros Hwf Hwfr Hcap. pose proof (length_elements rhs Hwfr) as Hl.
  eexists. split; [by apply copy_assign_reallocating|].
  split_and!; [|done..|split; simpl; lia].
  unfold elements at 1. simpl. apply take_ge. lia.
Qed.

(** [a = b] for [a] holding 9 in a block of one slot and [b] holding
    [1, 2, 3]. *)
Lemma copy_assign_reallocates_one_two_three :
  well_formed (mkVector (mkRawMemory 1 [Some 9%Z] 1) 1)
  ∧ well_formed one_two_three
  ∧ Vector.Capacity (mkVector (mkRawMemory 1 [Some 9%Z] 1) 1) < size_ one_two_three
  ∧ ∃ v',
      Vector.copy_assign (Other one_two_three) (mkVector (mkRawMemory 1 [Some 9%Z] 1) 1)
      = Returns tt v'
          [CopyConstruct 0; CopyConstruct 1; CopyConstruct 2; Destroy 0]
      ∧ elements v' = [Some 1; Some 2; Some 3]%Z
      ∧ Vector.Capacity v' = 3.
Proof.
  assert (well_formed (mkVector (mkRawMemory 1 [Some 9%Z] 1) 1)) as Hwf
    by (split; simpl; lia).
  assert (well_formed one_two_three) as Hwfr by (split; simpl; lia).
  assert (Vector.Capacity (mkVector (mkRawMemory 1 [Some 9%Z] 1) 1)
          < size_ one_two_three) as Hcap by (vm_compute; lia).
  split; [exact Hwf|]. split; [exact Hwfr|]. split; [exact Hcap|].
  destruct (copy_assign_reallocates _ one_two_three Hwf Hwfr Hcap)
    as (v' & Hrun & Helems & _ & Hcap' & _).
  exists v'. split_and!; [exact Hrun|exact Helems|exact Hcap'].
Defined.

(** X4. Copy assignment from a vector that is not longer: the elements of
    [rhs] are copy-assigned over the first [rhs.Size()] elements, the
    elements behind them are destroyed, and the block stays; the vector holds
    the elements of [rhs]. *)
Theorem copy_assign_shrinks {T : Type} `{!Element T} (v rhs : Vector T) :
  well_formed v → well_formed rhs → size_ rhs ≤ size_ v →
  ∃ v',
    Vector.copy_assign (Other rhs) v
    = Returns tt v'
        ((CopyAssign <$> seq 0 (size_ rhs))
         ++ (Destroy <$> seq (size_ rhs) (size_ v - size_ rhs)))
    ∧ elements v' = elements rhs
    ∧ Vector.Size v' = Vector.Size rhs
    ∧ Vector.Capacity v' = Vector.Capacity v
    ∧ (∀ j, size_ rhs ≤ j < size_ v → buffer_ (data_ v') !! j = Some None)
    ∧ well_formed v'.
Proof.
  intros Hwf Hwfr Hle. pose proof (length_elements rhs Hwfr) as Hl.
  pose proof Hwf as [Hlen Hsize].
  eexists. split; [by apply copy_assign_shrinking|].
  split_and!; [|done..| |].
  - unfold elements at 1. simpl. by apply take_app_length'.
  - intros j Hj. simpl. rewrite lookup_app_r by lia.
    rewrite lookup_app_l by (rewrite length_replicate; lia).
    apply lookup_replicate_2. lia.
  - split; simpl; [|lia].
    rewrite !length_app, length_replicate, length_drop. lia.
Qed.

(** [a = b] for [a] holding [1, 2, 3] and [b] holding 1. *)
Lemma copy_assign_shrinks_one_two_three :
  well_formed one_two_three ∧ well_formed short_with_room
  ∧ size_ short_with_room ≤ size_ one_two_three
  ∧ ∃ v',
      Vector.copy_assign (Other short_with_room) one_two_three
      = Returns tt v' [CopyAssign 0; Destroy 1; Destroy 2]
      ∧ elements v' = [Some 1%Z]
      ∧ Vector.Capacity v' = 4.
Proof.
  assert (well_formed one_two_three) as Hwf by (split; simpl; lia).
  assert (well_formed short_with_room) as Hwfr by (split; simpl; lia).
  assert (size_ short_with_room ≤ size_ one_two_three) as Hle by (simpl; lia).
  split; [exact Hwf|]. split; [exact Hwfr|]. split; [exact Hle|].
  destruct (copy_assign_shrinks one_two_three short_with_room Hwf Hwfr Hle)
    as (v' & Hrun & Helems & _ & Hcap & _).
  exists v'. split_and!; [exact Hrun|exact Helems|exact Hcap].
Defined.

(** X5. Copy assignment from a longer vector that fits the capacity: the
    common elements are copy-assigned, and then [rhs.Size() - Size()]
    elements of [rhs] are copy-constructed from its first element on into
    the slots from the first one on, not into the slots behind the common
    elements.  The slots in front of [Size()] or of [rhs.Size() - Size()]
    hold the elements of [rhs]; every other slot is as it was; so an empty
    vector holds the elements of [rhs]. *)
Theorem copy_assign_grows_in_place {T : Type} `{!Element T} (v rhs : Vector T) :
  well_formed v → well_formed rhs →
  size_ v < size_ rhs → size_ rhs ≤ Vector.Capacity v →
  ∃ v',
    Vector.copy_assign (Other rhs) v
    = Returns tt v'
        ((CopyAssign <$> seq 0 (size_ v))
         ++ (CopyConstruct <$> seq 0 (size_ rhs - size_ v)))
    ∧ Vector.Size v' = Vector.Size rhs
    ∧ Vector.Capacity v' = Vector.Capacity v
    ∧ (∀ j, j < size_ v ∨ j < size_ rhs - size_ v →
         elements v' !! j = elements rhs !! j)
    ∧ (∀ j, size_ v ≤ j → size_ rhs - size_ v ≤ j →
         buffer_ (data_ v') !! j = buffer_ (data_ v) !! j)
    ∧ (size_ v = 0 → elements v' = elements rhs)
    ∧ well_formed v'.
Proof.
  intros Hwf Hwfr Hlt Hfit.
  pose proof Hwf as [Hlen Hsize]. pose proof Hwfr as [Hlenr Hsizer].
  unfold Vector.Capacity, RawMemory.Capacity in *.
  eexists. split; [by apply copy_assign_growing|].
  set (b := buffer_ (data_ v)) in *. set (r := buffer_ (data_ rhs)) in *.
  assert (length (take (size_ rhs - size_ v) r) = size_ rhs - size_ v) as Hl1
    by (rewrite length_take; lia).
  assert (length (take (size_ v) r) = size_ v) as Hl2
    by (rewrite length_take; lia).
  assert (∀ j, size_ rhs - size_ v ≤ j →
            (take (size_ rhs - size_ v) r
               ++ drop (size_ rhs - size_ v) (take (size_ v) r ++ drop (size_ v) b))
            !! j
            = (take (size_ v) r ++ drop (size_ v) b) !! j) as Hbehind.
  { intros j Hj. rewrite lookup_app_r by lia. rewrite Hl1, lookup_drop.
    f_equal. lia. }
  assert (∀ j, j < size_ v ∨ j < size_ rhs - size_ v →
            (take (size_ rhs - size_ v) r
               ++ drop (size_ rhs - size_ v) (take (size_ v) r ++ drop (size_ v) b))
            !! j
            = r !! j) as Hcopied.
  { intros j Hj. destruct (decide (j < size_ rhs - size_ v)) as [Hfront|Hback].
    - rewrite lookup_app_l by lia. by apply lookup_take_lt.
    - rewrite Hbehind by lia. rewrite lookup_app_l by lia.
      apply lookup_take_lt. lia. }
  split_and!; [done..| | | |].
  - intros j Hj. unfold elements. simpl. fold r.
    rewrite !lookup_take_lt by lia. by apply Hcopied.
  - intros j Hj1 Hj2. simpl. rewrite Hbehind by done.
    rewrite lookup_app_r by lia. rewrite Hl2, lookup_drop. f_equal. lia.
  - intros Hempty. unfold elements. simpl. fold r b. rewrite Hempty, Nat.sub_0_r.
    rewrite take_app_length'; [done|]. rewrite length_take. lia.
  - split; simpl; [|lia]. fold r b.
    rewrite length_app, Hl1, length_drop, length_app, Hl2, length_drop. lia.
Qed.

(** [a = b] for [a] holding 1 in a block of four and [b] holding
    [5, 6, 7]: the slot 2 is as it was. *)
Lemma copy_assign_grows_in_place_five_six_seven :
  well_formed short_with_room ∧ well_formed five_six_seven
  ∧ size_ short_with_room < size_ five_six_seven
  ∧ size_ five_six_seven ≤ Vector.Capacity short_with_room
  ∧ ∃ v',
      Vector.copy_assign (Other five_six_seven) short_with_room
      = Returns tt v' [CopyAssign 0; CopyConstruct 0; CopyConstruct 1]
      ∧ buffer_ (data_ v') !! 2 = buffer_ (data_ short_with_room) !! 2.
Proof.
  assert (well_formed short_with_room) as Hwf by (split; simpl; lia).
  assert (well_formed five_six_seven) as Hwfr by (split; simpl; lia).
  assert (size_ short_with_room < size_ five_six_seven) as Hlt by (simpl; lia).
  assert (size_ five_six_seven ≤ Vector.Capacity short_with_room) as Hfit
    by (vm_compute; lia).
  split; [exact Hwf|]. split; [exact Hwfr|]. split; [exact Hlt|].
  split; [exact Hfit|].
  destruct (copy_assign_grows_in_place short_with_room five_six_seven
              Hwf Hwfr Hlt Hfit) as (v' & Hrun & _ & _ & _ & Hkept & _).
  exists v'. split; [exact Hrun|]. apply Hkept; simpl; lia.
Defined.

(** X6. [Resize(new_size)], on every machine.  Unless it needs a block
    that the machine cannot give, it returns: the size becomes [new_size];
    the capacity becomes [new_size] when that is larger, with no doubling,
    and stays otherwise; the vector keeps its first [new_size] elements, and
    new elements are value-initialised; the class invariant is kept.  When
    [new_size] is more than the capacity and the allocation function refuses
    the request, it throws [std::bad_alloc] and leaves the vector as it
    was. *)
Theorem Resize_result {T : Type} `{!Element T} {machine : Machine}
    (v : Vector T) (new_size : nat) :
  well_formed v →
  ((Vector.Capacity v < new_size → allocatable T new_size) →
   ∃ v' tr,
     Vector.Resize new_size v = Returns tt v' tr
     ∧ Vector.Size v' = new_size
     ∧ Vector.Capacity v' = Vector.Capacity v `max` new_size
     ∧ elements v'
       = take new_size (elements v)
         ++ replicate (new_size - size_ v) (Some value_init)
     ∧ (∀ j, j < size_ v → j < new_size → elements v' !! j = elements v !! j)
     ∧ (∀ j, size_ v ≤ j < new_size → elements v' !! j = Some (Some value_init))
     ∧ well_formed v'
     ∧ (invariant v → invariant v'))
  ∧ (Vector.Capacity v < new_size → refused T new_size →
     Vector.Resize new_size v = Throws bad_alloc v []).
Proof.
  intros Hwf. split; [|by apply Resize_refuses].
  intros Halloc.
  assert (length (elements v) = size_ v) as Hl
    by (destruct Hwf; unfold elements; lengths).
  destruct (Resize_allocates v new_size Hwf Halloc)
    as (v' & tr & Hrun & Hsize & Hcap & Helems & Hwf').
  exists v', tr. split_and!; [done..| | |done|].
  - intros j Hj1 Hj2. rewrite Helems.
    rewrite lookup_app_l by (rewrite length_take; lia). by apply lookup_take_lt.
  - intros j Hj. rewrite Helems.
    rewrite lookup_app_r by (rewrite length_take; lia).
    apply lookup_replicate_2. rewrite length_take. lia.
  - intros [_ Hlive]. split; [done|]. rewrite Helems.
    apply Forall_app. split; [by apply Forall_take|].
    apply Forall_replicate. by eexists.
Qed.

(** [Resize(6)] and [Resize(2^62 - 1)] on [1, 2, 3] in a block of four, on
    the LP64 machine. *)
Lemma Resize_result_six :
  well_formed one_two_three
  ∧ (Vector.Capacity one_two_three < 6 → allocatable (machine := lp64) Z 6)
  ∧ (∃ v' tr,
       Vector.Resize (machine := lp64) 6 one_two_three = Returns tt v' tr
       ∧ Vector.Size v' = 6
       ∧ Vector.Capacity v' = 6
       ∧ elements v' = [Some 1; Some 2; Some 3; Some 0; Some 0; Some 0]%Z)
  ∧ Vector.Capacity one_two_three < refused_count
  ∧ refused (machine := lp64) Z refused_count
  ∧ Vector.Resize (machine := lp64) refused_count one_two_three
    = Throws bad_alloc one_two_three [].
Proof.
  assert (well_formed one_two_three) as Hwf by (split; simpl; lia).
  assert (Vector.Capacity one_two_three < 6 → allocatable (machine := lp64) Z 6)
    as Halloc by (intros _; unfold allocatable, representable; simpl; lia).
  assert (Vector.Capacity one_two_three < refused_count) as Hmany.
  { unfold Vector.Capacity, RawMemory.Capacity, one_two_three, refused_count.
    cbn [data_ capacity_]. lia. }
  pose proof refused_count_refused as Hrefused.
  split; [exact Hwf|]. split; [exact Halloc|]. split.
  - destruct (Resize_result (machine := lp64) one_two_three 6 Hwf) as [Hreturns _].
    destruct (Hreturns Halloc) as (v' & tr & Hrun & Hsize & Hcap & Helems & _).
    exists v', tr. split_and!; [exact Hrun|exact Hsize|exact Hcap|exact Helems].
  - split; [exact Hmany|]. split; [exact Hrefused|].
    destruct (Resize_result (machine := lp64) one_two_three refused_count Hwf)
      as [_ Hthrows].
    exact (Hthrows Hmany Hrefused).
Defined.

(** X7. [Clear()] destroys the elements, front to back, and keeps the
    block: the size becomes 0, the capacity stays, and the slots that held
    elements hold none. *)
Theorem Clear_keeps_capacity {T : Type} `{!Element T} (v : Vector T) :
  well_formed v →
  ∃ v',
    Vector.Clear v = Returns tt v' (Destroy <$> seq 0 (size_ v))
    ∧ Vector.Size v' = 0
    ∧ Vector.Empty v' = true
    ∧ Vector.Capacity v' = Vector.Capacity v
    ∧ elements v' = []
    ∧ (∀ j, j < size_ v → buffer_ (data_ v') !! j = Some None)
    ∧ (∀ j, size_ v ≤ j → buffer_ (data_ v') !! j = buffer_ (data_ v) !! j)
    ∧ invariant v'.
Proof.
  intros Hwf. pose proof Hwf as [Hlen Hsize].
  eexists. split; [by apply Clear_spec|].
  assert (well_formed
            (mkVector (mkRawMemory (address_ (data_ v))
                         (replicate (size_ v) None
                            ++ drop (size_ v) (buffer_ (data_ v)))
                         (capacity_ (data_ v))) 0)) as Hwf'.
  { split; simpl; [|lia]. rewrite length_app, length_replicate, length_drop. lia. }
  split_and!; [done..| | |split; [done|by apply Forall_nil]].
  - intros j Hj. simpl. rewrite lookup_app_l by (rewrite length_replicate; lia).
    by apply lookup_replicate_2.
  - intros j Hj. simpl. rewrite lookup_app_r by (rewrite length_replicate; lia).
    rewrite length_replicate, lookup_drop. f_equal. lia.
Qed.

(** [Clear()] on [1, 2, 3] in a block of four. *)
Lemma Clear_keeps_capacity_one_two_three :
  well_formed one_two_three
  ∧ ∃ v',
      Vector.Clear one_two_three = Returns tt v' [Destroy 0; Destroy 1; Destroy 2]
      ∧ Vector.Size v' = 0
      ∧ Vector.Capacity v' = 4.
Proof.
  assert (well_formed one_two_three) as Hwf by (split; simpl; lia).
  split; [exact Hwf|].
  destruct (Clear_keeps_capacity one_two_three Hwf)
    as (v' & Hrun & Hsize & _ & Hcap & _).
  exists v'. split_and!; [exact Hrun|exact Hsize|exact Hcap].
Defined.

(** X8. [PopBack()] on a vector with elements destroys the last element
    and nothing else: the size goes down by one, the capacity stays, and the
    other elements stay; on an empty vector the call is outside the
    contract of the method. *)
Theorem PopBack_removes_last {T : Type} `{!Element T} (v : Vector T) :
  well_formed v →
  (0 < size_ v →
   ∃ v',
     Vector.PopBack v = Returns tt v' [Destroy (size_ v - 1)]
     ∧ Vector.Size v' = size_ v - 1
     ∧ Vector.Capacity v' = Vector.Capacity v
     ∧ elements v' = take (size_ v - 1) (elements v)
     ∧ buffer_ (data_ v') !! (size_ v - 1) = Some None
     ∧ (invariant v → invariant v'))
  ∧ (size_ v = 0 → Vector.PopBack v = Undefined).
Proof.
  intros Hwf. pose proof Hwf as [Hlen Hsize]. split.
  - intros Hpos. eexists. split; [by apply PopBack_spec|].
    assert (take (size_ v - 1) (<[size_ v - 1:=None]> (buffer_ (data_ v)))
            = take (size_ v - 1) (elements v)) as Helems.
    { rewrite take_insert_ge by done. unfold elements.
      rewrite take_take. f_equal. lia. }
    split_and!; [done..| |].
    + simpl. apply list_lookup_insert_eq. lia.
    + intros [_ Hlive]. split; [split; simpl; [by rewrite length_insert|lia]|].
      unfold elements at 1. simpl. rewrite Helems. by apply Forall_take.
  - intros Hempty. unfold Vector.PopBack. run.
    rewrite bool_decide_false by lia. done.
Qed.

(** [PopBack()] on [1, 2, 3]. *)
Lemma PopBack_removes_last_one_two_three :
  well_formed one_two_three ∧ 0 < size_ one_two_three
  ∧ ∃ v',
      Vector.PopBack one_two_three = Returns tt v' [Destroy 2]
      ∧ Vector.Size v' = 2
      ∧ elements v' = [Some 1; Some 2]%Z.
Proof.
  assert (well_formed one_two_three) as Hwf by (split; simpl; lia).
  assert (0 < size_ one_two_three) as Hpos by (simpl; lia).
  split; [exact Hwf|]. split; [exact Hpos|].
  destruct (PopBack_removes_last one_two_three Hwf) as [Hpop _].
  destruct (Hpop Hpos) as (v' & Hrun & Hsize & _ & Helems & _).
  exists v'. split_and!; [exact Hrun|exact Hsize|exact Helems].
Defined.

(** X9. [PushBack(x)] followed by [PopBack()] returns on every vector and
    leaves the elements and the size as they were; the last element
    operation is the destruction of the new element; the capacity has not
    gone down. *)
Theorem PushBack_PopBack_round_trip {T : Type} `{!Element T}
    (v : Vector T) (x : T) :
  well_formed v →
  ∃ v' tr,
    (Vector.PushBack x ;; Vector.PopBack)%cpp v = Returns tt v' tr
    ∧ Vector.Size v' = Vector.Size v
    ∧ elements v' = elements v
    ∧ Vector.Capacity v ≤ Vector.Capacity v'
    ∧ last tr = Some (Destroy (size_ v))
    ∧ well_formed v'.
Proof.
  intros Hwf. pose proof (length_elements v Hwf) as Hl.
  destruct (PushBack_spec v x Hwf) as (v1 & tr1 & Hrun1 & Hsize1 & Hcap1 & Helems1 & Hwf1).
  pose proof Hwf1 as [Hlen1 Hsize1'].
  run. rewrite Hrun1. run. rewrite PopBack_spec by (done || lia). run.
  eexists _, _. split; [reflexivity|]. rewrite Hsize1. cbn [Nat.sub].
  rewrite Nat.sub_0_r. split_and!.
  - done.
  - unfold elements at 1. simpl. rewrite take_insert_ge by done.
    replace (take (size_ v) (buffer_ (data_ v1)))
      with (take (size_ v) (elements v1))
      by (unfold elements; rewrite take_take, Hsize1; f_equal; lia).
    rewrite Helems1. by apply take_app_length'.
  - unfold Vector.Capacity, RawMemory.Capacity in *. simpl. rewrite Hcap1.
    pose proof (grown_gt (capacity_ (data_ v))). case_decide; lia.
  - by rewrite last_snoc.
  - split; simpl; [by rewrite length_insert|lia].
Qed.

(** [PushBack(9); PopBack()] on [1, 2, 3]. *)
Lemma PushBack_PopBack_round_trip_one_two_three :
  well_formed one_two_three
  ∧ ∃ v' tr,
      (Vector.PushBack 9%Z ;; Vector.PopBack)%cpp one_two_three = Returns tt v' tr
      ∧ elements v' = [Some 1; Some 2; Some 3]%Z.
Proof.
  assert (well_formed one_two_three) as Hwf by (split; simpl; lia).
  split; [exact Hwf|].
  destruct (PushBack_PopBack_round_trip one_two_three 9%Z Hwf)
    as (v' & tr & Hrun & _ & Helems & _).
  exists v', tr. split; [exact Hrun|exact Helems].
Defined.

(** X10. [Emplace] at [begin() + index] with [index <= Size()] puts the new
    element in front of the element at [index]: the elements in front of it
    keep their indices, the elements from it on move up by one, the size
    goes up by one, and the class invariant is kept.  With
    [index > Size()] the call is outside the contract of the method. *)
Theorem Emplace_inserts {T : Type} `{!Element T}
    (v : Vector T) (index : nat) (x : T) :
  well_formed v →
  (index ≤ size_ v →
   ∃ v' tr,
     Vector.Emplace (Vector.begin v + index) x v
     = Returns (Vector.begin v' + index) v' tr
     ∧ Vector.Size v' = S (size_ v)
     ∧ elements v' = take index (elements v) ++ Some x :: drop index (elements v)
     ∧ (∀ j, j < index → elements v' !! j = elements v !! j)
     ∧ (∀ j, index ≤ j → elements v' !! S j = elements v !! j)
     ∧ (invariant v → invariant v'))
  ∧ (size_ v < index →
     Vector.Emplace (Vector.begin v + index) x v = Undefined).
Proof.
  intros Hwf. pose proof (length_elements v Hwf) as Hl. split.
  - intros Hindex.
    destruct (Emplace_spec v index x Hwf Hindex)
      as (v' & tr & Hrun & Hsize & _ & Helems & Hwf').
    assert (length (take index (elements v)) = index) as Hpre
      by (rewrite length_take; lia).
    exists v', tr. split_and!; [done..| | |].
    + intros j Hj. rewrite Helems, lookup_app_l by lia. by apply lookup_take_lt.
    + intros j Hj. rewrite Helems, lookup_app_r by lia. rewrite Hpre.
      replace (S j - index) with (S (j - index)) by lia.
      rewrite lookup_cons, lookup_drop. f_equal. lia.
    + intros [_ Hlive]. split; [done|]. rewrite Helems.
      apply Forall_app. split; [by apply Forall_take|].
      apply Forall_cons. split; [by eexists|by apply Forall_drop].
  - intros Hindex. unfold Vector.Emplace. run.
    rewrite bool_decide_false by (unfold Vector.end_, Vector.begin; lia). done.
Qed.

(** [Emplace(begin() + 1, 9)] on [1, 2, 3]. *)
Lemma Emplace_inserts_one_two_three :
  well_formed one_two_three ∧ 1 ≤ size_ one_two_three
  ∧ ∃ v' tr,
      Vector.Emplace (Vector.begin one_two_three + 1) 9%Z one_two_three
      = Returns (Vector.begin v' + 1) v' tr
      ∧ elements v' = [Some 1; Some 9; Some 2; Some 3]%Z.
Proof.
  assert (well_formed one_two_three) as Hwf by (split; simpl; lia).
  assert (1 ≤ size_ one_two_three) as Hindex by (simpl; lia).
  split; [exact Hwf|]. split; [exact Hindex|].
  destruct (Emplace_inserts one_two_three 1 9%Z Hwf) as [Hins _].
  destruct (Hins Hindex) as (v' & tr & Hrun & _ & Helems & _).
  exists v', tr. split; [exact Hrun|exact Helems].
Defined.

(** X11. On every machine, for the element types whose assignment is a
    store, and unless the insertion needs a block that the machine cannot
    give: [Insert] at [begin() + index] returns the iterator [begin() + index]
    of the array that the vector has after the insertion, which is not the
    position passed when the vector was full; [Erase] at that iterator
    returns the same iterator, keeps the array, and leaves the elements and
    the size as they were before the insertion. *)
Theorem Insert_Erase_round_trip {T : Type} `{!Element T} {machine : Machine}
    (v : Vector T) (index : nat) (x : T) :
  assignment_is_store T →
  well_formed v → index ≤ size_ v →
  (size_ v = Vector.Capacity v → allocatable T (grown (Vector.Capacity v))) →
  ∃ p v1 tr1 v' tr2,
    Vector.Insert (Vector.begin v + index) x v = Returns p v1 tr1
    ∧ p = Vector.begin v1 + index
    ∧ (size_ v = Vector.Capacity v → p ≠ Vector.begin v + index)
    ∧ Vector.Erase p v1 = Returns p v' tr2
    ∧ (pos <- Vector.Insert (Vector.begin v + index) x ;; Vector.Erase pos)%cpp v
      = Returns p v' (tr1 ++ tr2)
    ∧ Vector.begin v' = Vector.begin v1
    ∧ Vector.Size v' = Vector.Size v
    ∧ elements v' = elements v
    ∧ Vector.Capacity v ≤ Vector.Capacity v'
    ∧ well_formed v'.
Proof.
  intros Hstore Hwf Hindex Halloc.
  assert (length (elements v) = size_ v) as Hl
    by (destruct Hwf; unfold elements; lengths).
  destruct (Emplace_stores Hstore v index x Hwf Hindex Halloc)
    as (v1 & tr1 & Hrun1 & Hsize1 & Hcap1 & Helems1 & Hwf1 & Hbegin1).
  destruct (Erase_stores Hstore v1 index Hwf1)
    as (v2 & Hrun2 & Hsize2 & Hcap2 & Helems2 & Hwf2); [lia|].
  assert (Vector.begin v2 = Vector.begin v1) as Hsame.
  { destruct (Erase_keeps_block _ _ _ _ _ Hrun2) as [Haddr _]. done. }
  exists (Vector.begin v1 + index), v1, tr1, v2,
    (Destroy index :: (MoveAssign <$> seq index (size_ v1 - 1 - index))).
  unfold Vector.Insert. run. rewrite Hrun1. run. rewrite Hrun2. run.
  split_and!; [done|done| |done|done|done|unfold Vector.Size; lia| | |done].
  - intros Hfull. rewrite decide_True in Hbegin1 by done.
    unfold fresh, Vector.begin, RawMemory.extent, RawMemory.GetAddress in *.
    simpl in Hbegin1. lia.
  - rewrite Helems2, Helems1.
    assert (length (take index (elements v)) = index) as Hpre
      by (rewrite length_take; lia).
    rewrite <-Hpre at 1. rewrite delete_middle. apply take_drop.
  - rewrite Hcap2, Hcap1. pose proof (grown_gt (Vector.Capacity v)).
    case_decide; lia.
Qed.

(** [Insert(begin() + 1, 9)] and [Erase] of the result on the vector [1, 2],
    whose block is full, on the LP64 machine. *)
Lemma Insert_Erase_round_trip_one_two :
  assignment_is_store (machine := lp64) Z
  ∧ well_formed one_two ∧ 1 ≤ size_ one_two
  ∧ (size_ one_two = Vector.Capacity one_two →
     allocatable (machine := lp64) Z (grown (Vector.Capacity one_two)))
  ∧ ∃ p v' tr,
      (pos <- Vector.Insert (machine := lp64) (Vector.begin one_two + 1) 9%Z ;;
       Vector.Erase (machine := lp64) pos)%cpp one_two
      = Returns p v' tr
      ∧ p = Vector.begin v' + 1
      ∧ p ≠ Vector.begin one_two + 1
      ∧ elements v' = [Some 1; Some 2]%Z.
Proof.
  assert (assignment_is_store (machine := lp64) Z) as Hstore by reflexivity.
  assert (well_formed one_two) as Hwf by (split; simpl; lia).
  assert (1 ≤ size_ one_two) as Hindex by (simpl; lia).
  assert (size_ one_two = Vector.Capacity one_two) as Hfull by reflexivity.
  assert (size_ one_two = Vector.Capacity one_two →
          allocatable (machine := lp64) Z (grown (Vector.Capacity one_two)))
    as Halloc.
  { intros _. change (allocatable (machine := lp64) Z 4).
    unfold allocatable, representable. simpl. lia. }
  split; [exact Hstore|]. split; [exact Hwf|]. split; [exact Hindex|].
  split; [exact Halloc|].
  destruct (Insert_Erase_round_trip (machine := lp64) one_two 1 9%Z
              Hstore Hwf Hindex Halloc)
    as (p & v1 & tr1 & v' & tr2 & _ & Hp & Hmoved & _ & Hrun & Hsame & _ & Helems & _).
  exists p, v', (tr1 ++ tr2).
  split_and!; [exact Hrun| |exact (Hmoved Hfull)|exact Helems].
  rewrite Hsame. exact Hp.
Defined.

(** ** Programs, capacity and transfers *)

(** X14. No method that works on one vector takes its capacity down:
    after [Reserve], [Resize], [Clear], [PopBack], [PushBack],
    [EmplaceBack], [Emplace], [Insert], [Erase] and the copy assignment from
    another vector, the capacity is at least what it was. *)
Theorem capacity_never_shrinks {T : Type} `{!Element T}
    (v v' : Vector T) (tr : trace) :
  well_formed v →
  (∃ n, Vector.Reserve n v = Returns tt v' tr)
  ∨ (∃ n, Vector.Resize n v = Returns tt v' tr)
  ∨ Vector.Clear v = Returns tt v' tr
  ∨ Vector.PopBack v = Returns tt v' tr
  ∨ (∃ x, Vector.PushBack x v = Returns tt v' tr)
  ∨ (∃ x a, Vector.EmplaceBack x v = Returns a v' tr)
  ∨ (∃ pos x a, Vector.Emplace pos x v = Returns a v' tr)
  ∨ (∃ pos x a, Vector.Insert pos x v = Returns a v' tr)
  ∨ (∃ pos a, Vector.Erase pos v = Returns a v' tr)
  ∨ (∃ rhs, well_formed rhs ∧ Vector.copy_assign (Other rhs) v = Returns tt v' tr) →
  Vector.Capacity v ≤ Vector.Capacity v'.
Proof.
  intros Hwf Hcall. pose proof (grown_gt (Vector.Capacity v)) as Hgrown.
  assert (∀ pos x a, Vector.Emplace pos x v = Returns a v' tr →
            Vector.Capacity v ≤ Vector.Capacity v') as Hemplace.
  { intros pos x a Hrun.
    destruct (Emplace_returns _ _ _ _ _ _ Hrun) as (index & -> & Hindex).
    destruct (Emplace_spec v index x Hwf Hindex) as (w & tr' & Hspec & _ & Hcap & _).
    rewrite Hspec in Hrun.
    injection Hrun as _ <- _. rewrite Hcap. case_decide; lia. }
  destruct Hcall as [[n Hrun]|[[n Hrun]|[Hrun|[Hrun|[[x Hrun]|[(x & a & Hrun)|
    [(pos & x & a & Hrun)|[(pos & x & a & Hrun)|[(pos & a & Hrun)|
    (rhs & Hwfr & Hrun)]]]]]]]]].
  - destruct (decide (n ≤ Vector.Capacity v)) as [Hle|Hgt].
    + unfold Vector.Reserve in Hrun. run in Hrun.
      rewrite decide_True in Hrun by done. run in Hrun. by injection Hrun as <- _.
    + rewrite Reserve_grows in Hrun by (done || lia). injection Hrun as <- _.
      unfold Vector.Capacity, RawMemory.Capacity in *. simpl. lia.
  - destruct (Resize_spec v n Hwf) as (w & tr' & Hspec & _ & Hcap & _).
    rewrite Hspec in Hrun. injection Hrun as <- _. lia.
  - rewrite Clear_spec in Hrun by done. by injection Hrun as <- _.
  - pose proof (PopBack_returns _ _ _ _ Hrun) as Hpos.
    rewrite PopBack_spec in Hrun by done. by injection Hrun as <- _.
  - destruct (PushBack_spec v x Hwf) as (w & tr' & Hspec & _ & Hcap & _).
    rewrite Hspec in Hrun. injection Hrun as <- _. rewrite Hcap. case_decide; lia.
  - destruct (EmplaceBack_spec v x Hwf) as (w & tr' & Hspec & _ & Hcap & _).
    rewrite Hspec in Hrun. injection Hrun as _ <- _. rewrite Hcap. case_decide; lia.
  - by eapply Hemplace.
  - by eapply Hemplace.
  - destruct (Erase_returns _ _ _ _ _ Hrun) as (i & -> & Hi).
    destruct (Erase_spec v i Hwf Hi) as (w & Hspec & _ & Hcap & _).
    rewrite Hspec in Hrun.
    injection Hrun as _ <- _. lia.
  - destruct (copy_assign_spec v rhs Hwf Hwfr) as (w & tr' & Hspec & _ & Hcap & _).
    rewrite Hspec in Hrun. injection Hrun as <- _. rewrite Hcap. case_decide; lia.
Qed.

(** [PushBack(2)] on a vector that holds 1 in a block of one slot. *)
Lemma capacity_never_shrinks_PushBack :
  well_formed (mkVector (mkRawMemory 1 [Some 1%Z] 1) 1)
  ∧ ∃ v',
      Vector.PushBack 2%Z (mkVector (mkRawMemory 1 [Some 1%Z] 1) 1)
      = Returns tt v' [Construct 1; MoveConstruct 0; Destroy 0]
      ∧ elements v' = [Some 1; Some 2]%Z
      ∧ Vector.Capacity (mkVector (mkRawMemory 1 [Some 1%Z] 1) 1)
        ≤ Vector.Capacity v'.
Proof.
  assert (well_formed (mkVector (mkRawMemory 1 [Some 1%Z] 1) 1)) as Hwf
    by (split; simpl; lia).
  split; [exact Hwf|].
  eexists. split; [evaluate|]. split; [reflexivity|].
  apply (capacity_never_shrinks _ _ [Construct 1; MoveConstruct 0; Destroy 0] Hwf).
  do 4 right. left. exists 2%Z. reflexivity.
Defined.

(** X15. [PushBack] of values for which the block has room constructs each
    of them in the first free slot and performs no other element operation:
    no element is moved or copied, the block and the capacity stay, and
    every element stays in its slot. *)
Theorem PushBack_within_capacity {T : Type} `{!Element T}
    (v : Vector T) (xs : list T) :
  well_formed v → size_ v + length xs ≤ Vector.Capacity v →
  ∃ v',
    PushBack_all xs v
    = Returns tt v' (Construct <$> seq (size_ v) (length xs))
    ∧ Vector.Size v' = size_ v + length xs
    ∧ Vector.Capacity v' = Vector.Capacity v
    ∧ elements v' = elements v ++ (Some <$> xs)
    ∧ (∀ j, j < size_ v → buffer_ (data_ v') !! j = buffer_ (data_ v) !! j)
    ∧ (∀ j, size_ v + length xs ≤ j →
         buffer_ (data_ v') !! j = buffer_ (data_ v) !! j).
Proof.
  intros Hwf Hroom. pose proof (length_elements v Hwf) as Hl.
  pose proof Hwf as [Hlen Hsize].
  unfold Vector.Capacity, RawMemory.Capacity in *.
  eexists. split; [by apply PushBack_all_spare|].
  split_and!; [done..| | |].
  - unfold elements at 1. simpl. rewrite app_assoc.
    apply take_app_length'. rewrite length_app, length_fmap. lia.
  - intros j Hj. simpl. rewrite lookup_app_l by lia.
    unfold elements. by apply lookup_take_lt.
  - intros j Hj. simpl. rewrite lookup_app_r by lia.
    rewrite lookup_app_r by (rewrite length_fmap; lia).
    rewrite length_fmap, lookup_drop, Hl. f_equal. lia.
Qed.

(** [PushBack(2); PushBack(3)] on a vector of one [int] in a block of
    four. *)
Lemma PushBack_within_capacity_short_with_room :
  well_formed short_with_room
  ∧ size_ short_with_room + length [2; 3]%Z ≤ Vector.Capacity short_with_room
  ∧ ∃ v',
      PushBack_all [2; 3]%Z short_with_room
      = Returns tt v' [Construct 1; Construct 2]
      ∧ elements v' = [Some 1; Some 2; Some 3]%Z
      ∧ Vector.Capacity v' = 4.
Proof.
  assert (well_formed short_with_room) as Hwf by (split; simpl; lia).
  assert (size_ short_with_room + length [2; 3]%Z ≤ Vector.Capacity short_with_room)
    as Hroom by (vm_compute; lia).
  split; [exact Hwf|]. split; [exact Hroom|].
  destruct (PushBack_within_capacity short_with_room [2; 3]%Z Hwf Hroom)
    as (v' & Hrun & _ & Hcap & Helems & _).
  exists v'. split_and!; [exact Hrun|exact Helems|exact Hcap].
Defined.

(** X16. [MoveOrCopyRange] puts the objects of the source range into the
    slots from [to_begin] on, front to back.  For an element type that is
    nothrow-move-constructible or not copy-constructible it move-constructs
    them, which leaves moved-from objects in the source range; for any other
    type it copy-constructs them, which leaves the source as it was.  The
    slots outside the two ranges stay. *)
Theorem MoveOrCopyRange_moves_or_copies {T : Type} `{!Element T}
    (src dst : block T) (from_begin from_end to_begin : nat) :
  from_begin ≤ from_end → from_end ≤ length src →
  to_begin + (from_end - from_begin) ≤ length dst →
  Vector.MoveOrCopyRange from_begin from_end to_begin (src, dst)
  = Returns tt
      (if is_nothrow_move_constructible (T:=T) || negb (is_copy_constructible (T:=T))
       then take from_begin src
              ++ ((λ s : slot T, moved_from <$> s)
                    <$> take (from_end - from_begin) (drop from_begin src))
              ++ drop from_end src
       else src,
       take to_begin dst
         ++ take (from_end - from_begin) (drop from_begin src)
         ++ drop (to_begin + (from_end - from_begin)) dst)
      ((if is_nothrow_move_constructible (T:=T) || negb (is_copy_constructible (T:=T))
        then MoveConstruct else CopyConstruct)
       <$> seq to_begin (from_end - from_begin)).
Proof.
  intros Hrange Hsrc Hdst.
  set (count := from_end - from_begin) in *.
  set (smid := take count (drop from_begin src)).
  assert (length smid = count) as Hsmid
    by (unfold smid; rewrite length_take, length_drop; lia).
  assert (src = take from_begin src ++ smid ++ drop from_end src) as Hs.
  { unfold smid. rewrite <-(take_drop from_begin src) at 1. f_equal.
    rewrite <-(take_drop count (drop from_begin src)) at 1. f_equal.
    rewrite drop_drop. f_equal. lia. }
  assert (dst = take to_begin dst ++ take count (drop to_begin dst)
                  ++ drop (to_begin + count) dst) as Hd.
  { rewrite <-(take_drop to_begin dst) at 1. f_equal.
    rewrite <-(take_drop count (drop to_begin dst)) at 1. f_equal.
    by rewrite drop_drop. }
  rewrite Hs at 1. rewrite Hd at 1.
  rewrite (MoveOrCopyRange_app smid);
    [|rewrite length_take; lia|lia|rewrite length_take; lia
     |rewrite length_take, length_drop; lia].
  rewrite Hsmid. unfold transferred, transfer, moves.
  destruct (is_nothrow_move_constructible || negb is_copy_constructible).
  - done.
  - by rewrite list_fmap_id, <-Hs.
Qed.

(** The transfer of the [2, 3] of [1, 2, 3] to the front of a block of
    raw slots. *)
Lemma MoveOrCopyRange_moves_or_copies_two_three :
  1 ≤ 3 ∧ 3 ≤ length [Some 1; Some 2; Some 3; None]%Z
  ∧ 0 + (3 - 1) ≤ length [@None Z; None; None]
  ∧ Vector.MoveOrCopyRange 1 3 0
      ([Some 1; Some 2; Some 3; None]%Z, [None; None; None])
    = Returns tt
        ([Some 1; Some 2; Some 3; None]%Z, [Some 2; Some 3; None]%Z)
        [MoveConstruct 0; MoveConstruct 1].
Proof.
  assert (1 ≤ 3) as H1 by lia.
  assert (3 ≤ length [Some 1; Some 2; Some 3; None]%Z) as H2 by (simpl; lia).
  assert (0 + (3 - 1) ≤ length [@None Z; None; None]) as H3 by (simpl; lia).
  split; [exact H1|]. split; [exact H2|]. split; [exact H3|].
  exact (MoveOrCopyRange_moves_or_copies
           [Some 1; Some 2; Some 3; None]%Z [None; None; None] 1 3 0 H1 H2 H3).
Defined.

(** ** The order of the element operations *)

(** X17. [Emplace] on a full vector: the new element is constructed first,
    in its slot of the new block; then the elements in front of the position
    are transferred, then the elements from the position on, one slot
    further; the old elements are destroyed after the last transfer.  The
    new block has 1 slot for an empty block and twice the slots otherwise,
    and holds raw slots behind the elements. *)
Theorem Emplace_reallocation_order {T : Type} `{!Element T}
    (v : Vector T) (index : nat) (x : T) :
  well_formed v → size_ v = Vector.Capacity v → index ≤ size_ v →
  ∃ v',
    Vector.Emplace (Vector.begin v + index) x v
    = Returns (Vector.begin v' + index) v'
        (Construct index
         :: (transfer <$> seq 0 index)
         ++ (transfer <$> seq (S index) (size_ v - index))
         ++ (Destroy <$> seq 0 (size_ v)))
    ∧ Vector.Size v' = S (size_ v)
    ∧ Vector.Capacity v' = grown (Vector.Capacity v)
    ∧ buffer_ (data_ v')
      = take index (elements v) ++ Some x :: drop index (elements v)
          ++ replicate (grown (Vector.Capacity v) - S (size_ v)) None.
Proof.
  intros Hwf Hfull Hindex. rewrite Emplace_full by done.
  returned. split; [reflexivity|].
  unfold Vector.Size, Vector.Capacity, RawMemory.Capacity in *. simpl.
  by rewrite Hfull.
Qed.

(** [Emplace(begin() + 1, 9)] on the vector [1, 2], whose block is
    full. *)
Lemma Emplace_reallocation_order_one_two :
  well_formed one_two
  ∧ size_ one_two = Vector.Capacity one_two
  ∧ 1 ≤ size_ one_two
  ∧ ∃ v',
      Vector.Emplace (Vector.begin one_two + 1) 9%Z one_two
      = Returns (Vector.begin v' + 1) v'
          [Construct 1; MoveConstruct 0; MoveConstruct 2; Destroy 0; Destroy 1]
      ∧ buffer_ (data_ v') = [Some 1; Some 9; Some 2; None]%Z.
Proof.
  assert (well_formed one_two) as Hwf by (split; simpl; lia).
  assert (size_ one_two = Vector.Capacity one_two) as Hfull by reflexivity.
  assert (1 ≤ size_ one_two) as Hindex by (simpl; lia).
  split; [exact Hwf|]. split; [exact Hfull|]. split; [exact Hindex|].
  destruct (Emplace_reallocation_order one_two 1 9%Z Hwf Hfull Hindex)
    as (v' & Hrun & _ & _ & Hblock).
  exists v'. split; [exact Hrun|exact Hblock].
Defined.

(** X18. [Emplace] in front of an element of a vector with room: a
    temporary is made from the argument, the last element is
    move-constructed into the first free slot, the elements from the
    position to the last but one are move-assigned one slot up, back to
    front, the temporary is move-assigned to the position and then
    destroyed.  The block and the slots behind the new last element stay. *)
Theorem Emplace_in_place_shifts {T : Type} `{!Element T}
    (v : Vector T) (index : nat) (x : T) :
  well_formed v → size_ v < Vector.Capacity v → index < size_ v →
  ∃ v',
    Vector.Emplace (Vector.begin v + index) x v
    = Returns (Vector.begin v' + index) v'
        (TempConstruct :: MoveConstruct (size_ v)
         :: (MoveAssign <$> reverse (seq (S index) (size_ v - 1 - index)))
         ++ [MoveAssign index; TempDestroy])
    ∧ Vector.Size v' = S (size_ v)
    ∧ Vector.Capacity v' = Vector.Capacity v
    ∧ buffer_ (data_ v')
      = take index (elements v) ++ Some x :: drop index (elements v)
          ++ drop (S (size_ v)) (buffer_ (data_ v)).
Proof.
  intros Hwf Hspare Hindex. rewrite Emplace_shifts by done.
  returned. split; [reflexivity|]. done.
Qed.

(** [Emplace(begin(), 9)] on [1, 2, 3] in a block of four. *)
Lemma Emplace_in_place_shifts_one_two_three :
  well_formed one_two_three
  ∧ size_ one_two_three < Vector.Capacity one_two_three
  ∧ 0 < size_ one_two_three
  ∧ ∃ v',
      Vector.Emplace (Vector.begin one_two_three + 0) 9%Z one_two_three
      = Returns (Vector.begin v' + 0) v'
          [TempConstruct; MoveConstruct 3; MoveAssign 2; MoveAssign 1;
           MoveAssign 0; TempDestroy]
      ∧ buffer_ (data_ v') = [Some 9; Some 1; Some 2; Some 3]%Z.
Proof.
  assert (well_formed one_two_three) as Hwf by (split; simpl; lia).
  assert (size_ one_two_three < Vector.Capacity one_two_three) as Hspare
    by (vm_compute; lia).
  assert (0 < size_ one_two_three) as Hindex by (simpl; lia).
  split; [exact Hwf|]. split; [exact Hspare|]. split; [exact Hindex|].
  destruct (Emplace_in_place_shifts one_two_three 0 9%Z Hwf Hspare Hindex)
    as (v' & Hrun & _ & _ & Hblock).
  exists v'. split; [exact Hrun|exact Hblock].
Defined.

(** X19. [a.Swap(b)] and the move assignment [a = std::move(b)] of two
    distinct vectors exchange their blocks and sizes and perform no element
    operation: after the move assignment [b] holds what [a] held.  Two
    [Swap] in a row, [a.Swap(a)] and [a = std::move(a)] leave the program
    state as it was. *)
Theorem Swap_exchanges {T : Type} `{!Element T}
    (h : gmap nat (Vector T)) (a b : nat) (va vb : Vector T) :
  a ≠ b → h !! a = Some va → h !! b = Some vb →
  Program.exec (Program.Swap a b) h = Returns tt (<[b:=va]> (<[a:=vb]> h)) []
  ∧ Program.exec (Program.AssignMove a b) h
    = Returns tt (<[b:=va]> (<[a:=vb]> h)) []
  ∧ Program.exec_all [Program.Swap a b; Program.Swap a b] h = Returns tt h []
  ∧ Program.exec (Program.Swap a a) h = Returns tt h []
  ∧ Program.exec (Program.AssignMove a a) h = Returns tt h [].
Proof.
  intros Hab Ha Hb.
  assert (∀ (g : gmap nat (Vector T)) wa wb,
            g !! a = Some wa → g !! b = Some wb →
            Program.exec (Program.Swap a b) g
            = Returns tt (<[b:=wa]> (<[a:=wb]> g)) []) as Hswap.
  { intros g wa wb Hwa Hwb. cbn [Program.exec]. rewrite decide_False by done.
    unfold Program.on2. rewrite Hwa, Hwb, Swap_spec. cbn [fst snd].
    by rewrite !eta. }
  split_and!.
  - by apply Hswap.
  - cbn [Program.exec]. rewrite decide_False by done.
    unfold Program.on2, Vector.move_assign. rewrite Ha, Hb, Swap_spec.
    cbn [fst snd]. by rewrite !eta.
  - cbn [Program.exec_all]. run. rewrite (Hswap h va vb) by done. run.
    rewrite (Hswap _ vb va) by by simplify_map_eq. run. f_equal.
    apply map_eq. intros i.
    destruct (decide (i = a)) as [Hia|Hia], (decide (i = b)) as [Hib|Hib];
      by simplify_map_eq.
  - cbn [Program.exec]. rewrite decide_True by done.
    unfold Program.on, Vector.Swap_self. rewrite Ha. run. rewrite eta.
    by rewrite insert_id.
  - cbn [Program.exec]. rewrite decide_True by done.
    unfold Program.on, Vector.move_assign_self. rewrite Ha. run.
    by rewrite insert_id.
Qed.

(** [a.Swap(b)] for [a] holding [1, 2, 3] and [b] holding [5, 6, 7]. *)
Lemma Swap_exchanges_two_vectors :
  0 ≠ 1
  ∧ ({[0 := one_two_three; 1 := five_six_seven]} : gmap nat (Vector Z)) !! 0
    = Some one_two_three
  ∧ ({[0 := one_two_three; 1 := five_six_seven]} : gmap nat (Vector Z)) !! 1
    = Some five_six_seven
  ∧ Program.exec (Program.AssignMove 0 1)
      ({[0 := one_two_three; 1 := five_six_seven]} : gmap nat (Vector Z))
    = Returns tt
        (<[1:=one_two_three]>
           (<[0:=five_six_seven]> {[0 := one_two_three; 1 := five_six_seven]}))
        [].
Proof.
  assert (0 ≠ 1) as Hab by lia.
  assert (({[0 := one_two_three; 1 := five_six_seven]} : gmap nat (Vector Z)) !! 0
          = Some one_two_three) as Ha by reflexivity.
  assert (({[0 := one_two_three; 1 := five_six_seven]} : gmap nat (Vector Z)) !! 1
          = Some five_six_seven) as Hb by reflexivity.
  split; [exact Hab|]. split; [exact Ha|]. split; [exact Hb|].
  destruct (Swap_exchanges _ 0 1 one_two_three five_six_seven Hab Ha Hb)
    as (_ & Hmove & _).
  exact Hmove.
Defined.

(** X20. Unchecked access: [operator[]] with an index in front of [Size()]
    names the slot that [At] names, and neither its own assertion nor that
    of the block fails; with an index from [Size()] on, where [At] throws,
    the call is outside the contract.  [front()] and [back()] name the first
    and the last element of a vector with elements, and are outside the
    contract on an empty vector. *)
Theorem unchecked_access {T : Type} `{!Element T} (v : Vector T) (index : nat) :
  well_formed v →
  (index < size_ v →
   Vector.subscript index v = Returns index v []
   ∧ Vector.subscript index v = Vector.At index v
   ∧ buffer_ (data_ v) !! index = elements v !! index)
  ∧ (size_ v ≤ index →
     Vector.subscript index v = Undefined
     ∧ Vector.At index v = Throws out_of_range v [])
  ∧ (0 < size_ v →
     Vector.front v = Returns 0 v []
     ∧ Vector.back v = Returns (size_ v - 1) v []
     ∧ buffer_ (data_ v) !! 0 = head (elements v)
     ∧ buffer_ (data_ v) !! (size_ v - 1) = last (elements v))
  ∧ (size_ v = 0 → Vector.front v = Undefined ∧ Vector.back v = Undefined).
Proof.
  intros Hwf. pose proof Hwf as [Hlen Hsize].
  pose proof (length_elements v Hwf) as Hl.
  assert (∀ i, i < size_ v → Vector.At i v = Returns i v []) as Hat.
  { intros i Hi. unfold Vector.At. run. rewrite decide_False by lia. run.
    fields. rewrite index_ok by lia. by destruct v as [[] ?]. }
  split_and!.
  - intros Hindex.
    assert (Vector.subscript index v = Returns index v []) as Hrun.
    { unfold Vector.subscript. run. rewrite assert_true by done. run.
      fields. rewrite index_ok by lia. by destruct v as [[] ?]. }
    split_and!; [done|by rewrite Hrun, Hat|].
    unfold elements. by rewrite lookup_take_lt.
  - intros Hindex. split.
    + unfold Vector.subscript. run. rewrite bool_decide_false by lia. done.
    + unfold Vector.At. run. by rewrite decide_True.
  - intros Hpos. split_and!.
    + unfold Vector.front. run. rewrite assert_true by done. run.
      fields. rewrite index_ok by lia. by destruct v as [[] ?].
    + unfold Vector.back. run. rewrite assert_true by done. run.
      fields. rewrite index_ok by lia. by destruct v as [[] ?].
    + rewrite head_lookup. unfold elements. by rewrite lookup_take_lt.
    + rewrite last_lookup, Hl. unfold elements.
      rewrite lookup_take_lt by lia. f_equal. lia.
  - intros Hempty. split.
    + unfold Vector.front. run. rewrite bool_decide_false by lia. done.
    + unfold Vector.back. run. rewrite bool_decide_false by lia. done.
Qed.

(** [v[1]], [v.front()] and [v.back()] on [1, 2, 3]. *)
Lemma unchecked_access_one_two_three :
  well_formed one_two_three ∧ 1 < size_ one_two_three
  ∧ Vector.subscript 1 one_two_three = Returns 1 one_two_three []
  ∧ buffer_ (data_ one_two_three) !! 1 = Some (Some 2%Z).
Proof.
  assert (well_formed one_two_three) as Hwf by (split; simpl; lia).
  assert (1 < size_ one_two_three) as Hindex by (simpl; lia).
  split; [exact Hwf|]. split; [exact Hindex|].
  destruct (unchecked_access one_two_three 1 Hwf) as (Hin & _).
  destruct (Hin Hindex) as (Hrun & _ & Hslot).
  split; [exact Hrun|exact Hslot].
Defined.

(** X21. On every machine, for the element types whose assignment is a
    store: [Erase] in front of the last element move-assigns the elements
    behind the position one slot down, and the object of the old last slot,
    now moved from, stays in that slot, which is the first slot behind the
    elements. *)
Theorem Erase_leaves_moved_from_last {T : Type} `{!Element T} {machine : Machine}
    (v : Vector T) (i : nat) (x : T) :
  assignment_is_store T →
  well_formed v → i + 1 < size_ v →
  buffer_ (data_ v) !! (size_ v - 1) = Some (Some x) →
  ∃ v',
    Vector.Erase (Vector.begin v + i) v
    = Returns (Vector.begin v + i) v'
        (Destroy i :: (MoveAssign <$> seq i (size_ v - 1 - i)))
    ∧ Vector.Size v' = size_ v - 1
    ∧ last (elements v') = Some (Some x)
    ∧ buffer_ (data_ v') !! Vector.Size v' = Some (Some (moved_from x)).
Proof.
  destruct v as [[addr b cap] size]. unfold well_formed, elements. simpl.
  intros Hstore [Hlen Hsize] Hi Hlast.
  destruct (block_around b i size) as (pre & s & mid & post & -> & Hpre & Hmid);
    [lia..|].
  assert (last mid = Some (Some x)) as Hx.
  { rewrite last_lookup. rewrite <-Hlast.
    rewrite lookup_app_r by lia. rewrite Hpre.
    replace (size - 1 - i) with (S (size - 2 - i)) by lia.
    rewrite lookup_cons, lookup_app_l by lia. f_equal. lia. }
  clear Hlast. subst i.
  assert (size = length pre + S (length mid)) as -> by lia.
  change (Vector.begin _ + length pre) with (addr + length pre).
  rewrite (Erase_block Hstore). eexists.
  replace (length pre + S (length mid) - 1 - length pre) with (length mid) by lia.
  split; [reflexivity|]. unfold Vector.Size. simpl.
  split_and!; [lia| |].
  - rewrite app_assoc, take_app_length' by (rewrite length_app; lia).
    rewrite last_app, Hx. done.
  - rewrite app_assoc, lookup_app_r by (rewrite length_app; lia).
    rewrite length_app, Nat.sub_diag. unfold left_over. by rewrite Hx.
Qed.

(** [Erase(begin())] on [1, 2, 3], on the LP64 machine. *)
Lemma Erase_leaves_moved_from_last_one_two_three :
  assignment_is_store (machine := lp64) Z
  ∧ well_formed one_two_three ∧ 0 + 1 < size_ one_two_three
  ∧ buffer_ (data_ one_two_three) !! (size_ one_two_three - 1) = Some (Some 3%Z)
  ∧ ∃ v',
      Vector.Erase (machine := lp64) (Vector.begin one_two_three + 0) one_two_three
      = Returns (Vector.begin one_two_three + 0) v'
          [Destroy 0; MoveAssign 0; MoveAssign 1]
      ∧ Vector.Size v' = 2
      ∧ buffer_ (data_ v') !! Vector.Size v' = Some (Some 3%Z).
Proof.
  assert (assignment_is_store (machine := lp64) Z) as Hstore by reflexivity.
  assert (well_formed one_two_three) as Hwf by (split; simpl; lia).
  assert (0 + 1 < size_ one_two_three) as Hi by (simpl; lia).
  assert (buffer_ (data_ one_two_three) !! (size_ one_two_three - 1)
          = Some (Some 3%Z)) as Hlast by reflexivity.
  split; [exact Hstore|]. split; [exact Hwf|]. split; [exact Hi|].
  split; [exact Hlast|].
  destruct (Erase_leaves_moved_from_last (machine := lp64) one_two_three 0 3%Z
              Hstore Hwf Hi Hlast)
    as (v' & Hrun & Hsize & _ & Hslot).
  exists v'. split_and!; [exact Hrun|exact Hsize|exact Hslot].
Defined.

(** X22. The end of the lifetime of a vector destroys its [Size()]
    elements, front to back, and nothing else, and takes the vector out of
    the program state. *)
Theorem Delete_destroys_elements {T : Type} `{!Element T}
    (h : gmap nat (Vector T)) (a : nat) (v : Vector T) :
  h !! a = Some v → well_formed v →
  Program.exec (Program.Delete a) h
  = Returns tt (delete a h) (Destroy <$> seq 0 (size_ v))
  ∧ delete a h !! a = None.
Proof.
  intros Hv Hwf. split; [|by apply lookup_delete_eq].
  cbn [Program.exec]. run. unfold Program.on. rewrite Hv, dtor_spec by done.
  run. unfold Program.free. cbn [after]. by rewrite delete_insert_eq, app_nil_r.
Qed.

(** The end of a program whose only object holds [1, 2, 3]. *)
Lemma Delete_destroys_elements_one_two_three :
  ({[0 := one_two_three]} : gmap nat (Vector Z)) !! 0 = Some one_two_three
  ∧ well_formed one_two_three
  ∧ Program.exec (Program.Delete 0) ({[0 := one_two_three]} : gmap nat (Vector Z))
    = Returns tt (delete 0 {[0 := one_two_three]})
        [Destroy 0; Destroy 1; Destroy 2].
Proof.
  assert (({[0 := one_two_three]} : gmap nat (Vector Z)) !! 0 = Some one_two_three)
    as Hv by reflexivity.
  assert (well_formed one_two_three) as Hwf by (split; simpl; lia).
  split; [exact Hv|]. split; [exact Hwf|].
  destruct (Delete_destroys_elements {[0 := one_two_three]} 0 one_two_three Hv Hwf)
    as [Hrun _].
  exact Hrun.
Defined.

(** X23. [K >= 1] consecutive [PushBack] on a default-constructed vector
    transfer elements between blocks, by move or by copy, exactly
    [Capacity() - 1] times in all, which is less than [2 * K - 1]: the cost
    of growing is constant per insertion on average. *)
Theorem PushBack_amortised {T : Type} `{!Element T} (xs : list T) :
  1 ≤ length xs →
  ∃ v tr,
    PushBack_all xs Vector.default = Returns tt v tr
    ∧ Vector.Size v = length xs
    ∧ transfers tr + 1 = Vector.Capacity v
    ∧ transfers tr + 1 < 2 * length xs.
Proof.
  intros HK.
  assert (well_formed (Vector.default (T:=T))) as Hwf by (split; simpl; lia).
  assert (xs ≠ []) as Hne by (by destruct xs; [simpl in HK; lia|]).
  destruct (PushBack_all_spec xs Vector.default Hwf) as (v & tr & Hrun & Hsize & Hcap & _);
    [by left|done|].
  destruct (PushBack_all_transfers xs Vector.default Hwf Hne)
    as (v' & tr' & Hrun' & _ & _ & Hcount).
  rewrite Hrun in Hrun'. injection Hrun' as <- <-.
  exists v, tr. change (Vector.Capacity Vector.default) with 0 in Hcount.
  change (size_ Vector.default) with 0 in *. cbn [Nat.add] in *.
  split_and!; [done|done|lia|].
  rewrite Nat.max_l in Hcount by lia. rewrite Hcount, Hcap.
  destruct (decide (length xs = 1)) as [->|Hmany]; [cbn; lia|].
  destruct (Nat.log2_up_spec (length xs)) as [Hlow _]; [lia|].
  assert (0 < Nat.log2_up (length xs)) as Hlog by (apply Nat.log2_up_pos; lia).
  replace (Nat.log2_up (length xs)) with (S (Nat.pred (Nat.log2_up (length xs))))
    by lia.
  rewrite Nat.pow_succ_r'. lia.
Qed.

(** Five [PushBack] on a new vector of [int]: capacity 8 after 1 + 2 + 4
    transfers. *)
Lemma PushBack_amortised_five :
  1 ≤ length [1; 2; 3; 4; 5]%Z
  ∧ ∃ v tr,
      PushBack_all [1; 2; 3; 4; 5]%Z Vector.default = Returns tt v tr
      ∧ transfers tr + 1 = Vector.Capacity v
      ∧ transfers tr + 1 < 2 * length [1; 2; 3; 4; 5]%Z.
Proof.
  assert (1 ≤ length [1; 2; 3; 4; 5]%Z) as HK by (simpl; lia).
  split; [exact HK|].
  destruct (PushBack_amortised [1; 2; 3; 4; 5]%Z HK)
    as (v & tr & Hrun & _ & Hcount & Hbound).
  exists v, tr. split_and!; [exact Hrun|exact Hcount|exact Hbound].
Defined.

(** ** [Erase] and [Reserve] at the limits of the machine *)

(** X24. On every machine: [Erase] at the index [i] of a vector of an
    element type whose assignment is a store, as that of a trivially
    copyable type is, and [Erase] of the last element of a vector of any
    type, return the position they were given, destroy the element at [i]
    and move-assign the elements behind it one slot down, front to back; the
    size goes down by one, the block stays where it is, and the vector holds
    what it held without its [i]-th element. *)
Theorem Erase_removes_one_where_defined {T : Type} `{!Element T}
    {machine : Machine} (v : Vector T) (i : nat) :
  well_formed v → i < size_ v →
  assignment_is_store T ∨ i + 1 = size_ v →
  ∃ v',
    Vector.Erase (Vector.begin v + i) v
    = Returns (Vector.begin v + i) v'
        (Destroy i :: (MoveAssign <$> seq i (size_ v - 1 - i)))
    ∧ size_ v' = size_ v - 1
    ∧ Vector.Capacity v' = Vector.Capacity v
    ∧ Vector.begin v' = Vector.begin v
    ∧ elements v' = delete i (elements v)
    ∧ well_formed v'.
Proof.
  intros Hwf Hi [Hstore|Hlast].
  - destruct (Erase_stores Hstore v i Hwf Hi)
      as (v' & Hrun & Hsize & Hcap & Helems & Hwf').
    exists v'. split_and!; [done..| |done|done].
    by destruct (Erase_keeps_block _ _ _ _ _ Hrun).
  - assert (i = size_ v - 1) as -> by lia.
    rewrite Erase_last by (done || lia).
    replace (size_ v - 1 - (size_ v - 1)) with 0 by lia.
    eexists. split; [reflexivity|].
    destruct Hwf as [Hlen Hsize]. unfold elements, well_formed. simpl.
    split_and!; [done..| |by rewrite length_insert|lia].
    rewrite take_insert_ge by done.
    destruct (block_around (buffer_ (data_ v)) (size_ v - 1) (size_ v))
      as (pre & s & mid & post & Hb & Hpre & Hmid); [lia..|].
    destruct mid; [|simpl in Hmid; lia]. rewrite Hb. cbn [app].
    rewrite (take_app_exact pre) by done.
    replace (pre ++ s :: post) with ((pre ++ [s]) ++ post) by by rewrite <-app_assoc.
    rewrite (take_app_exact (pre ++ [s])) by (rewrite length_app; simpl; lia).
    rewrite <-Hpre. by rewrite delete_middle, app_nil_r.
Qed.

(** [Erase] of the last of the strings ["a", "b"], on the LP64 machine. *)
Lemma Erase_removes_one_where_defined_last_string :
  well_formed a_b ∧ 1 < size_ a_b
  ∧ (assignment_is_store (machine := lp64) String.string ∨ 1 + 1 = size_ a_b)
  ∧ ∃ v',
      Vector.Erase (machine := lp64) (Vector.begin a_b + 1) a_b
      = Returns (Vector.begin a_b + 1) v' [Destroy 1]
      ∧ elements v' = [Some "a"%string].
Proof.
  assert (well_formed a_b) as Hwf by (split; simpl; lia).
  assert (1 < size_ a_b) as Hi by (simpl; lia).
  assert (assignment_is_store (machine := lp64) String.string ∨ 1 + 1 = size_ a_b)
    as Hdefined by (right; reflexivity).
  split; [exact Hwf|]. split; [exact Hi|]. split; [exact Hdefined|].
  destruct (Erase_removes_one_where_defined (machine := lp64) a_b 1 Hwf Hi Hdefined)
    as (v' & Hrun & _ & _ & _ & Helems & _).
  exists v'. split; [exact Hrun|exact Helems].
Defined.

(** X25. On every machine where an assignment needs an object, and for
    every element type that is not trivially copyable: [Erase] in front of
    the last element of a vector is undefined.  The element at the position
    is destroyed before the next one is move-assigned to it. *)
Theorem Erase_undefined_where_assignment_needs_object {T : Type} `{!Element T}
    {machine : Machine} (v : Vector T) (i : nat) :
  assignment_needs_object = true → is_trivially_copyable (T:=T) = false →
  well_formed v → i + 1 < size_ v →
  Vector.Erase (Vector.begin v + i) v = Undefined.
Proof.
  destruct v as [[addr b cap] size]. unfold well_formed. simpl.
  intros Hneeds Htrivial [Hlen Hsize] Hi.
  destruct (block_around b i size) as (pre & s & mid & post & -> & Hpre & Hmid);
    [lia..|].
  destruct mid as [|m mid]; [simpl in Hmid; lia|].
  unfold Vector.Erase. run. pointers.
  rewrite assert_true by lia. run. fields.
  rewrite (destroy_at_middle _ _ _ _ (eq_sym Hpre)). run.
  replace (addr + i + 1 - addr) with (S i) by lia.
  rewrite decide_True by lia. run. fields.
  unfold std.move. replace (size - S i) with (S (length mid)) by (simpl in Hmid; lia).
  cbn [std.move_n]. run. unfold std.move_assign. run.
  rewrite (snoc_app pre), (read_middle _ _ _ _ (length_snoc _ _ _ (eq_sym Hpre))).
  rewrite <-snoc_app. run.
  by rewrite (assign_no_object pre _ _ _ Hneeds Htrivial (eq_sym Hpre)).
Qed.

(** [Erase(begin())] on the strings ["a", "b"], on the LP64 machine. *)
Lemma Erase_undefined_first_string :
  assignment_needs_object (Machine := lp64) = true
  ∧ is_trivially_copyable (T := String.string) = false
  ∧ well_formed a_b ∧ 0 + 1 < size_ a_b
  ∧ Vector.Erase (machine := lp64) (Vector.begin a_b + 0) a_b = Undefined.
Proof.
  assert (assignment_needs_object (Machine := lp64) = true) as Hneeds by reflexivity.
  assert (is_trivially_copyable (T := String.string) = false) as Htrivial
    by reflexivity.
  assert (well_formed a_b) as Hwf by (split; simpl; lia).
  assert (0 + 1 < size_ a_b) as Hi by (simpl; lia).
  split; [exact Hneeds|]. split; [exact Htrivial|]. split; [exact Hwf|].
  split; [exact Hi|].
  exact (Erase_undefined_where_assignment_needs_object (machine := lp64) a_b 0
           Hneeds Htrivial Hwf Hi).
Defined.

(** X26. [Reserve(2^62)] on a vector of [int], on the LP64 machine: the
    count of bytes of the request, [2^64], wraps around to 0, and
    [operator new] gives a block of no slot.  On the vector [1, 2, 3] the
    transfer of the elements writes past the end of that block, which is
    undefined; on an empty vector the call returns and leaves the capacity
    [2^62] over a block that has no slot. *)
Theorem Reserve_wrapped_request :
  Vector.Capacity one_two_three < wrapping_count
  ∧ size_t (machine := lp64) (N.of_nat wrapping_count * N.pos (sizeof (T:=Z)))
    = 0%N
  ∧ Vector.Reserve (machine := lp64) wrapping_count one_two_three = Undefined
  ∧ ∃ v' : Vector Z,
      Vector.Reserve (machine := lp64) wrapping_count Vector.default
      = Returns tt v' []
      ∧ Vector.Capacity v' = wrapping_count
      ∧ buffer_ (data_ v') = []
      ∧ ¬ well_formed v'.
Proof.
  assert (4 < wrapping_count) as Hmany by (unfold wrapping_count; lia).
  assert (0 < wrapping_count) as Hsome by (unfold wrapping_count; lia).
  split; [exact Hmany|]. split; [exact wrapping_count_wraps|]. split.
  - apply Reserve_wraps_elements; [exact Hmany|exact wrapping_count_wraps|].
    discriminate.
  - apply Reserve_wraps_empty; [exact Hsome|exact wrapping_count_wraps|].
    reflexivity.
Qed.
